(** * Region-labelling core of the segmentation editor (visualize.py)

    A shallow embedding of the label grid, the flood fill, the border
    extraction, the region store, the selection set and the undo/redo
    history of [ImageCanvas], followed by the properties proved about
    them.  Also embedded: the loading of a mask with or without its label
    array, the saving of the label array, the statistics and the selection
    overlay of the grid, the redrawing of the mask from the store,
    panning, and the array parts of [analyze_npy.py] and
    [reset_labels.py].

    Conventions of the embedding.
    - Python integers are [Z]; pixel coordinates are pairs [(x, y)].
    - A NumPy 2-D array is a list of rows, read and written by index with
      stdpp's lookup and insert.  The source guards every array access by
      a bounds check, so negative indices never reach an array.  Region
      ids are taken to fit the [int32] cells of the label grid.  A label
      read from a label array may keep the integer type of the array, so
      that [label + 1] is exact only below the greatest value of that
      type; what is proved about the id allocated after a load is stated
      for labels below 32767, the greatest value of the 16-bit arrays
      that [save_mask] writes.
    - A Qt image is known through [width()], [height()], [pixelColor] and
      [setPixelColor] only; what [QPainter] draws for a point or a line is
      a parameter of the operations that draw.
    - A Python [dict] is an association list in insertion order.  A Python
      [set] is a list without repetition, in the order in which the set is
      iterated; nothing proved here depends on that order.  A Python list
      used as a stack keeps its top (the last element) at the head.
    - A region object is shared by the store and the history entries that
      mention it; the only field ever mutated, [border_pixels], is written
      before the object is recorded, so records are copied freely.
    - The canvas is modelled once an image and a mask are present
      ([original_pixmap] and [mask_pixmap] are set); before that every
      operation returns at once.
    - Random colours and widget-to-image coordinate conversion belong to
      the user interface: operations take the colour and the image
      coordinates as arguments.  Progress dialogs are never cancelled. *)

From Stdlib Require Import ZArith Lia.
From stdpp Require Import base list sorting.

Local Open Scope Z_scope.

(** ** Pixels and colours *)

Abbreviation point := (Z * Z)%type.
Abbreviation color := (Z * Z * Z)%type.

Definition black : color := (0, 0, 0).
Definition white : color := (255, 255, 255).

(** [range(n)] *)
Definition range (n : nat) : list Z := map Z.of_nat (seq 0 n).

(** ** NumPy arrays *)

Module np.

Abbreviation ndarray A := (list (list A)) (only parsing).

(** [np.zeros((h, w))] *)
Definition zeros {A} (v : A) (h w : nat) : ndarray A :=
  replicate h (replicate w v).

(** [np.zeros_like(a)] and [a.fill(v)]: same shape, every cell [v]. *)
Definition zeros_like {A B} (v : B) (a : ndarray A) : ndarray B :=
  map (map (λ _, v)) a.

(** [a.shape[0]] and [a.shape[1]] *)
Definition height {A} (a : ndarray A) : Z := Z.of_nat (length a).
Definition width {A} (a : ndarray A) : Z :=
  Z.of_nat (match a with [] => 0%nat | r :: _ => length r end).

(** [a[y, x]]; [d] stands for a cell that does not exist. *)
Definition get {A} (d : A) (a : ndarray A) (y x : Z) : A :=
  default d (a !! Z.to_nat y ≫= (.!! Z.to_nat x)).

(** [a[y, x] = v] *)
Definition set {A} (a : ndarray A) (y x : Z) (v : A) : ndarray A :=
  alter (<[Z.to_nat x := v]>) (Z.to_nat y) a.

End np.

(** ** Qt images *)

Record QImage : Type := {
  img_width : nat;
  img_height : nat;
  pixelColor : Z → Z → color
}.

Definition width (image : QImage) : Z := Z.of_nat (img_width image).
Definition height (image : QImage) : Z := Z.of_nat (img_height image).

Definition setPixelColor (image : QImage) (x y : Z) (c : color) : QImage :=
  {| img_width := img_width image;
     img_height := img_height image;
     pixelColor := λ x' y',
       if bool_decide (x' = x ∧ y' = y) then c else pixelColor image x' y' |}.

(** ** Flood fill *)

(** The four neighbours, in the order the source lists them. *)
Definition neighbors (x y : Z) : list point :=
  [(x + 1, y); (x - 1, y); (x, y + 1); (x, y - 1)].

Definition out_of_bounds (width height x y : Z) : bool :=
  (x <? 0) || (x >=? width) || (y <? 0) || (y >=? height).

Definition inside (width height x y : Z) : bool :=
  (0 <=? x) && (x <? width) && (0 <=? y) && (y <? height).

(** The [for nx, ny in neighbors] loop: [stack.append] of every neighbour
    that is in bounds, not visited and of the target colour. *)
Definition push_neighbors (target_mask visited : np.ndarray bool)
    (width height : Z) (x y : Z) (stack : list point) : list point :=
  foldl (λ stack '(nx, ny),
           if inside width height nx ny
              && negb (np.get false visited ny nx)
              && np.get false target_mask ny nx
           then (nx, ny) :: stack else stack)
        stack (neighbors x y).

(** The [while stack] loop of [_numpy_flood_fill]; one unit of fuel per
    iteration. *)
Fixpoint flood_loop (fuel : nat) (target_mask : np.ndarray bool)
    (width height : Z) (visited : np.ndarray bool) (stack : list point)
    (filled_pixels : list point) : option (list point) :=
  match stack with
  | [] => Some filled_pixels
  | (x, y) :: stack =>
    match fuel with
    | O => None
    | S fuel =>
      if out_of_bounds width height x y then
        flood_loop fuel target_mask width height visited stack filled_pixels
      else if np.get false visited y x
              || negb (np.get false target_mask y x) then
        flood_loop fuel target_mask width height visited stack filled_pixels
      else
        let visited := np.set visited y x true in
        let filled_pixels := filled_pixels ++ [(x, y)] in
        let stack :=
          push_neighbors target_mask visited width height x y stack in
        flood_loop fuel target_mask width height visited stack filled_pixels
    end
  end.

(** Iterations the loop is given: each cell is filled at most once and
    pushes at most four neighbours. *)
Definition flood_fuel {A} (a : np.ndarray A) : nat :=
  (5 * Z.to_nat (np.height a) * Z.to_nat (np.width a) + 1)%nat.

Definition _numpy_flood_fill (start_x start_y : Z)
    (target_mask : np.ndarray bool) : option (list point) :=
  let height := np.height target_mask in
  let width := np.width target_mask in
  let visited := np.zeros_like false target_mask in
  flood_loop (flood_fuel target_mask) target_mask width height visited
    [(start_x, start_y)] [].

(** The boolean mask of the pixels whose colour is [target_color]. *)
Definition build_target_mask (image : QImage) (target_color : color)
    : np.ndarray bool :=
  map (λ y, map (λ x, bool_decide (pixelColor image x y = target_color))
                (range (img_width image)))
      (range (img_height image)).

Definition flood_fill (image : QImage) (start_x start_y : Z)
    (fill_color : color) : option (QImage * list point) :=
  let target_color := pixelColor image start_x start_y in
  let target_mask := build_target_mask image target_color in
  filled_pixels ← _numpy_flood_fill start_x start_y target_mask;
  Some (foldl (λ image '(x, y), setPixelColor image x y fill_color)
              image filled_pixels,
        filled_pixels).

(** *** Vocabulary of the flood-fill proofs *)

(** The cell [a[y, x]] exists. *)
Definition has_cell {A} (a : np.ndarray A) (y x : Z) : Prop :=
  ∃ r, a !! Z.to_nat y = Some r ∧ (Z.to_nat x < length r)%nat.

(** A pixel the traversal may fill: in bounds and set in the mask. *)
Definition target (M : np.ndarray bool) (p : point) : Prop :=
  inside (np.width M) (np.height M) p.1 p.2 = true
  ∧ np.get false M p.2 p.1 = true.

(** Pixels joined to the seed by a 4-connected path of target pixels. *)
Inductive mask_reach (M : np.ndarray bool) (sx sy : Z) : point → Prop :=
  | mask_reach_seed :
      target M (sx, sy) → mask_reach M sx sy (sx, sy)
  | mask_reach_step x y n :
      mask_reach M sx sy (x, y) → n ∈ neighbors x y → target M n →
      mask_reach M sx sy n.

(** The loop invariant of [_numpy_flood_fill]. *)
Record flood_inv (M : np.ndarray bool) (sx sy : Z)
    (visited : np.ndarray bool) (stack filled : list point) : Prop := {
  inv_cell : ∀ y x, has_cell M y x → has_cell visited y x;
  inv_visited : ∀ x y, 0 ≤ x → 0 ≤ y →
    (np.get false visited y x = true ↔ (x, y) ∈ filled);
  inv_nodup : NoDup filled;
  inv_filled : ∀ p, p ∈ filled → mask_reach M sx sy p;
  inv_stack : ∀ p, p ∈ stack → target M p → mask_reach M sx sy p;
  inv_closed : ∀ x y n, (x, y) ∈ filled → n ∈ neighbors x y → target M n →
    n ∈ filled ∨ n ∈ stack;
  inv_seed : target M (sx, sy) → (sx, sy) ∈ filled ∨ (sx, sy) ∈ stack
}.

(** Every cell of a [w] by [h] grid, once. *)
Definition all_cells (w h : nat) : list point :=
  list_prod (range w) (range h).

(** The 4-connected component of the seed among the in-bounds pixels of
    the seed's colour: what the flood fill is meant to return. *)
Inductive component (image : QImage) (sx sy : Z) : point → Prop :=
  | component_seed :
      inside (width image) (height image) sx sy = true →
      component image sx sy (sx, sy)
  | component_step x y nx ny :
      component image sx sy (x, y) →
      (nx, ny) ∈ neighbors x y →
      inside (width image) (height image) nx ny = true →
      pixelColor image nx ny = pixelColor image sx sy →
      component image sx sy (nx, ny).

Definition img3 : QImage :=
  {| img_width := 3; img_height := 3; pixelColor := λ _ _, black |}.


(** ** Regions, strokes and history entries *)

Record Segmentation : Type := {
  seg_id : Z;
  seg_color : color;
  pixels : list point;
  border_pixels : list point
}.

Record Drawing : Type := {
  draw_id : Z;
  draw_pixels : list point;
  thickness : Z
}.

(** An entry of the undo or redo stack: the dictionary
    [{'type': ..., 'data': ...}]. *)
Inductive Operation : Type :=
  | OpSegmentation (data : Segmentation)
  | OpDrawing (data : Drawing)
  | OpMerge (old_segmentations : list Segmentation)
            (new_segmentation : Segmentation).

(** ** Python dictionaries and sets *)

Fixpoint dict_get {V} (k : Z) (d : list (Z * V)) : option V :=
  match d with
  | [] => None
  | (k', v) :: d => if decide (k = k') then Some v else dict_get k d
  end.

(** [d[k] = v]: an existing key keeps its place, a new key goes last. *)
Fixpoint dict_set {V} (k : Z) (v : V) (d : list (Z * V)) : list (Z * V) :=
  match d with
  | [] => [(k, v)]
  | (k', v') :: d =>
      if decide (k = k') then (k, v) :: d else (k', v') :: dict_set k v d
  end.

(** [if k in d: del d[k]] *)
Definition dict_del {V} (k : Z) (d : list (Z * V)) : list (Z * V) :=
  filter (λ kv, kv.1 ≠ k) d.

Definition dict_keys {V} (d : list (Z * V)) : list Z := map fst d.

(** [max(d.keys())] of a dictionary that is not empty. *)
Definition max_key {V} (d : list (Z * V)) : option Z :=
  match dict_keys d with
  | [] => None
  | k :: ks => Some (foldl Z.max k ks)
  end.

(** [s.add(x)]; the list gives the order in which the set is iterated. *)
Definition set_add (x : Z) (s : list Z) : list Z :=
  if decide (x ∈ s) then s else s ++ [x].

(** [s.discard(x)] *)
Definition set_discard (x : Z) (s : list Z) : list Z :=
  filter (λ y, y ≠ x) s.

(** ** The painter

    [QPainter.drawPoint] and [QPainter.drawLine] with a round pen of a
    given colour and thickness are Qt's; the canvas only relies on their
    returning an image. *)
Record QPainter : Type := {
  drawPoint : color → Z → QImage → point → QImage;
  drawLine : color → Z → QImage → point → point → QImage
}.

(** ** The canvas *)

Record ImageCanvas : Type := {
  original_width : nat;
  original_height : nat;
  mask_pixmap : QImage;
  segmentations : list (Z * Segmentation);
  next_seg_id : Z;
  drawings : list (Z * Drawing);
  next_draw_id : Z;
  undo_stack : list Operation;
  redo_stack : list Operation;
  pixel_labels : option (np.ndarray Z);
  selected_segmentations : list Z
}.

Definition set_mask_pixmap (c : ImageCanvas) (m : QImage) : ImageCanvas :=
  {| original_width := original_width c; original_height := original_height c;
     mask_pixmap := m; segmentations := segmentations c;
     next_seg_id := next_seg_id c; drawings := drawings c;
     next_draw_id := next_draw_id c; undo_stack := undo_stack c;
     redo_stack := redo_stack c; pixel_labels := pixel_labels c;
     selected_segmentations := selected_segmentations c |}.

Definition set_segmentations (c : ImageCanvas) (d : list (Z * Segmentation))
    : ImageCanvas :=
  {| original_width := original_width c; original_height := original_height c;
     mask_pixmap := mask_pixmap c; segmentations := d;
     next_seg_id := next_seg_id c; drawings := drawings c;
     next_draw_id := next_draw_id c; undo_stack := undo_stack c;
     redo_stack := redo_stack c; pixel_labels := pixel_labels c;
     selected_segmentations := selected_segmentations c |}.

Definition set_next_seg_id (c : ImageCanvas) (n : Z) : ImageCanvas :=
  {| original_width := original_width c; original_height := original_height c;
     mask_pixmap := mask_pixmap c; segmentations := segmentations c;
     next_seg_id := n; drawings := drawings c;
     next_draw_id := next_draw_id c; undo_stack := undo_stack c;
     redo_stack := redo_stack c; pixel_labels := pixel_labels c;
     selected_segmentations := selected_segmentations c |}.

Definition set_drawings (c : ImageCanvas) (d : list (Z * Drawing))
    : ImageCanvas :=
  {| original_width := original_width c; original_height := original_height c;
     mask_pixmap := mask_pixmap c; segmentations := segmentations c;
     next_seg_id := next_seg_id c; drawings := d;
     next_draw_id := next_draw_id c; undo_stack := undo_stack c;
     redo_stack := redo_stack c; pixel_labels := pixel_labels c;
     selected_segmentations := selected_segmentations c |}.

Definition set_next_draw_id (c : ImageCanvas) (n : Z) : ImageCanvas :=
  {| original_width := original_width c; original_height := original_height c;
     mask_pixmap := mask_pixmap c; segmentations := segmentations c;
     next_seg_id := next_seg_id c; drawings := drawings c;
     next_draw_id := n; undo_stack := undo_stack c;
     redo_stack := redo_stack c; pixel_labels := pixel_labels c;
     selected_segmentations := selected_segmentations c |}.

Definition set_stacks (c : ImageCanvas) (u r : list Operation) : ImageCanvas :=
  {| original_width := original_width c; original_height := original_height c;
     mask_pixmap := mask_pixmap c; segmentations := segmentations c;
     next_seg_id := next_seg_id c; drawings := drawings c;
     next_draw_id := next_draw_id c; undo_stack := u;
     redo_stack := r; pixel_labels := pixel_labels c;
     selected_segmentations := selected_segmentations c |}.

Definition set_pixel_labels (c : ImageCanvas) (a : option (np.ndarray Z))
    : ImageCanvas :=
  {| original_width := original_width c; original_height := original_height c;
     mask_pixmap := mask_pixmap c; segmentations := segmentations c;
     next_seg_id := next_seg_id c; drawings := drawings c;
     next_draw_id := next_draw_id c; undo_stack := undo_stack c;
     redo_stack := redo_stack c; pixel_labels := a;
     selected_segmentations := selected_segmentations c |}.

Definition set_selected (c : ImageCanvas) (s : list Z) : ImageCanvas :=
  {| original_width := original_width c; original_height := original_height c;
     mask_pixmap := mask_pixmap c; segmentations := segmentations c;
     next_seg_id := next_seg_id c; drawings := drawings c;
     next_draw_id := next_draw_id c; undo_stack := undo_stack c;
     redo_stack := redo_stack c; pixel_labels := pixel_labels c;
     selected_segmentations := s |}.

(** ** The label grid *)

Definition initialize_pixel_labels (c : ImageCanvas) : np.ndarray Z :=
  np.zeros 0 (original_height c) (original_width c).

(** The inner loop of [update_pixel_labels]: one region's pixels. *)
Definition label_pixels (seg_id : Z) (labels : np.ndarray Z)
    (pixels : list point) : np.ndarray Z :=
  foldl (λ labels '(x, y),
           if (0 <=? y) && (y <? np.height labels)
              && (0 <=? x) && (x <? np.width labels)
           then np.set labels y x seg_id else labels)
        labels pixels.

(** The outer loop: the regions in the order the dictionary holds them. *)
Definition label_segmentations (labels : np.ndarray Z)
    (segmentations : list (Z * Segmentation)) : np.ndarray Z :=
  foldl (λ labels '(seg_id, segmentation),
           label_pixels seg_id labels (pixels segmentation))
        labels segmentations.

Definition update_pixel_labels (c : ImageCanvas) : ImageCanvas :=
  let labels := match pixel_labels c with
                | None => initialize_pixel_labels c
                | Some labels => labels
                end in
  let labels := np.zeros_like 0 labels in
  set_pixel_labels c (Some (label_segmentations labels (segmentations c))).

Definition get_pixel_label (pixel_labels : option (np.ndarray Z)) (x y : Z)
    : Z :=
  match pixel_labels with
  | None => 0
  | Some labels =>
      if (x <? 0) || (y <? 0) then 0
      else if (y >=? np.height labels) || (x >=? np.width labels) then 0
      else np.get 0 labels y x
  end.

Definition get_segmentation_at_pixel (c : ImageCanvas) (x y : Z)
    : option Segmentation :=
  let label := get_pixel_label (pixel_labels c) x y in
  if label =? 0 then None else dict_get label (segmentations c).

(** ** Border extraction *)

(** The body of the loop over a region's pixels: some in-bounds neighbour
    is outside the region's pixel set and carries another label. *)
Definition is_border_pixel (c : ImageCanvas) (segmentation : Segmentation)
    (p : point) : bool :=
  let '(x, y) := p in
  existsb (λ '(nx, ny),
             (0 <=? nx) && (nx <? Z.of_nat (original_width c))
             && (0 <=? ny) && (ny <? Z.of_nat (original_height c))
             && negb (bool_decide ((nx, ny) ∈ pixels segmentation))
             && negb (get_pixel_label (pixel_labels c) nx ny
                      =? seg_id segmentation))
          (neighbors x y).

(** The progress dialog shown for more than 5000 pixels is never
    cancelled here. *)
Definition compute_segmentation_borders (c : ImageCanvas)
    (segmentation : Segmentation) : Segmentation :=
  {| seg_id := seg_id segmentation;
     seg_color := seg_color segmentation;
     pixels := pixels segmentation;
     border_pixels :=
       match pixels segmentation with
       | [] => []
       | _ => filter (λ p, is_border_pixel c segmentation p)
                     (pixels segmentation)
       end |}.

(** ** Painting on the mask *)

(** [setPixelColor] on every pixel of the list that is inside the image. *)
Definition paint_pixels (image : QImage) (pixels : list point) (c : color)
    : QImage :=
  foldl (λ image '(x, y),
           if (0 <=? x) && (x <? width image)
              && (0 <=? y) && (y <? height image)
           then setPixelColor image x y c else image)
        image pixels.

Definition set_segmentation_pixels_to_black (image : QImage)
    (pixels : list point) : QImage :=
  paint_pixels image pixels black.

Definition redraw_segmentation_pixels (image : QImage)
    (segmentation : Segmentation) : QImage :=
  paint_pixels image (pixels segmentation) (seg_color segmentation).

(** Lines between consecutive pixels whose two ends are inside the image:
    the loop of [draw_black_lines_between_pixels] and of
    [redraw_drawing_pixels]. *)
Definition draw_lines_between_pixels (qp : QPainter) (c : color)
    (image : QImage) (pixels : list point) (thickness : Z) : QImage :=
  if (length pixels <? 2)%nat then image else
  foldl (λ im '((x1, y1), (x2, y2)),
           if inside (width image) (height image) x1 y1
              && inside (width image) (height image) x2 y2
           then drawLine qp c thickness im (x1, y1) (x2, y2) else im)
        image (zip pixels (tail pixels)).

Definition draw_black_lines_between_pixels (qp : QPainter) (image : QImage)
    (pixels : list point) (thickness : Z) : QImage :=
  draw_lines_between_pixels qp black image pixels thickness.

Definition redraw_drawing_pixels (qp : QPainter) (image : QImage)
    (drawing : Drawing) : QImage :=
  draw_lines_between_pixels qp white image (draw_pixels drawing)
    (thickness drawing).

(** ** History *)

Definition push_to_undo_stack (c : ImageCanvas) (op : Operation)
    : ImageCanvas :=
  set_stacks c (op :: undo_stack c) [].

(** ** Flood fill at a position *)

Definition is_pixel_black (image : QImage) (x y : Z) : bool :=
  if (x <? 0) || (x >=? width image) || (y <? 0) || (y >=? height image)
  then false
  else let '(r, g, b) := pixelColor image x y in
       (r <? 10) && (g <? 10) && (b <? 10).

(** The source stores the new region, then computes its border in place;
    the border depends on the canvas through the grid and the image size
    only, so it is computed here before the region is stored.  The fuel of
    the traversal always suffices ([numpy_flood_fill_correct]); the branch
    for [None] is never taken. *)
Definition flood_fill_at_position (random_color : color) (x y : Z)
    (c : ImageCanvas) : ImageCanvas :=
  if is_pixel_black (mask_pixmap c) x y then
    match flood_fill (mask_pixmap c) x y random_color with
    | None => c
    | Some (image, filled_pixels) =>
        let c := set_mask_pixmap c image in
        match filled_pixels with
        | [] => c
        | _ =>
            let segmentation :=
              compute_segmentation_borders c
                {| seg_id := next_seg_id c; seg_color := random_color;
                   pixels := filled_pixels; border_pixels := [] |} in
            let c := set_segmentations c
                       (dict_set (next_seg_id c) segmentation
                          (segmentations c)) in
            let c := set_next_seg_id c (next_seg_id c + 1) in
            let c := push_to_undo_stack c (OpSegmentation segmentation) in
            update_pixel_labels c
        end
    end
  else c.

(** ** Strokes

    A stroke is a press at [p0], a drag through [moves] and a release.
    [remove] tells the remove mode (black pen) from the drawing mode
    (white pen). *)

Definition pen_color (remove : bool) : color :=
  if remove then black else white.

Definition draw_at_position (qp : QPainter) (remove : bool) (pen : Z)
    (c : ImageCanvas) (pos : point) : ImageCanvas :=
  set_mask_pixmap c (drawPoint qp (pen_color remove) pen (mask_pixmap c) pos).

(** [draw_line]: paints the segment and records its two ends. *)
Definition draw_line (qp : QPainter) (remove : bool) (pen : Z)
    (c : ImageCanvas) (current_drawing : Drawing) (start_pos end_pos : point)
    : ImageCanvas * Drawing :=
  (set_mask_pixmap c
     (drawLine qp (pen_color remove) pen (mask_pixmap c) start_pos end_pos),
   {| draw_id := draw_id current_drawing;
      draw_pixels := draw_pixels current_drawing ++ [start_pos; end_pos];
      thickness := thickness current_drawing |}).

Definition stroke (qp : QPainter) (remove : bool) (pen : Z) (p0 : point)
    (moves : list point) (c : ImageCanvas) : ImageCanvas :=
  (* mousePressEvent *)
  let current_drawing :=
    {| draw_id := next_draw_id c; draw_pixels := []; thickness := pen |} in
  let c := set_next_draw_id c (next_draw_id c + 1) in
  let c := draw_at_position qp remove pen c p0 in
  (* mouseMoveEvent, once per position *)
  let '(c, current_drawing, _) :=
    foldl (λ '(c, current_drawing, last_pos) pos,
             let '(c, current_drawing) :=
               draw_line qp remove pen c current_drawing last_pos pos in
             (c, current_drawing, pos))
          (c, current_drawing, p0) moves in
  (* mouseReleaseEvent *)
  if (0 <? length (draw_pixels current_drawing))%nat then
    let c := set_drawings c
               (dict_set (draw_id current_drawing) current_drawing
                  (drawings c)) in
    push_to_undo_stack c (OpDrawing current_drawing)
  else c.

(** ** Undo and redo *)

Definition undo_last_operation (qp : QPainter) (c : ImageCanvas)
    : ImageCanvas :=
  match undo_stack c with
  | [] => c
  | last_operation :: rest =>
      let c := set_stacks c rest (redo_stack c) in
      let c :=
        match last_operation with
        | OpSegmentation _ =>
            match max_key (segmentations c) with
            | None => c
            | Some last_seg_id =>
                match dict_get last_seg_id (segmentations c) with
                | None => c
                | Some removed_seg =>
                    let c := set_segmentations c
                               (dict_del last_seg_id (segmentations c)) in
                    let c := set_mask_pixmap c
                               (set_segmentation_pixels_to_black
                                  (mask_pixmap c) (pixels removed_seg)) in
                    set_stacks c (undo_stack c)
                      (last_operation :: redo_stack c)
                end
            end
        | OpDrawing _ =>
            match max_key (drawings c) with
            | None => c
            | Some last_draw_id =>
                match dict_get last_draw_id (drawings c) with
                | None => c
                | Some removed_draw =>
                    let c := set_drawings c
                               (dict_del last_draw_id (drawings c)) in
                    let c := set_mask_pixmap c
                               (draw_black_lines_between_pixels qp
                                  (mask_pixmap c) (draw_pixels removed_draw)
                                  (thickness removed_draw)) in
                    set_stacks c (undo_stack c)
                      (last_operation :: redo_stack c)
                end
            end
        | OpMerge old_segmentations new_segmentation =>
            let c := set_segmentations c
                       (dict_del (seg_id new_segmentation)
                          (segmentations c)) in
            let c := set_segmentations c
                       (foldl (λ d segmentation,
                                 dict_set (seg_id segmentation) segmentation d)
                              (segmentations c) old_segmentations) in
            set_stacks c (undo_stack c) (last_operation :: redo_stack c)
        end in
      update_pixel_labels c
  end.

Definition redo_last_operation (qp : QPainter) (c : ImageCanvas)
    : ImageCanvas :=
  match redo_stack c with
  | [] => c
  | last_operation :: rest =>
      let c := set_stacks c (undo_stack c) rest in
      let c :=
        match last_operation with
        | OpSegmentation segmentation =>
            let c := set_segmentations c
                       (dict_set (seg_id segmentation) segmentation
                          (segmentations c)) in
            let c := set_mask_pixmap c
                       (redraw_segmentation_pixels (mask_pixmap c)
                          segmentation) in
            set_stacks c (last_operation :: undo_stack c) (redo_stack c)
        | OpDrawing drawing =>
            let c := set_drawings c
                       (dict_set (draw_id drawing) drawing (drawings c)) in
            let c := set_mask_pixmap c
                       (redraw_drawing_pixels qp (mask_pixmap c) drawing) in
            set_stacks c (last_operation :: undo_stack c) (redo_stack c)
        | OpMerge old_segmentations new_segmentation =>
            let c := set_segmentations c
                       (foldl (λ d segmentation,
                                 dict_del (seg_id segmentation) d)
                              (segmentations c) old_segmentations) in
            let c := set_segmentations c
                       (dict_set (seg_id new_segmentation) new_segmentation
                          (segmentations c)) in
            set_stacks c (last_operation :: undo_stack c) (redo_stack c)
        end in
      update_pixel_labels c
  end.

(** ** Removal *)

Definition remove_segmentation (segmentation : Segmentation)
    (c : ImageCanvas) : ImageCanvas :=
  let c := set_mask_pixmap c
             (paint_pixels (mask_pixmap c) (pixels segmentation) black) in
  let c := set_segmentations c
             (dict_del (seg_id segmentation) (segmentations c)) in
  let c := set_selected c
             (set_discard (seg_id segmentation) (selected_segmentations c)) in
  let c := set_stacks c [] [] in
  update_pixel_labels c.

(** A drag in remove mode over a position: the region there, if any, is
    removed. *)
Definition remove_at (c : ImageCanvas) (pos : point) : ImageCanvas :=
  match get_segmentation_at_pixel c pos.1 pos.2 with
  | Some segmentation =>
      update_pixel_labels (remove_segmentation segmentation c)
  | None => c
  end.

(** Press, drag and release in remove mode: a press on a region removes
    it and the drag removes the regions it meets; a press elsewhere starts
    a black stroke. *)
Definition mouse_remove (qp : QPainter) (pen : Z) (p0 : point)
    (moves : list point) (c : ImageCanvas) : ImageCanvas :=
  match get_segmentation_at_pixel c p0.1 p0.2 with
  | Some segmentation =>
      foldl remove_at
            (update_pixel_labels (remove_segmentation segmentation c)) moves
  | None => stroke qp true pen p0 moves c
  end.

(** ** Selection *)

Definition select_region_at_position (x y : Z) (shift_pressed : bool)
    (c : ImageCanvas) : ImageCanvas :=
  match get_segmentation_at_pixel c x y with
  | Some segmentation =>
      if shift_pressed then
        if bool_decide (seg_id segmentation ∈ selected_segmentations c)
        then set_selected c
               (set_discard (seg_id segmentation) (selected_segmentations c))
        else set_selected c
               (set_add (seg_id segmentation) (selected_segmentations c))
      else
        if bool_decide (seg_id segmentation ∈ selected_segmentations c)
        then set_selected c
               (set_discard (seg_id segmentation) (selected_segmentations c))
        else set_selected c [seg_id segmentation]
  | None => set_selected c []
  end.

(** The check box of a region in the side panel. *)
Definition toggle_segmentation_selection (seg_id : Z) (checked : bool)
    (c : ImageCanvas) : ImageCanvas :=
  if checked then set_selected c (set_add seg_id (selected_segmentations c))
  else set_selected c (set_discard seg_id (selected_segmentations c)).

Definition get_selected_segmentations (c : ImageCanvas)
    : list Segmentation :=
  omap (λ seg_id, dict_get seg_id (segmentations c))
       (selected_segmentations c).

(** ** Merge *)

Definition merge_selected_segmentations (new_color : color)
    (c : ImageCanvas) : ImageCanvas :=
  if (length (selected_segmentations c) <? 2)%nat then c else
  let old_segmentations := get_selected_segmentations c in
  let all_pixels := concat (map pixels old_segmentations) in
  let all_border_pixels := concat (map border_pixels old_segmentations) in
  match all_pixels with
  | [] => c
  | _ =>
      let merged_segmentation :=
        {| seg_id := next_seg_id c; seg_color := new_color;
           pixels := all_pixels; border_pixels := all_border_pixels |} in
      let c := set_segmentations c
                 (foldl (λ d seg_id, dict_del seg_id d)
                        (segmentations c) (selected_segmentations c)) in
      let c := set_segmentations c
                 (dict_set (next_seg_id c) merged_segmentation
                    (segmentations c)) in
      let c := set_next_seg_id c (next_seg_id c + 1) in
      let c := set_selected c [] in
      let c := push_to_undo_stack c
                 (OpMerge old_segmentations merged_segmentation) in
      let c := update_pixel_labels c in
      set_mask_pixmap c
        (paint_pixels (mask_pixmap c) (pixels merged_segmentation)
           (seg_color merged_segmentation))
  end.

(** ** Loading a mask *)

(** [create_blank_mask] on an image of the given size. *)
Definition create_blank_mask (w h : nat) : ImageCanvas :=
  {| original_width := w; original_height := h;
     mask_pixmap := {| img_width := w; img_height := h;
                       pixelColor := λ _ _, black |};
     segmentations := []; next_seg_id := 1;
     drawings := []; next_draw_id := 1;
     undo_stack := []; redo_stack := [];
     pixel_labels := None; selected_segmentations := [] |}.

(** [color_to_pixels[rgb].append((x, y))] *)
Fixpoint group_append (rgb : color) (p : point)
    (d : list (color * list point)) : list (color * list point) :=
  match d with
  | [] => [(rgb, [p])]
  | (rgb', ps) :: d =>
      if decide (rgb = rgb') then (rgb', ps ++ [p]) :: d
      else (rgb', ps) :: group_append rgb p d
  end.

(** The pixels of the mask grouped by colour, black and white left out,
    rows scanned from the top and each row from the left. *)
Definition color_to_pixels (image : QImage) : list (color * list point) :=
  foldl (λ d '(x, y),
           let rgb := pixelColor image x y in
           if bool_decide (rgb ≠ black ∧ rgb ≠ white)
           then group_append rgb (x, y) d else d)
        []
        (flat_map (λ y, map (λ x, (x, y)) (range (img_width image)))
                  (range (img_height image))).

(** The body of the loop that creates one region per colour found. *)
Definition create_extracted (c : ImageCanvas)
    (item : color * list point) : ImageCanvas :=
  let '(color_rgb, pixels) := item in
  let segmentation :=
    {| seg_id := next_seg_id c; seg_color := color_rgb;
       pixels := pixels; border_pixels := [] |} in
  let c := set_segmentations c
             (dict_set (next_seg_id c) segmentation (segmentations c)) in
  set_next_seg_id c (next_seg_id c + 1).

Definition extract_segmentations_from_mask (c : ImageCanvas) : ImageCanvas :=
  let c := foldl create_extracted c (color_to_pixels (mask_pixmap c)) in
  let c := update_pixel_labels c in
  set_segmentations c
    (map (λ '(k, segmentation),
            (k, compute_segmentation_borders c segmentation))
         (segmentations c)).

(** [load_mask] of a mask file that has no label array beside it, on an
    image of the given size. *)
Definition load_mask (w h : nat) (mask : QImage) : ImageCanvas :=
  extract_segmentations_from_mask
    {| original_width := w; original_height := h;
       mask_pixmap := mask;
       segmentations := []; next_seg_id := 1;
       drawings := []; next_draw_id := 1;
       undo_stack := []; redo_stack := [];
       pixel_labels := None; selected_segmentations := [] |}.

(** ** The core operations

    What the mouse and the buttons trigger, by mode: a click in paint
    mode, a stroke in drawing mode, a press and drag in remove mode, a
    click in select mode (ignored while there is no grid), a check box of
    the side panel, the merge button, undo and redo. *)

Inductive action : Type :=
  | FloodFill (random_color : color) (x y : Z)
  | Stroke (pen : Z) (p0 : point) (moves : list point)
  | Remove (pen : Z) (p0 : point) (moves : list point)
  | Select (x y : Z) (shift_pressed : bool)
  | Toggle (seg_id : Z) (checked : bool)
  | Merge (new_color : color)
  | Undo
  | Redo.

Definition step (qp : QPainter) (a : action) (c : ImageCanvas)
    : ImageCanvas :=
  match a with
  | FloodFill random_color x y => flood_fill_at_position random_color x y c
  | Stroke pen p0 moves => stroke qp false pen p0 moves c
  | Remove pen p0 moves => mouse_remove qp pen p0 moves c
  | Select x y shift_pressed =>
      match pixel_labels c with
      | Some _ => select_region_at_position x y shift_pressed c
      | None => c
      end
  | Toggle seg_id checked => toggle_segmentation_selection seg_id checked c
  | Merge new_color => merge_selected_segmentations new_color c
  | Undo => undo_last_operation qp c
  | Redo => redo_last_operation qp c
  end.

Definition run (qp : QPainter) (actions : list action) (c : ImageCanvas)
    : ImageCanvas :=
  foldl (λ c a, step qp a c) c actions.

(** A painter that sets the end points of what it is asked to draw, in
    the pen's colour: enough to run examples in which no stroke is
    drawn or the strokes are one pixel wide. *)
Definition dot_painter : QPainter :=
  {| drawPoint := λ col _ image p, paint_pixels image [p] col;
     drawLine := λ col _ image p q, paint_pixels image [p; q] col |}.

(** ** Vocabulary of the statements *)

(** The id the grid holds for a pixel after [update_pixel_labels]: that of
    the last region, in dictionary order, whose pixel list has it; 0 when
    there is none. *)
Definition last_owner (segmentations : list (Z * Segmentation)) (p : point)
    : Z :=
  foldl (λ label '(seg_id, segmentation),
           if bool_decide (p ∈ pixels segmentation) then seg_id else label)
        0 segmentations.

Definition in_grid (c : ImageCanvas) (x y : Z) : Prop :=
  0 ≤ x < Z.of_nat (original_width c) ∧ 0 ≤ y < Z.of_nat (original_height c).

(** Grid/region consistency as the specification words it. *)
Definition grid_region_consistent (c : ImageCanvas) : Prop :=
  ∀ x y, in_grid c x y →
    (∀ id segmentation, (id, segmentation) ∈ segmentations c →
       (get_pixel_label (pixel_labels c) x y = id
        ↔ (x, y) ∈ pixels segmentation))
    ∧ (get_pixel_label (pixel_labels c) x y = 0
       ↔ ∀ id segmentation, (id, segmentation) ∈ segmentations c →
           (x, y) ∉ pixels segmentation).

(** An array of [h] rows of [w] cells. *)
Definition shaped {A} (h w : nat) (a : np.ndarray A) : Prop :=
  length a = h ∧ Forall (λ row, length row = w) a.

(** What the code maintains: the grid has the shape of the image and holds
    the last owner of every pixel. *)
Definition labels_shaped (c : ImageCanvas) : Prop :=
  ∀ labels, pixel_labels c = Some labels →
    shaped (original_height c) (original_width c) labels.

Definition grid_last_owner (c : ImageCanvas) : Prop :=
  labels_shaped c
  ∧ ∀ x y, in_grid c x y →
      get_pixel_label (pixel_labels c) x y = last_owner (segmentations c) (x, y).

(** No pixel belongs to two stored regions, and no stored id is 0. *)
Definition regions_disjoint (segmentations : list (Z * Segmentation)) : Prop :=
  ∀ id1 s1 id2 s2 p,
    (id1, s1) ∈ segmentations → (id2, s2) ∈ segmentations →
    p ∈ pixels s1 → p ∈ pixels s2 → id1 = id2.

Definition ids_nonzero (segmentations : list (Z * Segmentation)) : Prop :=
  ∀ id segmentation, (id, segmentation) ∈ segmentations → id ≠ 0.

(** Two canvases with the same image size and the same grid. *)
Definition same_labels (c c' : ImageCanvas) : Prop :=
  original_width c' = original_width c
  ∧ original_height c' = original_height c
  ∧ pixel_labels c' = pixel_labels c.

(** The part of the canvas the grid invariant reads. *)
Definition grid_view (c : ImageCanvas)
    : nat * nat * option (np.ndarray Z) * list (Z * Segmentation) :=
  (original_width c, original_height c, pixel_labels c, segmentations c).

(** What every reachable store satisfies: keys are distinct, a region is
    filed under its own id, ids lie below the next id to allocate, no
    region is empty, and the selection has no repeated id. *)
Record store_wf (c : ImageCanvas) : Prop := {
  wf_keys : NoDup (dict_keys (segmentations c));
  wf_keyed : Forall (λ ks, seg_id ks.2 = ks.1) (segmentations c);
  wf_fresh : Forall (λ ks, ks.1 < next_seg_id c) (segmentations c);
  wf_pixels : Forall (λ ks, pixels ks.2 ≠ []) (segmentations c);
  wf_selected : NoDup (selected_segmentations c)
}.

(** A region the history may hand back to the store: its id was
    allocated, and it has pixels. *)
Definition seg_ok (n : Z) (s : Segmentation) : Prop :=
  seg_id s < n ∧ pixels s ≠ [].

Definition entry_ok (n : Z) (ks : Z * Segmentation) : Prop :=
  seg_id ks.2 = ks.1 ∧ seg_ok n ks.2.

Definition op_ok (n : Z) (op : Operation) : Prop :=
  match op with
  | OpSegmentation data => seg_ok n data
  | OpDrawing _ => True
  | OpMerge old_segmentations new_segmentation =>
      Forall (seg_ok n) old_segmentations ∧ seg_ok n new_segmentation
  end.

(** The invariant of the canvas: a well-formed store, and a history whose
    regions can be put back. *)
Definition canvas_wf (c : ImageCanvas) : Prop :=
  store_wf c
  ∧ Forall (op_ok (next_seg_id c)) (undo_stack c)
  ∧ Forall (op_ok (next_seg_id c)) (redo_stack c).

(** The region a merge builds. *)
Definition merged_segmentation (new_color : color) (c : ImageCanvas)
    : Segmentation :=
  {| seg_id := next_seg_id c; seg_color := new_color;
     pixels := concat (map pixels (get_selected_segmentations c));
     border_pixels :=
       concat (map border_pixels (get_selected_segmentations c)) |}.

(** Same store contents, id for id. *)
Definition store_eq (c1 c2 : ImageCanvas) : Prop :=
  ∀ id, dict_get id (segmentations c1) = dict_get id (segmentations c2).

(** Same grid, pixel for pixel. *)
Definition grid_eq (c1 c2 : ImageCanvas) : Prop :=
  ∀ x y, get_pixel_label (pixel_labels c1) x y
         = get_pixel_label (pixel_labels c2) x y.

(** The border as the specification words it: the pixels of the region
    with an in-bounds neighbour whose label in the grid differs from the
    region's id. *)
Definition border_by_label (c : ImageCanvas) (segmentation : Segmentation)
    : list point :=
  filter (λ p : point,
            existsb (λ n : point,
                       inside (Z.of_nat (original_width c))
                              (Z.of_nat (original_height c)) n.1 n.2
                       && negb (get_pixel_label (pixel_labels c) n.1 n.2
                                =? seg_id segmentation))
                    (neighbors p.1 p.2))
         (pixels segmentation).

(** The operations the undo/redo law speaks of. *)
Definition is_edit (a : action) : Prop :=
  match a with
  | FloodFill _ _ _ | Stroke _ _ _ | Merge _ => True
  | _ => False
  end.

(** The operation pushed one entry on the undo stack. *)
Definition recorded (qp : QPainter) (a : action) (c : ImageCanvas) : Prop :=
  length (undo_stack (step qp a c)) = S (length (undo_stack c)).

(** The undo/redo inverse law at one operation: [undo] after it gives back
    the store and the grid it started from, and [redo] after that [undo]
    gives back those it produced. *)
Definition undo_redo_law (qp : QPainter) (a : action) (c : ImageCanvas)
    : Prop :=
  let c1 := step qp a c in
  let c2 := undo_last_operation qp c1 in
  let c3 := redo_last_operation qp c2 in
  store_eq c2 c ∧ grid_eq c2 c ∧ store_eq c3 c1 ∧ grid_eq c3 c1.

(** ** Example canvases *)

(** A two-pixel mask: a very dark pixel and a mid-grey one. *)
Definition dark_mask : QImage :=
  {| img_width := 2; img_height := 1;
     pixelColor := λ x _, if x =? 0 then (5, 5, 5) else (50, 50, 50) |}.

(** The canvas after loading [dark_mask]: regions 1 and 2, one pixel each. *)
Definition dark_canvas : ImageCanvas := load_mask 2 1 dark_mask.

(** The region a fill of the whole blank 2 by 1 canvas creates, before
    its border is computed. *)
Definition strip_region : Segmentation :=
  {| seg_id := 1; seg_color := (40, 50, 60);
     pixels := [(0, 0); (1, 0)]; border_pixels := [] |}.

(** [dark_canvas] with both of its regions ticked in the side panel. *)
Definition dark_selected : ImageCanvas :=
  toggle_segmentation_selection 2 true
    (toggle_segmentation_selection 1 true dark_canvas).

(** A canvas whose store is empty while a region-creation entry is on
    the undo stack. *)
Definition orphan_canvas : ImageCanvas :=
  set_stacks (create_blank_mask 2 1) [OpSegmentation strip_region] [].

(** [dark_canvas] with an entry for region 1 on the undo stack, while
    region 2 has the greatest id. *)
Definition dark_history : ImageCanvas :=
  set_stacks dark_canvas
    [OpSegmentation {| seg_id := 1; seg_color := (5, 5, 5);
                       pixels := [(0, 0)]; border_pixels := [(0, 0)] |}] [].

(** [dark_canvas] after a fill at its very dark pixel, which adds region
    3 over the pixel of region 1, with regions 1 and 2 ticked. *)
Definition overlap_canvas : ImageCanvas :=
  run dot_painter
    [FloodFill (40, 50, 60) 0 0; Toggle 1 true; Toggle 2 true] dark_canvas.

(** The blank 1 by 1 canvas after a fill. *)
Definition filled_canvas : ImageCanvas :=
  step dot_painter (FloodFill (40, 50, 60) 0 0) (create_blank_mask 1 1).

(** ** Vocabulary of the statements about fills, merges and the selection *)

(** Some stored region has the pixel. *)
Definition owned (segmentations : list (Z * Segmentation)) (p : point)
    : Prop :=
  ∃ id segmentation,
    (id, segmentation) ∈ segmentations ∧ p ∈ pixels segmentation.


(** The pixels of a pixel list that have a neighbour inside the [w] by
    [h] image and outside the list. *)
Definition region_edge (w h : Z) (pixels : list point) : list point :=
  filter (λ p : point,
            existsb (λ n : point,
                       inside w h n.1 n.2 && negb (bool_decide (n ∈ pixels)))
                    (neighbors p.1 p.2))
         pixels.

(** A 2 by 1 mask with a very dark pixel beside a black one. *)
Definition dim_mask : QImage :=
  {| img_width := 2; img_height := 1;
     pixelColor := λ x _, if x =? 0 then (5, 5, 5) else black |}.

(** ** Loading a mask that has a label array beside it *)

(** The pixels of a [w] by [h] array in the order of the two nested
    [for y ... for x ...] loops. *)
Definition row_major (w h : nat) : list point :=
  flat_map (λ y, map (λ x, (x, y)) (range w)) (range h).

(** [label_to_pixels[label].append((x, y))], with the list created at the
    first pixel of the label. *)
Fixpoint label_append (label : Z) (p : point) (d : list (Z * list point))
    : list (Z * list point) :=
  match d with
  | [] => [(label, [p])]
  | (label', ps) :: d =>
      if decide (label = label') then (label', ps ++ [p]) :: d
      else (label', ps) :: label_append label p d
  end.

(** The pixels of a label array grouped by label, the labels that are not
    positive left out. *)
Definition label_to_pixels (labels_array : np.ndarray Z)
    : list (Z * list point) :=
  foldl (λ d '(x, y),
           let label := np.get 0 labels_array y x in
           if label >? 0 then label_append label (x, y) d else d)
        []
        (row_major (Z.to_nat (np.width labels_array))
                   (Z.to_nat (np.height labels_array))).

(** The body of the loop that creates one region per label found, under
    the label as its id.  [random_color] gives the colour drawn for each
    label. *)
Definition create_labelled (random_color : Z → color) (c : ImageCanvas)
    (item : Z * list point) : ImageCanvas :=
  let '(label, pixels) := item in
  if (0 <? length pixels)%nat then
    let segmentation :=
      {| seg_id := label; seg_color := random_color label;
         pixels := pixels; border_pixels := [] |} in
    let c := set_segmentations c
               (dict_set label segmentation (segmentations c)) in
    if label >=? next_seg_id c then set_next_seg_id c (label + 1) else c
  else c.

Definition extract_segmentations_from_labels (random_color : Z → color)
    (labels_array : np.ndarray Z) (c : ImageCanvas) : ImageCanvas :=
  let c := foldl (create_labelled random_color) c
                 (label_to_pixels labels_array) in
  let c := set_pixel_labels c (Some labels_array) in
  set_segmentations c
    (map (λ '(k, segmentation),
            (k, compute_segmentation_borders c segmentation))
         (segmentations c)).

(** [load_mask] of a mask file that has a label array beside it, on an
    image of the given size. *)
Definition load_mask_with_labels (w h : nat) (mask : QImage)
    (random_color : Z → color) (labels_array : np.ndarray Z) : ImageCanvas :=
  extract_segmentations_from_labels random_color labels_array
    {| original_width := w; original_height := h;
       mask_pixmap := mask;
       segmentations := []; next_seg_id := 1;
       drawings := []; next_draw_id := 1;
       undo_stack := []; redo_stack := [];
       pixel_labels := None; selected_segmentations := [] |}.

(** *** Vocabulary of the proofs about grouping *)

(** Appending a pixel to the list filed under a key, for any type of
    key: what [group_append] and [label_append] do. *)
Fixpoint dict_append {K} `{EqDecision K} (k : K) (p : point)
    (d : list (K * list point)) : list (K * list point) :=
  match d with
  | [] => [(k, [p])]
  | (k', ps) :: d =>
      if decide (k = k') then (k', ps ++ [p]) :: d
      else (k', ps) :: dict_append k p d
  end.

(** A scan that files each pixel under its key, if it has one. *)
Definition group_scan {K} `{EqDecision K} (key : point → option K)
    (d : list (K * list point)) (scan : list point)
    : list (K * list point) :=
  foldl (λ d p, match key p with
                | Some k => dict_append k p d
                | None => d
                end) d scan.

(** [d] files the pixels of [l] by key: each key once, under it the
    pixels of [l] with that key, in the order of [l]. *)
Definition grouped {K} `{EqDecision K} (key : point → option K)
    (d : list (K * list point)) (l : list point) : Prop :=
  NoDup (map fst d)
  ∧ (∀ k ps, (k, ps) ∈ d →
       ps ≠ [] ∧ ps = filter (λ p, key p = Some k) l)
  ∧ (∀ p k, p ∈ l → key p = Some k → k ∈ map fst d).

(** The key of a pixel of a mask: its colour, unless black or white. *)
Definition color_key (image : QImage) (p : point) : option color :=
  let rgb := pixelColor image p.1 p.2 in
  if bool_decide (rgb ≠ black ∧ rgb ≠ white) then Some rgb else None.

(** The key of a pixel of a label array: its label, if positive. *)
Definition label_key (labels_array : np.ndarray Z) (p : point) : option Z :=
  let label := np.get 0 labels_array p.2 p.1 in
  if label >? 0 then Some label else None.

(** A 2 by 2 label array with one region on a diagonal, and one with a
    negative label. *)
Definition diagonal_labels : np.ndarray Z := [[0; 1]; [1; 0]].
Definition negative_labels : np.ndarray Z := [[-1; 2]].

(** The regions created for a list of groups, numbered from [n] on. *)
Fixpoint numbered (n : Z) (items : list (color * list point))
    : list (Z * Segmentation) :=
  match items with
  | [] => []
  | (color_rgb, pixels) :: items =>
      (n, {| seg_id := n; seg_color := color_rgb;
             pixels := pixels; border_pixels := [] |})
      :: numbered (n + 1) items
  end.

(** The region created for a label and its pixels. *)
Definition labelled_region (random_color : Z → color)
    (item : Z * list point) : Z * Segmentation :=
  (item.1, {| seg_id := item.1; seg_color := random_color item.1;
              pixels := item.2; border_pixels := [] |}).

(** ** Counting labels *)

(** [np.unique] of the values of an array: each value once, in
    increasing order. *)
Definition np_unique (values : list Z) : list Z :=
  merge_sort Z.le (remove_dups values).

(** [count_nonzero_unique_values] of [analyze_npy.py]; [data] is what
    [np.load] gave, [None] when it raised. *)
Definition count_nonzero_unique_values (data : option (np.ndarray Z))
    : option nat :=
  match data with
  | Some data =>
      let unique_values := np_unique (concat data) in
      let nonzero_unique := filter (λ v, v ≠ 0) unique_values in
      Some (length nonzero_unique)
  | None => None
  end.

(** The dictionary [get_segmentation_statistics] returns. *)
Record statistics : Type := {
  total_pixels : Z;
  labeled_pixels : Z;
  unlabeled_pixels : Z;
  unique_labels : Z;
  label_counts : list (Z * Z)
}.

Definition get_segmentation_statistics (c : ImageCanvas) : statistics :=
  match pixel_labels c with
  | None =>
      {| total_pixels := 0; labeled_pixels := 0; unlabeled_pixels := 0;
         unique_labels := 0; label_counts := [] |}
  | Some pixel_labels =>
      let values := concat pixel_labels in
      let total_pixels := Z.of_nat (length values) in
      let labeled_pixels :=
        Z.of_nat (length (filter (λ v, 0 < v) values)) in
      let unlabeled_pixels := total_pixels - labeled_pixels in
      let unique_labels :=
        Z.of_nat (length (np_unique (filter (λ v, 0 < v) values))) in
      let label_counts :=
        foldl (λ label_counts label,
                 if label >? 0 then
                   let count :=
                     Z.of_nat (length (filter (λ v, v = label) values)) in
                   dict_set label count label_counts
                 else label_counts)
              [] (np_unique values) in
      {| total_pixels := total_pixels; labeled_pixels := labeled_pixels;
         unlabeled_pixels := unlabeled_pixels;
         unique_labels := unique_labels; label_counts := label_counts |}
  end.

(** The sum of a list of integers. *)
Definition sum_Z (l : list Z) : Z := foldr Z.add 0 l.

(** ** The selection overlay *)

(** [selection_overlay[y_coords, x_coords] = 255] for the border pixels
    that are inside a [width] by [height] array. *)
Definition mark_borders (width height : Z) (selection_overlay : np.ndarray Z)
    (border_pixels : list point) : np.ndarray Z :=
  foldl (λ selection_overlay '(x, y),
           if (x >=? 0) && (x <? width) && (y >=? 0) && (y <? height)
           then np.set selection_overlay y x 255 else selection_overlay)
        selection_overlay border_pixels.

(** The value [update_selection_overlay] leaves in [selection_overlay]. *)
Definition update_selection_overlay (c : ImageCanvas)
    : option (np.ndarray Z) :=
  match pixel_labels c with
  | None => None
  | Some pixel_labels =>
      match selected_segmentations c with
      | [] => None
      | _ =>
          let height := np.height pixel_labels in
          let width := np.width pixel_labels in
          let selection_overlay :=
            np.zeros 0 (Z.to_nat height) (Z.to_nat width) in
          Some (foldl (λ selection_overlay seg_id,
                         match dict_get seg_id (segmentations c) with
                         | Some segmentation =>
                             mark_borders width height selection_overlay
                               (border_pixels segmentation)
                         | None => selection_overlay
                         end)
                      selection_overlay (selected_segmentations c))
      end
  end.

(** Some id of the list is the id of a stored region that has the pixel
    on its border. *)
Definition marked (segmentations : list (Z * Segmentation)) (ids : list Z)
    (p : point) : bool :=
  existsb (λ seg_id,
             match dict_get seg_id segmentations with
             | Some segmentation =>
                 bool_decide (p ∈ border_pixels segmentation)
             | None => false
             end) ids.

(** ** Positive ids *)

(** The regions a history entry mentions have positive ids. *)
Definition op_pos (op : Operation) : Prop :=
  match op with
  | OpSegmentation data => 0 < seg_id data
  | OpDrawing _ => True
  | OpMerge old_segmentations new_segmentation =>
      Forall (λ s, 0 < seg_id s) old_segmentations
      ∧ 0 < seg_id new_segmentation
  end.

(** No id is 0, the label of the background: the next id to allocate
    is positive, and so are the ids in the store and in the history. *)
Definition ids_positive (c : ImageCanvas) : Prop :=
  0 < next_seg_id c
  ∧ Forall (λ ks : Z * Segmentation, 0 < ks.1) (segmentations c)
  ∧ Forall op_pos (undo_stack c)
  ∧ Forall op_pos (redo_stack c).

(** ** [reset_labels.py] *)

(** [~np.all(img_array == [255, 255, 255], axis=2)] *)
Definition non_white_mask (img_array : np.ndarray color) : np.ndarray bool :=
  map (map (λ rgb : color, negb (bool_decide (rgb = (255, 255, 255)))))
      img_array.

(** [img_array[mask] = value] *)
Definition assign_where {A} (img_array : np.ndarray A)
    (mask : np.ndarray bool) (value : A) : np.ndarray A :=
  zip_with (zip_with (λ rgb (m : bool), if m then value else rgb))
           img_array mask.

(** The array part of [process_image]: the pixels of the RGB image as an
    array of rows, and the array that is saved. *)
Definition process_image (img_array : np.ndarray color) : np.ndarray color :=
  let non_white_mask := non_white_mask img_array in
  assign_where img_array non_white_mask (0, 0, 0).

(** The image a file holds, given its rows of pixels. *)
Definition image_of_array (img_array : np.ndarray color) : QImage :=
  {| img_width := Z.to_nat (np.width img_array);
     img_height := Z.to_nat (np.height img_array);
     pixelColor := λ x y, np.get black img_array y x |}.

(** A 2 by 1 image with a coloured pixel and a white one. *)
Definition two_pixels : np.ndarray color := [[(200, 30, 30); (255, 255, 255)]].

(** ** Saving the label array *)

(** [astype(np.int16)] on one value: the low 16 bits, read as a signed
    integer. *)
Definition int16 (v : Z) : Z := (v + 32768) mod 65536 - 32768.

(** The array [save_mask] writes beside the mask image, when there is a
    grid. *)
Definition saved_labels (c : ImageCanvas) : option (np.ndarray Z) :=
  match pixel_labels c with
  | Some pixel_labels => Some (map (map int16) pixel_labels)
  | None => None
  end.

(** A 2 by 1 canvas on which 32767 ids have been allocated, with
    region 32767 on its first pixel and a black second pixel, and the
    canvas after a fill of the second pixel. *)
Definition many_ids_canvas : ImageCanvas :=
  {| original_width := 2; original_height := 1;
     mask_pixmap :=
       {| img_width := 2; img_height := 1;
          pixelColor := λ x _, if x =? 0 then (70, 80, 90) else black |};
     segmentations :=
       [(32767, {| seg_id := 32767; seg_color := (70, 80, 90);
                   pixels := [(0, 0)]; border_pixels := [(0, 0)] |})];
     next_seg_id := 32768;
     drawings := []; next_draw_id := 1;
     undo_stack := []; redo_stack := [];
     pixel_labels := Some [[32767; 0]]; selected_segmentations := [] |}.

Definition last_id_canvas : ImageCanvas :=
  flood_fill_at_position (40, 50, 60) 1 0 many_ids_canvas.

(** ** Redrawing the mask from the store *)

Definition _clear_image_to_color (image : QImage) (c : color) : QImage :=
  foldl (λ image '(x, y), setPixelColor image x y c) image
        (row_major (img_width image) (img_height image)).

(** The progress dialog is never cancelled. *)
Definition redraw_all_segmentations (c : ImageCanvas) : ImageCanvas :=
  let image := mask_pixmap c in
  let image := _clear_image_to_color image black in
  let image :=
    foldl (λ image (ks : Z * Segmentation),
             paint_pixels image (pixels ks.2) (seg_color ks.2))
          image (segmentations c) in
  let c := set_mask_pixmap c image in
  set_segmentations c
    (map (λ '(k, segmentation),
            (k, compute_segmentation_borders c segmentation))
         (segmentations c)).

(** The colour of the last region, in dictionary order, whose pixel list
    has the pixel, starting from [base]. *)
Definition last_color (base : color)
    (segmentations : list (Z * Segmentation)) (p : point) : color :=
  foldl (λ col (ks : Z * Segmentation),
           if bool_decide (p ∈ pixels ks.2) then seg_color ks.2 else col)
        base segmentations.

(** ** Panning *)

(** The zoom factor and the top-left corner of the part of the zoomed
    image that is shown. *)
Record Viewport : Type := {
  zoom_factor : Z;
  viewport_x : Z;
  viewport_y : Z
}.

(** The fixed size of the canvas widget. *)
Definition widget_width : Z := 1280.
Definition widget_height : Z := 720.

(** The drag branch of [mouseMoveEvent], on an image of the given
    size: the viewport follows the mouse and is clamped to the zoomed
    image. *)
Definition drag_move (image_width image_height : Z) (last_pos pos : point)
    (v : Viewport) : Viewport :=
  let delta_x := pos.1 - last_pos.1 in
  let delta_y := pos.2 - last_pos.2 in
  let viewport_x := viewport_x v - delta_x in
  let viewport_y := viewport_y v - delta_y in
  let zoomed_width := image_width * zoom_factor v in
  let zoomed_height := image_height * zoom_factor v in
  let max_viewport_x := Z.max 0 (zoomed_width - widget_width) in
  let max_viewport_y := Z.max 0 (zoomed_height - widget_height) in
  {| zoom_factor := zoom_factor v;
     viewport_x := Z.max 0 (Z.min viewport_x max_viewport_x);
     viewport_y := Z.max 0 (Z.min viewport_y max_viewport_y) |}.

(** ** Vocabulary of the statements about the order of the ids *)

(** The distinct elements of a list in the order in which each is first
    met: the head, then what the rest gives without the head. *)
Fixpoint first_occurrences {K} `{EqDecision K} (l : list K) : list K :=
  match l with
  | [] => []
  | k :: l => k :: filter (λ k', k' ≠ k) (first_occurrences l)
  end.

(** The colours of the pixels of a mask that are neither black nor
    white, one per pixel, rows from the top and each row from the left. *)
Definition mask_colors (mask : QImage) : list color :=
  omap (color_key mask) (row_major (img_width mask) (img_height mask)).

(** ** Example canvases for the merge of a selection *)



(** A 2 by 1 image whose mask is black, loaded with a label array of one
    cell. *)
Definition short_labels : np.ndarray Z := [[1]].

Definition short_grid_canvas : ImageCanvas :=
  load_mask_with_labels 2 1
    {| img_width := 2; img_height := 1; pixelColor := λ _ _, black |}
    (λ _, (5, 5, 5)) short_labels.

(** * Properties *)

Example flood_fill_img3 :
  snd <$> flood_fill img3 1 1 (40, 50, 60) =
  Some [(1,1); (1,0); (0,0); (0,1); (0,2); (1,2); (2,2); (2,1); (2,0)].
Proof. vm_compute. reflexivity. Qed.


(** ** Arrays *)

Lemma np_get_set_eq {A} (d v : A) (a : np.ndarray A) y x :
  has_cell a y x → np.get d (np.set a y x v) y x = v.
Proof.
  intros (r & Hr & Hx). unfold np.get, np.set.
  rewrite list_lookup_alter_eq, Hr. simpl.
  by rewrite list_lookup_insert_eq.
Qed.

Lemma np_get_set_ne {A} (d v : A) (a : np.ndarray A) y x y' x' :
  0 ≤ y → 0 ≤ x → 0 ≤ y' → 0 ≤ x' → (x, y) ≠ (x', y') →
  np.get d (np.set a y x v) y' x' = np.get d a y' x'.
Proof.
  intros Hy Hx Hy' Hx' Hne. unfold np.get, np.set.
  destruct (decide (Z.to_nat y = Z.to_nat y')) as [Heq | Hney].
  - rewrite <- Heq, list_lookup_alter_eq.
    destruct (a !! Z.to_nat y) as [r|]; simpl; [|done].
    rewrite list_lookup_insert_ne; [done|].
    intros Hxx. apply Hne. f_equal; lia.
  - by rewrite list_lookup_alter_ne.
Qed.

Lemma has_cell_set {A} (a : np.ndarray A) y x v y' x' :
  has_cell a y' x' → has_cell (np.set a y x v) y' x'.
Proof.
  intros (r & Hr & Hx). unfold has_cell, np.set.
  destruct (decide (Z.to_nat y = Z.to_nat y')) as [Heq | Hney].
  - rewrite <- Heq, list_lookup_alter_eq. rewrite <- Heq in Hr. rewrite Hr.
    eexists. split; [done|]. by rewrite length_insert.
  - rewrite list_lookup_alter_ne by done. eauto.
Qed.

Lemma np_get_true_cell (a : np.ndarray bool) y x :
  np.get false a y x = true → has_cell a y x.
Proof.
  unfold np.get, has_cell. destruct (a !! Z.to_nat y) as [r|]; simpl; [|done].
  intros H. exists r. split; [done|].
  destruct (r !! Z.to_nat x) eqn:E; [|done].
  by apply lookup_lt_Some in E.
Qed.

Lemma has_cell_zeros_like {A B} (v : B) (a : np.ndarray A) y x :
  has_cell a y x → has_cell (np.zeros_like v a) y x.
Proof.
  intros (r & Hr & Hx). unfold has_cell, np.zeros_like.
  exists (map (λ _, v) r). rewrite list_lookup_fmap, Hr. split; [done|].
  by rewrite length_map.
Qed.

Lemma np_get_zeros_like {A B} (d : B) (a : np.ndarray A) y x :
  np.get d (np.zeros_like d a) y x = d.
Proof.
  unfold np.get, np.zeros_like. rewrite list_lookup_fmap.
  destruct (a !! Z.to_nat y) as [r|]; simpl; [|done].
  rewrite list_lookup_fmap. by destruct (r !! Z.to_nat x).
Qed.

(** ** Flood fill: the traversal *)

Lemma inside_spec w h x y :
  inside w h x y = true ↔ 0 ≤ x < w ∧ 0 ≤ y < h.
Proof. unfold inside. rewrite !andb_true_iff. lia. Qed.

Lemma out_of_bounds_inside w h x y :
  out_of_bounds w h x y = negb (inside w h x y).
Proof.
  unfold out_of_bounds, inside.
  destruct (Z.ltb_spec x 0), (Z.leb_spec 0 x),
    (Z.ltb_spec x w), (Z.geb_spec x w),
    (Z.ltb_spec y 0), (Z.leb_spec 0 y),
    (Z.ltb_spec y h), (Z.geb_spec y h); simpl; try reflexivity; lia.
Qed.

Lemma mask_reach_target M sx sy p : mask_reach M sx sy p → target M p.
Proof. by destruct 1. Qed.

Lemma elem_of_push_one (c : bool) (p : point) stack q :
  q ∈ (if c then p :: stack else stack) ↔ q ∈ stack ∨ (q = p ∧ c = true).
Proof.
  destruct c.
  - rewrite elem_of_cons. split; [intros [?|?]; auto | intros [?|[? _]]; auto].
  - split; [auto | intros [?|[_ ?]]; done].
Qed.

Lemma elem_of_push_neighbors M visited w h x y stack q :
  q ∈ push_neighbors M visited w h x y stack ↔
  q ∈ stack ∨ (q ∈ neighbors x y ∧ inside w h q.1 q.2 = true
               ∧ np.get false visited q.2 q.1 = false
               ∧ np.get false M q.2 q.1 = true).
Proof.
  unfold push_neighbors, neighbors. simpl.
  rewrite !elem_of_push_one, !elem_of_cons, elem_of_nil.
  rewrite !andb_true_iff, !negb_true_iff.
  split.
  - intros [[[[H | [-> H]] | [-> H]] | [-> H]] | [-> H]]; simpl; tauto.
  - intros [H | ([-> | [-> | [-> | [-> | []]]]] & H)]; simpl in H; tauto.
Qed.

Lemma length_push_neighbors M visited w h x y stack :
  (length (push_neighbors M visited w h x y stack) ≤ length stack + 4)%nat.
Proof.
  unfold push_neighbors, neighbors. simpl.
  repeat match goal with
  | |- context [if ?c then _ else _] => destruct c
  end; simpl; lia.
Qed.

Lemma elem_of_all_cells w h x y :
  inside (Z.of_nat w) (Z.of_nat h) x y = true → (x, y) ∈ all_cells w h.
Proof.
  rewrite inside_spec. intros [Hx Hy]. unfold all_cells, range.
  apply list_elem_of_In, in_prod; apply in_map_iff.
  - exists (Z.to_nat x). split; [lia | apply in_seq; lia].
  - exists (Z.to_nat y). split; [lia | apply in_seq; lia].
Qed.

Lemma length_all_cells w h : length (all_cells w h) = (w * h)%nat.
Proof.
  unfold all_cells, range. by rewrite length_prod, !length_map, !length_seq.
Qed.

(** Pigeonhole: distinct in-bounds pixels are at most [w * h]. *)
Lemma length_inside_bound w h (l : list point) :
  NoDup l →
  (∀ p, p ∈ l → inside (Z.of_nat w) (Z.of_nat h) p.1 p.2 = true) →
  (length l ≤ w * h)%nat.
Proof.
  intros Hnd Hin. rewrite <- length_all_cells.
  apply submseteq_length, NoDup_submseteq; [done|].
  intros [x y] Hp. apply elem_of_all_cells, (Hin _ Hp).
Qed.

Lemma flood_inv_length M sx sy visited stack filled :
  flood_inv M sx sy visited stack filled →
  (length filled ≤ Z.to_nat (np.width M) * Z.to_nat (np.height M))%nat.
Proof.
  intros I. apply length_inside_bound; [apply I|].
  intros p Hp. destruct (mask_reach_target _ _ _ _ (inv_filled _ _ _ _ _ _ I p Hp)) as [Hi _].
  unfold np.width, np.height in *. by rewrite !Nat2Z.id.
Qed.

Lemma flood_inv_init M sx sy :
  flood_inv M sx sy (np.zeros_like false M) [(sx, sy)] [].
Proof.
  split.
  - intros y x. apply has_cell_zeros_like.
  - intros x y _ _. rewrite np_get_zeros_like, elem_of_nil. split; [done | tauto].
  - constructor.
  - intros p Hp. by apply elem_of_nil in Hp.
  - intros p Hp%list_elem_of_singleton Ht. subst. by constructor.
  - intros x y n Hp. by apply elem_of_nil in Hp.
  - intros _. right. by apply list_elem_of_singleton.
Qed.

(** An iteration that pops a pixel and [continue]s. *)
Lemma flood_inv_skip M sx sy visited x y stack filled :
  flood_inv M sx sy visited ((x, y) :: stack) filled →
  inside (np.width M) (np.height M) x y = false
  ∨ np.get false visited y x = true
  ∨ np.get false M y x = false →
  flood_inv M sx sy visited stack filled.
Proof.
  intros I Hskip.
  assert (Hpop : ∀ q, target M q → q ∈ filled ∨ q ∈ (x, y) :: stack →
                      q ∈ filled ∨ q ∈ stack).
  { intros q [Hi Hm] [Hq | Hq]; [by left|].
    apply elem_of_cons in Hq as [-> | Hq]; [|by right]. simpl in *.
    left. destruct Hskip as [H | [H | H]]; [congruence | | congruence].
    apply inside_spec in Hi. apply (inv_visited _ _ _ _ _ _ I); [lia..|done]. }
  split; try apply I.
  - intros p Hp. apply (inv_stack _ _ _ _ _ _ I). by right.
  - intros x' y' n Hf Hn Ht. apply Hpop; [done|]. by eapply (inv_closed _ _ _ _ _ _ I).
  - intros Ht. apply Hpop; [done|]. by apply (inv_seed _ _ _ _ _ _ I).
Qed.

(** An iteration that fills the popped pixel and pushes its neighbours. *)
Lemma flood_inv_visit M sx sy visited x y stack filled :
  flood_inv M sx sy visited ((x, y) :: stack) filled →
  inside (np.width M) (np.height M) x y = true →
  np.get false visited y x = false →
  np.get false M y x = true →
  flood_inv M sx sy (np.set visited y x true)
    (push_neighbors M (np.set visited y x true) (np.width M) (np.height M)
       x y stack)
    (filled ++ [(x, y)]).
Proof.
  intros I Hi Hv Hm.
  pose proof Hi as Hb. apply inside_spec in Hb.
  assert (Hcell : has_cell visited y x).
  { by apply (inv_cell _ _ _ _ _ _ I), np_get_true_cell. }
  assert (Hvis : ∀ x' y', 0 ≤ x' → 0 ≤ y' →
    (np.get false (np.set visited y x true) y' x' = true
     ↔ (x', y') ∈ filled ++ [(x, y)])).
  { intros x' y' Hx' Hy'. rewrite elem_of_app, list_elem_of_singleton.
    destruct (decide ((x, y) = (x', y'))) as [[= <- <-] | Hne].
    - rewrite np_get_set_eq by done. tauto.
    - rewrite np_get_set_ne by (done || lia).
      rewrite (inv_visited _ _ _ _ _ _ I) by done.
      split; [tauto | intros [? | ?]; [done | congruence]]. }
  assert (Hreach : mask_reach M sx sy (x, y)).
  { apply (inv_stack _ _ _ _ _ _ I); [by left | by split]. }
  assert (Hpush : ∀ q, target M q →
    q ∈ filled ∨ q ∈ (x, y) :: stack ∨ q ∈ neighbors x y →
    q ∈ filled ++ [(x, y)]
    ∨ q ∈ push_neighbors M (np.set visited y x true) (np.width M)
            (np.height M) x y stack).
  { intros [qx qy] [Hqi Hqm] Hq. simpl in *.
    pose proof Hqi as Hqb. apply inside_spec in Hqb.
    rewrite elem_of_push_neighbors. simpl.
    destruct (np.get false (np.set visited y x true) qy qx) eqn:Eq.
    - left. apply Hvis; [lia..|done].
    - destruct Hq as [Hq | [Hq | Hq]].
      + left. apply elem_of_app. by left.
      + apply elem_of_cons in Hq as [[= -> ->] | Hq]; [|by right; left].
        rewrite np_get_set_eq in Eq; done.
      + right. right. done. }
  split.
  - intros y' x' Hc. by apply has_cell_set, (inv_cell _ _ _ _ _ _ I).
  - done.
  - apply NoDup_app. split; [apply I|]. split; [|apply NoDup_singleton].
    intros p Hp ->%list_elem_of_singleton.
    apply (inv_visited _ _ _ _ _ _ I) in Hp; [congruence | lia..].
  - intros p [Hp | ->%list_elem_of_singleton]%elem_of_app; [by apply I | done].
  - intros q Hq Ht. apply elem_of_push_neighbors in Hq as [Hq | (Hq & _)].
    + apply (inv_stack _ _ _ _ _ _ I); [by right | done].
    + by eapply mask_reach_step.
  - intros x' y' n [Hf | [= -> ->]%list_elem_of_singleton]%elem_of_app Hn Ht.
    + apply Hpush; [done|].
      destruct (inv_closed _ _ _ _ _ _ I x' y' n Hf Hn Ht); auto.
    + apply Hpush; auto.
  - intros Ht. apply Hpush; [done|].
    destruct (inv_seed _ _ _ _ _ _ I Ht); auto.
Qed.

Lemma flood_inv_final M sx sy visited filled :
  flood_inv M sx sy visited [] filled →
  NoDup filled ∧ ∀ p, p ∈ filled ↔ mask_reach M sx sy p.
Proof.
  intros I. split; [apply I|]. intros p. split; [apply I|].
  induction 1 as [Ht | x y n Hr IH Hn Ht].
  - destruct (inv_seed _ _ _ _ _ _ I Ht) as [? | H]; [done|].
    by apply elem_of_nil in H.
  - destruct (inv_closed _ _ _ _ _ _ I x y n IH Hn Ht) as [? | H]; [done|].
    by apply elem_of_nil in H.
Qed.

(** The loop ends within its fuel and returns the reachable pixels. *)
Lemma flood_loop_correct M sx sy fuel : ∀ visited stack filled,
  flood_inv M sx sy visited stack filled →
  (5 * (Z.to_nat (np.width M) * Z.to_nat (np.height M) - length filled)
   + length stack ≤ fuel)%nat →
  ∃ r, flood_loop fuel M (np.width M) (np.height M) visited stack filled
       = Some r
       ∧ NoDup r ∧ ∀ p, p ∈ r ↔ mask_reach M sx sy p.
Proof.
  induction fuel as [|fuel IH]; intros visited [|[x y] stack] filled I Hfuel;
    simpl in *.
  - eexists. split; [done|]. by eapply flood_inv_final.
  - lia.
  - eexists. split; [done|]. by eapply flood_inv_final.
  - rewrite out_of_bounds_inside.
    destruct (inside (np.width M) (np.height M) x y) eqn:Hi; simpl.
    2: { apply IH; [eapply flood_inv_skip; eauto | lia]. }
    destruct (np.get false visited y x) eqn:Hv; simpl.
    { apply IH; [eapply flood_inv_skip; eauto | lia]. }
    destruct (np.get false M y x) eqn:Hm; simpl.
    2: { apply IH; [eapply flood_inv_skip; eauto | lia]. }
    pose proof (flood_inv_visit _ _ _ _ _ _ _ _ I Hi Hv Hm) as I'.
    apply IH; [done|].
    pose proof (flood_inv_length _ _ _ _ _ _ I') as Hlen.
    pose proof (length_push_neighbors M (np.set visited y x true)
                  (np.width M) (np.height M) x y stack).
    rewrite length_app in *. simpl in *. lia.
Qed.

Lemma flood_loop_more_fuel M w h fuel : ∀ visited stack filled r,
  flood_loop fuel M w h visited stack filled = Some r →
  flood_loop (S fuel) M w h visited stack filled = Some r.
Proof.
  induction fuel as [|fuel IH]; intros visited [|[x y] stack] filled r;
    try done.
  intros H. simpl in H. change (flood_loop (S (S fuel)) M w h visited
    ((x, y) :: stack) filled) with
    (if out_of_bounds w h x y then
       flood_loop (S fuel) M w h visited stack filled
     else if np.get false visited y x || negb (np.get false M y x) then
       flood_loop (S fuel) M w h visited stack filled
     else
       flood_loop (S fuel) M w h (np.set visited y x true)
         (push_neighbors M (np.set visited y x true) w h x y stack)
         (filled ++ [(x, y)])).
  destruct (out_of_bounds w h x y); [by apply IH|].
  destruct (np.get false visited y x || negb (np.get false M y x));
    by apply IH.
Qed.

Lemma flood_loop_fuel_le M w h fuel fuel' visited stack filled r :
  (fuel ≤ fuel')%nat →
  flood_loop fuel M w h visited stack filled = Some r →
  flood_loop fuel' M w h visited stack filled = Some r.
Proof.
  induction 1; [done|]. intros. by apply flood_loop_more_fuel, IHle.
Qed.

Lemma numpy_flood_fill_correct start_x start_y (target_mask : np.ndarray bool) :
  ∃ filled_pixels,
    _numpy_flood_fill start_x start_y target_mask = Some filled_pixels
    ∧ NoDup filled_pixels
    ∧ ∀ p, p ∈ filled_pixels ↔ mask_reach target_mask start_x start_y p.
Proof.
  unfold _numpy_flood_fill.
  apply flood_loop_correct; [apply flood_inv_init|].
  unfold flood_fuel. simpl. lia.
Qed.

(** ** Flood fill: from the image to the mask *)

Lemma lookup_range n (i : nat) : (i < n)%nat → range n !! i = Some (Z.of_nat i).
Proof.
  intros H. unfold range. by rewrite list_lookup_fmap, lookup_seq_lt.
Qed.

Lemma inside_build_target_mask image c x y :
  inside (np.width (build_target_mask image c))
         (np.height (build_target_mask image c)) x y
  = inside (width image) (height image) x y.
Proof.
  unfold np.width, np.height, build_target_mask, width, height, range.
  rewrite length_map, length_map, length_seq.
  destruct (img_height image) as [|h]; simpl.
  - unfold inside. destruct (Z.ltb_spec y (Z.of_nat 0)); [lia|].
    by rewrite !andb_false_r.
  - by rewrite !length_map, length_seq.
Qed.

Lemma get_build_target_mask image c x y :
  inside (width image) (height image) x y = true →
  np.get false (build_target_mask image c) y x
  = bool_decide (pixelColor image x y = c).
Proof.
  rewrite inside_spec. unfold width, height. intros [Hx Hy].
  unfold np.get, build_target_mask.
  rewrite list_lookup_fmap, lookup_range by lia. simpl.
  rewrite list_lookup_fmap, lookup_range by lia. simpl.
  by rewrite !Z2Nat.id by lia.
Qed.

Lemma target_build_target_mask image c x y :
  target (build_target_mask image c) (x, y) ↔
  inside (width image) (height image) x y = true ∧ pixelColor image x y = c.
Proof.
  unfold target. simpl. rewrite inside_build_target_mask.
  split; intros [Hi Hc]; (split; [done|]).
  - rewrite get_build_target_mask in Hc by done. by apply bool_decide_eq_true in Hc.
  - rewrite get_build_target_mask by done. by apply bool_decide_eq_true.
Qed.

Lemma mask_reach_component image sx sy p :
  mask_reach (build_target_mask image (pixelColor image sx sy)) sx sy p ↔
  component image sx sy p.
Proof.
  split.
  - induction 1 as [Ht | x y [nx ny] Hr IH Hn Ht].
    + apply target_build_target_mask in Ht as [Hi _]. by constructor.
    + apply target_build_target_mask in Ht as [Hi Hc].
      by eapply component_step.
  - induction 1 as [Hi | x y nx ny Hc IH Hn Hi Hcol].
    + constructor. by apply target_build_target_mask.
    + eapply mask_reach_step; [done..|]. by apply target_build_target_mask.
Qed.

Lemma component_inside image sx sy x y :
  component image sx sy (x, y) →
  inside (width image) (height image) x y = true
  ∧ pixelColor image x y = pixelColor image sx sy.
Proof. by inversion 1; subst. Qed.

(** ** Flood fill: the claims *)

(** C6. Flood-fill termination: for every mask and every seed, in bounds
    or not, the explicit-stack traversal of [_numpy_flood_fill] ends
    within the [5 * height * width + 1] iterations it is given (and with
    any larger number returns the same list), and no pixel occurs twice in
    its result: each pixel is filled at most once. *)
Theorem numpy_flood_fill_terminates start_x start_y
    (target_mask : np.ndarray bool) :
  ∃ filled_pixels,
    _numpy_flood_fill start_x start_y target_mask = Some filled_pixels
    ∧ (∀ fuel, (flood_fuel target_mask ≤ fuel)%nat →
         flood_loop fuel target_mask (np.width target_mask)
           (np.height target_mask) (np.zeros_like false target_mask)
           [(start_x, start_y)] [] = Some filled_pixels)
    ∧ NoDup filled_pixels.
Proof.
  destruct (numpy_flood_fill_correct start_x start_y target_mask)
    as (filled & Hrun & Hnd & _).
  exists filled. split; [done|]. split; [|done].
  intros fuel Hfuel. by eapply flood_loop_fuel_le.
Qed.

(** C5. Flood-fill result: for an in-bounds seed, [flood_fill] returns,
    without repetition, exactly the pixels of the 4-connected component of
    the seed among the pixels whose colour equals the seed's colour; the
    seed is one of them, and every returned pixel is in bounds and has
    exactly that colour. *)
Theorem flood_fill_component image start_x start_y fill_color :
  inside (width image) (height image) start_x start_y = true →
  ∃ image' filled_pixels,
    flood_fill image start_x start_y fill_color = Some (image', filled_pixels)
    ∧ NoDup filled_pixels
    ∧ (start_x, start_y) ∈ filled_pixels
    ∧ (∀ p, p ∈ filled_pixels ↔ component image start_x start_y p)
    ∧ (∀ x y, (x, y) ∈ filled_pixels →
         inside (width image) (height image) x y = true
         ∧ pixelColor image x y = pixelColor image start_x start_y).
Proof.
  intros Hseed. unfold flood_fill.
  destruct (numpy_flood_fill_correct start_x start_y
              (build_target_mask image (pixelColor image start_x start_y)))
    as (filled & Hrun & Hnd & Hreach).
  rewrite Hrun. simpl. eexists _, filled. split; [done|]. split; [done|].
  assert (Hcomp : ∀ p, p ∈ filled ↔ component image start_x start_y p).
  { intros p. by rewrite Hreach, mask_reach_component. }
  split; [apply Hcomp; by constructor|]. split; [done|].
  intros x y Hp. by apply component_inside, Hcomp.
Qed.

Lemma flood_fill_component_witness :
  inside (width img3) (height img3) 1 1 = true
  ∧ ∃ image' filled_pixels,
      flood_fill img3 1 1 (40, 50, 60) = Some (image', filled_pixels)
      ∧ NoDup filled_pixels
      ∧ (1, 1) ∈ filled_pixels
      ∧ (∀ p, p ∈ filled_pixels ↔ component img3 1 1 p)
      ∧ (∀ x y, (x, y) ∈ filled_pixels →
           inside (width img3) (height img3) x y = true
           ∧ pixelColor img3 x y = pixelColor img3 1 1).
Proof.
  split; [reflexivity|]. apply (flood_fill_component img3 1 1 (40, 50, 60)).
  reflexivity.
Defined.

(** ** Flood fill at a position *)

Lemma is_pixel_black_spec image x y :
  is_pixel_black image x y = true ↔
  inside (width image) (height image) x y = true
  ∧ (pixelColor image x y).1.1 < 10
  ∧ (pixelColor image x y).1.2 < 10
  ∧ (pixelColor image x y).2 < 10.
Proof.
  unfold is_pixel_black. rewrite inside_spec.
  destruct (pixelColor image x y) as [[r g] b]. simpl.
  destruct ((x <? 0) || (x >=? width image) || (y <? 0)
            || (y >=? height image)) eqn:E.
  - split; [done|]. intros [Hi _]. lia.
  - rewrite !andb_true_iff. lia.
Qed.

(** A fill from an in-bounds seed returns at least the seed. *)
Lemma flood_fill_seed image x y fill_color :
  inside (width image) (height image) x y = true →
  ∃ image' filled_pixels,
    flood_fill image x y fill_color = Some (image', filled_pixels)
    ∧ (x, y) ∈ filled_pixels.
Proof.
  intros Hin. unfold flood_fill.
  destruct (numpy_flood_fill_correct x y
              (build_target_mask image (pixelColor image x y)))
    as (filled & Hrun & _ & Hreach).
  rewrite Hrun. simpl. eexists _, filled. split; [done|].
  apply Hreach. constructor. by apply target_build_target_mask.
Qed.

(** What a fill that starts does to the canvas. *)
Lemma flood_fill_at_position_black random_color x y c :
  is_pixel_black (mask_pixmap c) x y = true →
  ∃ image filled_pixels,
    flood_fill (mask_pixmap c) x y random_color = Some (image, filled_pixels)
    ∧ (x, y) ∈ filled_pixels
    ∧ let segmentation :=
        compute_segmentation_borders c
          {| seg_id := next_seg_id c; seg_color := random_color;
             pixels := filled_pixels; border_pixels := [] |} in
      flood_fill_at_position random_color x y c
      = update_pixel_labels
          (push_to_undo_stack
             (set_next_seg_id
                (set_segmentations (set_mask_pixmap c image)
                   (dict_set (next_seg_id c) segmentation (segmentations c)))
                (next_seg_id c + 1))
             (OpSegmentation segmentation)).
Proof.
  intros Hb. pose proof Hb as Hin. apply is_pixel_black_spec in Hin as [Hin _].
  destruct (flood_fill_seed (mask_pixmap c) x y random_color Hin)
    as (image & filled & Hff & Hseed).
  exists image, filled. split; [done|]. split; [done|].
  unfold flood_fill_at_position. rewrite Hb, Hff.
  destruct filled; [by apply elem_of_nil in Hseed | done].
Qed.

(** C4, as stated, fails: the seed pixel of [dark_canvas] is not the
    background colour and is already labelled in the grid, yet the fill is
    performed and creates region 3. *)
Lemma flood_fill_on_dark_pixel :
  pixelColor (mask_pixmap dark_canvas) 0 0 ≠ black
  ∧ get_pixel_label (pixel_labels dark_canvas) 0 0 = 1
  ∧ dict_keys (segmentations dark_canvas) = [1; 2]
  ∧ dict_keys (segmentations
                 (flood_fill_at_position (40, 50, 60) 0 0 dark_canvas))
    = [1; 2; 3].
Proof. split; [discriminate|]. repeat split; vm_compute; reflexivity. Qed.

(** C4, amended. The fill starts exactly when [is_pixel_black] holds of
    the seed: the seed is inside the mask and each channel of its colour
    is below 10.  Otherwise the canvas is unchanged.  When it starts, one
    region is added under the next free id, it holds the seed, and one
    history entry is pushed. *)
Theorem flood_fill_start_policy random_color x y c :
  (is_pixel_black (mask_pixmap c) x y = true ↔
     inside (width (mask_pixmap c)) (height (mask_pixmap c)) x y = true
     ∧ (pixelColor (mask_pixmap c) x y).1.1 < 10
     ∧ (pixelColor (mask_pixmap c) x y).1.2 < 10
     ∧ (pixelColor (mask_pixmap c) x y).2 < 10)
  ∧ (is_pixel_black (mask_pixmap c) x y = false →
       flood_fill_at_position random_color x y c = c)
  ∧ (is_pixel_black (mask_pixmap c) x y = true →
       ∃ segmentation,
         let c' := flood_fill_at_position random_color x y c in
         segmentations c'
         = dict_set (next_seg_id c) segmentation (segmentations c)
         ∧ seg_id segmentation = next_seg_id c
         ∧ (x, y) ∈ pixels segmentation
         ∧ next_seg_id c' = next_seg_id c + 1
         ∧ undo_stack c' = OpSegmentation segmentation :: undo_stack c
         ∧ redo_stack c' = []).
Proof.
  split; [apply is_pixel_black_spec|]. split.
  - intros Hb. unfold flood_fill_at_position. by rewrite Hb.
  - intros Hb.
    destruct (flood_fill_at_position_black random_color x y c Hb)
      as (image & filled & _ & Hseed & Heq).
    eexists. simpl. rewrite Heq. simpl. repeat split; done.
Qed.

(** ** Border extraction *)

Lemma is_border_pixel_spec c segmentation x y :
  is_border_pixel c segmentation (x, y) = true ↔
  ∃ n, n ∈ neighbors x y ∧ in_grid c n.1 n.2
       ∧ (n ∉ pixels segmentation)
       ∧ get_pixel_label (pixel_labels c) n.1 n.2 ≠ seg_id segmentation.
Proof.
  unfold is_border_pixel. rewrite existsb_exists. unfold in_grid.
  split.
  - intros ([nx ny] & Hn & Hc). exists (nx, ny).
    rewrite !andb_true_iff, !negb_true_iff in Hc.
    destruct Hc as [[[[[H1 H2] H3] H4] H5] H6].
    apply bool_decide_eq_false in H5. apply Z.eqb_neq in H6.
    split; [by apply list_elem_of_In|]. simpl. repeat split; (lia || done).
  - intros ([nx ny] & Hn & Hg & Hp & Hl). exists (nx, ny).
    split; [by apply list_elem_of_In|]. simpl in *.
    rewrite !andb_true_iff, !negb_true_iff.
    repeat split;
      first [lia | by apply bool_decide_eq_false | by apply Z.eqb_neq].
Qed.

Lemma border_pixels_compute c segmentation :
  border_pixels (compute_segmentation_borders c segmentation)
  = filter (λ p, is_border_pixel c segmentation p) (pixels segmentation).
Proof. simpl. by destruct (pixels segmentation). Qed.

(** C7, as stated, fails: when the fill of the blank 2 by 1 canvas
    computes the border of its region the grid is still unlabelled, so
    every pixel has an in-bounds neighbour whose label, 0, differs from
    the region's id; the code returns no border pixel, because those
    neighbours are pixels of the region itself. *)
Lemma border_of_fresh_region :
  segmentations (flood_fill_at_position (40, 50, 60) 0 0
                   (create_blank_mask 2 1))
  = [(1, compute_segmentation_borders (create_blank_mask 2 1) strip_region)]
  ∧ border_pixels
      (compute_segmentation_borders (create_blank_mask 2 1) strip_region)
    = []
  ∧ border_by_label (create_blank_mask 2 1) strip_region = [(0, 0); (1, 0)].
Proof. repeat split; vm_compute; reflexivity. Qed.

(** C7, amended. [compute_segmentation_borders] changes nothing but the
    border list, which becomes the sub-list of the region's pixels that
    have an in-bounds 4-neighbour that is not a pixel of the region and
    whose label in the grid differs from the region's id.  Hence the
    border is a subset of the pixels; it is the list the specification
    describes whenever the grid labels the in-bounds pixels of the region
    with its id; and it is empty when the region covers the grid. *)
Theorem compute_segmentation_borders_spec c segmentation :
  let result := compute_segmentation_borders c segmentation in
  seg_id result = seg_id segmentation
  ∧ pixels result = pixels segmentation
  ∧ (∀ x y, (x, y) ∈ border_pixels result ↔
       (x, y) ∈ pixels segmentation
       ∧ ∃ n, n ∈ neighbors x y ∧ in_grid c n.1 n.2
              ∧ (n ∉ pixels segmentation)
              ∧ get_pixel_label (pixel_labels c) n.1 n.2
                ≠ seg_id segmentation)
  ∧ border_pixels result ⊆ pixels segmentation
  ∧ ((∀ x y, in_grid c x y → (x, y) ∈ pixels segmentation →
        get_pixel_label (pixel_labels c) x y = seg_id segmentation) →
     border_pixels result = border_by_label c segmentation)
  ∧ ((∀ x y, in_grid c x y → (x, y) ∈ pixels segmentation) →
     border_pixels result = []).
Proof.
  intros result. subst result.
  assert (Hmem : ∀ x y,
    (x, y) ∈ border_pixels (compute_segmentation_borders c segmentation) ↔
    (x, y) ∈ pixels segmentation
    ∧ ∃ n, n ∈ neighbors x y ∧ in_grid c n.1 n.2
           ∧ (n ∉ pixels segmentation)
           ∧ get_pixel_label (pixel_labels c) n.1 n.2 ≠ seg_id segmentation).
  { intros x y. rewrite border_pixels_compute, list_elem_of_filter.
    rewrite Is_true_true, is_border_pixel_spec. tauto. }
  split; [done|]. split; [done|]. split; [done|]. split; [|split].
  - intros [x y] Hp. by apply Hmem in Hp as [Hp _].
  - intros Hgrid. rewrite border_pixels_compute. unfold border_by_label.
    apply list_filter_iff. intros [x y].
    rewrite !Is_true_true, is_border_pixel_spec, existsb_exists.
    cbn [fst snd].
    split.
    + intros (n & Hn & Hg & Hp & Hl). exists n.
      split; [by apply list_elem_of_In|].
      apply andb_true_iff. split; [by apply inside_spec|].
      by apply negb_true_iff, Z.eqb_neq.
    + intros (n & Hn & Hc). apply andb_true_iff in Hc as [Hi Hl].
      apply inside_spec in Hi. apply negb_true_iff, Z.eqb_neq in Hl.
      exists n. split; [by apply list_elem_of_In|]. split; [done|].
      split; [|done]. intros Hp. destruct n as [nx ny]. apply Hl.
      by apply Hgrid.
  - intros Hcover. destruct (border_pixels _) as [|[x y] l] eqn:E; [done|].
    assert (Hin : (x, y) ∈ (x, y) :: l) by left.
    apply Hmem in Hin as (_ & [nx ny] & _ & Hg & Hp & _).
    destruct Hp. by apply Hcover.
Qed.

(** ** Dictionaries *)

Lemma filter_all {A} (P : A → Prop) `{∀ x, Decision (P x)} (l : list A) :
  (∀ x, x ∈ l → P x) → filter P l = l.
Proof.
  induction l as [|x l IH]; intros Hall; [done|].
  rewrite filter_cons_True by (apply Hall; by left).
  f_equal. apply IH. intros y Hy. apply Hall. by right.
Qed.

Section dict.
Context {V : Type}.
Implicit Types (d : list (Z * V)) (k : Z) (v : V).

Lemma dict_get_set_eq k v d : dict_get k (dict_set k v d) = Some v.
Proof.
  induction d as [|[k' v'] d IH]; simpl.
  - by rewrite decide_True.
  - destruct (decide (k = k')); simpl.
    + by rewrite decide_True.
    + by rewrite decide_False.
Qed.


Lemma dict_get_del_eq k d : dict_get k (dict_del k d) = None.
Proof.
  unfold dict_del. induction d as [|[k' v'] d IH]; [done|].
  rewrite filter_cons. simpl. destruct (decide (k' ≠ k)); [|done].
  simpl. by rewrite decide_False.
Qed.

Lemma dict_get_del_ne k k' d :
  k ≠ k' → dict_get k' (dict_del k d) = dict_get k' d.
Proof.
  intros Hne. unfold dict_del. induction d as [|[k0 v0] d IH]; [done|].
  rewrite filter_cons. simpl. destruct (decide (k0 ≠ k)) as [? | Heq]; simpl.
  - by rewrite IH.
  - apply dec_stable in Heq. subst. by rewrite decide_False.
Qed.

Lemma dict_get_None k d : dict_get k d = None ↔ k ∉ dict_keys d.
Proof.
  unfold dict_keys. induction d as [|[k' v'] d IH]; simpl.
  - split; [intros _ H; by apply elem_of_nil in H | done].
  - rewrite not_elem_of_cons. destruct (decide (k = k')); [|tauto].
    split; [done | tauto].
Qed.

Lemma dict_get_Some_elem k v d : dict_get k d = Some v → (k, v) ∈ d.
Proof.
  induction d as [|[k' v'] d IH]; simpl; [done|].
  destruct (decide (k = k')) as [-> | ?].
  - intros [= ->]. by left.
  - intros H. right. by apply IH.
Qed.

Lemma elem_dict_get k v d :
  NoDup (dict_keys d) → (k, v) ∈ d → dict_get k d = Some v.
Proof.
  unfold dict_keys. induction d as [|[k' v'] d IH]; simpl.
  - intros _ H. by apply elem_of_nil in H.
  - intros [Hk Hnd]%NoDup_cons [[= -> ->] | Hin]%elem_of_cons.
    + by rewrite decide_True.
    + destruct (decide (k = k')) as [-> | ?]; [|by apply IH].
      destruct Hk. apply list_elem_of_fmap. by exists (k', v).
Qed.

Lemma dict_set_fresh k v d :
  k ∉ dict_keys d → dict_set k v d = d ++ [(k, v)].
Proof.
  unfold dict_keys. induction d as [|[k' v'] d IH]; simpl; [done|].
  intros [Hne Hk]%not_elem_of_cons. rewrite decide_False by done.
  by rewrite IH.
Qed.

Lemma dict_del_fresh k d : k ∉ dict_keys d → dict_del k d = d.
Proof.
  unfold dict_keys, dict_del. induction d as [|[k' v'] d IH]; [done|].
  simpl. intros [Hne Hk]%not_elem_of_cons.
  rewrite filter_cons. simpl. rewrite decide_True by done. by rewrite IH.
Qed.

Lemma dict_del_snoc k v d : dict_del k (d ++ [(k, v)]) = dict_del k d.
Proof.
  unfold dict_del. rewrite filter_app, filter_cons_False; [|simpl; tauto].
  by rewrite filter_nil, app_nil_r.
Qed.

Lemma dict_keys_del k d :
  dict_keys (dict_del k d) = filter (λ k', k' ≠ k) (dict_keys d).
Proof.
  unfold dict_keys, dict_del. induction d as [|[k' v'] d IH]; [done|].
  simpl. rewrite !filter_cons. simpl.
  destruct (decide (k' ≠ k)); simpl; by rewrite IH.
Qed.

Lemma dict_keys_set k v d :
  dict_keys (dict_set k v d)
  = if decide (k ∈ dict_keys d) then dict_keys d else dict_keys d ++ [k].
Proof.
  unfold dict_keys. induction d as [|[k' v'] d IH]; cbn [dict_set map fst].
  - rewrite decide_False; [done|]. intros H. by apply elem_of_nil in H.
  - destruct (decide (k = k')) as [-> | Hne]; cbn [map fst].
    + rewrite decide_True; [done | by left].
    + rewrite IH. destruct (decide (k ∈ map fst d)).
      * rewrite decide_True; [done | by right].
      * rewrite decide_False; [done|]. rewrite not_elem_of_cons. tauto.
Qed.

Lemma NoDup_dict_keys_set k v d :
  NoDup (dict_keys d) → NoDup (dict_keys (dict_set k v d)).
Proof.
  intros Hnd. rewrite dict_keys_set. destruct (decide _); [done|].
  apply NoDup_app. split; [done|]. split; [|apply NoDup_singleton].
  intros x Hx ->%list_elem_of_singleton. done.
Qed.

Lemma NoDup_dict_keys_del k d :
  NoDup (dict_keys d) → NoDup (dict_keys (dict_del k d)).
Proof. intros Hnd. rewrite dict_keys_del. by apply NoDup_filter. Qed.

Lemma foldl_dict_del (ks : list Z) d :
  foldl (λ d k, dict_del k d) d ks = filter (λ kv, kv.1 ∉ ks) d.
Proof.
  revert d. induction ks as [|k ks IH]; intros d; simpl.
  - symmetry. apply filter_all. intros kv _ H. by apply elem_of_nil in H.
  - rewrite IH. unfold dict_del. rewrite list_filter_filter.
    apply list_filter_iff. intros [k' v']. simpl.
    rewrite not_elem_of_cons. tauto.
Qed.

Lemma max_key_spec d m :
  max_key d = Some m → m ∈ dict_keys d ∧ ∀ k, k ∈ dict_keys d → k ≤ m.
Proof.
  unfold max_key. destruct (dict_keys d) as [|k0 ks]; [done|].
  intros [= <-]. clear d. revert k0.
  induction ks as [|k ks IH]; intros k0; simpl.
  - split; [by left|]. intros k ->%list_elem_of_singleton. lia.
  - destruct (IH (k0 `max` k)) as [Hin Hmax]. split.
    + apply elem_of_cons in Hin as [Heq | Hin]; [|by right; right].
      rewrite Heq. destruct (Z.max_spec k0 k) as [[_ ->] | [_ ->]];
        [right; left | left]; done.
    + intros k' Hk'. rewrite !elem_of_cons in Hk'.
      pose proof (Hmax (k0 `max` k) ltac:(by left)).
      destruct Hk' as [-> | [-> | Hk']]; [lia | lia |].
      apply Hmax. by right.
Qed.

Lemma max_key_None d : max_key d = None ↔ d = [].
Proof. unfold max_key, dict_keys. by destruct d. Qed.

Lemma max_key_is_Some d : d ≠ [] → is_Some (max_key d).
Proof. unfold max_key, dict_keys. destruct d; [done | by eexists]. Qed.

Lemma max_key_get d m : max_key d = Some m → is_Some (dict_get m d).
Proof.
  intros [Hin _]%max_key_spec.
  destruct (dict_get m d) eqn:E; [by eexists|].
  by apply dict_get_None in E.
Qed.

Lemma max_key_fresh d n v :
  (∀ k, k ∈ dict_keys d → k < n) → max_key (d ++ [(n, v)]) = Some n.
Proof.
  intros Hlt. destruct (max_key (d ++ [(n, v)])) as [m|] eqn:E.
  - apply max_key_spec in E as [Hin Hmax]. f_equal.
    unfold dict_keys in *. rewrite map_app in *. simpl in *.
    pose proof (Hmax n ltac:(apply elem_of_app; right; by left)).
    apply elem_of_app in Hin as [Hin | ->%list_elem_of_singleton]; [|done].
    apply Hlt in Hin. lia.
  - apply max_key_None in E. by destruct d.
Qed.

End dict.

(** ** Merge *)

Lemma next_seg_id_fresh c :
  store_wf c → next_seg_id c ∉ dict_keys (segmentations c).
Proof.
  intros Hwf Hin. unfold dict_keys in Hin.
  apply list_elem_of_fmap in Hin as ([k s] & Hk & Hin). simpl in Hk.
  pose proof (proj1 (Forall_forall _ _) (wf_fresh _ Hwf) _ Hin). simpl in *.
  lia.
Qed.

(** What a merge that takes effect does to the canvas. *)
Lemma merge_effective new_color c :
  (2 ≤ length (selected_segmentations c))%nat →
  concat (map pixels (get_selected_segmentations c)) ≠ [] →
  merge_selected_segmentations new_color c
  = let merged := merged_segmentation new_color c in
    let c1 := set_segmentations c
                (dict_set (next_seg_id c) merged
                   (foldl (λ d seg_id, dict_del seg_id d) (segmentations c)
                      (selected_segmentations c))) in
    let c2 := update_pixel_labels
                (push_to_undo_stack
                   (set_selected (set_next_seg_id c1 (next_seg_id c + 1)) [])
                   (OpMerge (get_selected_segmentations c) merged)) in
    set_mask_pixmap c2
      (paint_pixels (mask_pixmap c2) (pixels merged) (seg_color merged)).
Proof.
  intros Hlen Hpix. unfold merge_selected_segmentations.
  destruct (Nat.ltb_spec (length (selected_segmentations c)) 2); [lia|].
  destruct (concat (map pixels (get_selected_segmentations c))) eqn:E;
    [done|].
  unfold merged_segmentation. by rewrite E.
Qed.

Lemma merge_refused new_color c :
  (length (selected_segmentations c) < 2)%nat →
  merge_selected_segmentations new_color c = c.
Proof.
  intros Hlen. unfold merge_selected_segmentations.
  by destruct (Nat.ltb_spec (length (selected_segmentations c)) 2); [|lia].
Qed.




Lemma store_wf_dark_selected : store_wf dark_selected.
Proof.
  split.
  - by apply (bool_decide_unpack _).
  - vm_compute. repeat constructor.
  - vm_compute. repeat constructor.
  - vm_compute. repeat constructor; discriminate.
  - by apply (bool_decide_unpack _).
Qed.


(** C9. Merge border policy: a merge that takes effect stores, under the
    next id, a region whose border list is the concatenation of the border
    lists its constituents had, in the order the selection is iterated;
    nothing is recomputed.  The history entry records those constituents
    and that region. *)
Theorem merge_border_policy new_color c :
  (2 ≤ length (selected_segmentations c))%nat →
  concat (map pixels (get_selected_segmentations c)) ≠ [] →
  let c' := merge_selected_segmentations new_color c in
  ∃ merged,
    dict_get (next_seg_id c) (segmentations c') = Some merged
    ∧ undo_stack c'
      = OpMerge (get_selected_segmentations c) merged :: undo_stack c
    ∧ border_pixels merged
      = concat (map border_pixels (get_selected_segmentations c))
    ∧ pixels merged = concat (map pixels (get_selected_segmentations c)).
Proof.
  intros Hlen Hpix c'. subst c'. rewrite merge_effective by done.
  exists (merged_segmentation new_color c). simpl.
  split; [apply dict_get_set_eq | done].
Qed.

Lemma merge_border_policy_witness :
  let c' := merge_selected_segmentations (70, 80, 90) dark_selected in
  ∃ merged,
    dict_get (next_seg_id dark_selected) (segmentations c') = Some merged
    ∧ undo_stack c'
      = OpMerge (get_selected_segmentations dark_selected) merged
        :: undo_stack dark_selected
    ∧ border_pixels merged
      = concat (map border_pixels (get_selected_segmentations dark_selected))
    ∧ pixels merged
      = concat (map pixels (get_selected_segmentations dark_selected)).
Proof.
  apply (merge_border_policy (70, 80, 90) dark_selected).
  - vm_compute. lia.
  - vm_compute. discriminate.
Defined.

(** The stored border of a merged region can be stale: merging the two
    regions of [dark_canvas] keeps both old border pixels, although the
    merged region covers the grid and its recomputed border is empty. *)
Example merged_border_is_stale :
  let c' := merge_selected_segmentations (70, 80, 90) dark_selected in
  ∃ merged,
    segmentations c' = [(3, merged)]
    ∧ border_pixels merged = [(0, 0); (1, 0)]
    ∧ border_pixels (compute_segmentation_borders c' merged) = [].
Proof. eexists. repeat split; vm_compute; reflexivity. Qed.

(** ** Undo of a region creation *)

(** C10, as stated, fails in its last part: with an empty store the popped
    entry is not moved to the redo stack; it is dropped. *)
Lemma undo_drops_entry_on_empty_store :
  segmentations orphan_canvas = []
  ∧ undo_stack orphan_canvas = [OpSegmentation strip_region]
  ∧ undo_stack (undo_last_operation dot_painter orphan_canvas) = []
  ∧ redo_stack (undo_last_operation dot_painter orphan_canvas) = []
  ∧ redo_stack (undo_last_operation dot_painter orphan_canvas)
    ≠ OpSegmentation strip_region :: redo_stack orphan_canvas.
Proof. repeat split; try (vm_compute; reflexivity). discriminate. Qed.

(** C10, amended. When [undo] pops a region-creation entry and the store
    is not empty, the region it removes is the one with the greatest key
    of the store, whatever region the entry records; its pixels are
    painted black on the mask and the entry goes to the redo stack.  When
    the store is empty the entry is popped and dropped: the store, the
    mask and the redo stack are unchanged. *)
Theorem undo_segmentation_entry qp c data rest :
  undo_stack c = OpSegmentation data :: rest →
  let c' := undo_last_operation qp c in
  undo_stack c' = rest
  ∧ (segmentations c ≠ [] →
       ∃ last_seg_id removed_seg,
         max_key (segmentations c) = Some last_seg_id
         ∧ last_seg_id ∈ dict_keys (segmentations c)
         ∧ (∀ k, k ∈ dict_keys (segmentations c) → k ≤ last_seg_id)
         ∧ dict_get last_seg_id (segmentations c) = Some removed_seg
         ∧ segmentations c' = dict_del last_seg_id (segmentations c)
         ∧ mask_pixmap c'
           = set_segmentation_pixels_to_black (mask_pixmap c)
               (pixels removed_seg)
         ∧ redo_stack c' = OpSegmentation data :: redo_stack c)
  ∧ (segmentations c = [] →
       segmentations c' = []
       ∧ mask_pixmap c' = mask_pixmap c
       ∧ redo_stack c' = redo_stack c).
Proof.
  intros Hstack c'. subst c'. unfold undo_last_operation. rewrite Hstack.
  cbn [set_stacks segmentations].
  split; [|split].
  - destruct (max_key (segmentations c)) as [m|]; [|done].
    by destruct (dict_get m (segmentations c)).
  - intros Hne. destruct (max_key_is_Some _ Hne) as [m Hm]. rewrite Hm.
    destruct (max_key_get _ _ Hm) as [removed Hget]. rewrite Hget.
    destruct (max_key_spec _ _ Hm) as [Hin Hmax].
    exists m, removed. repeat split; done.
  - intros Hempty. rewrite Hempty. done.
Qed.

Lemma undo_segmentation_entry_witness :
  let data := {| seg_id := 1; seg_color := (5, 5, 5);
                 pixels := [(0, 0)]; border_pixels := [(0, 0)] |} in
  let c' := undo_last_operation dot_painter dark_history in
  undo_stack c' = []
  ∧ (segmentations dark_history ≠ [] →
       ∃ last_seg_id removed_seg,
         max_key (segmentations dark_history) = Some last_seg_id
         ∧ last_seg_id ∈ dict_keys (segmentations dark_history)
         ∧ (∀ k, k ∈ dict_keys (segmentations dark_history) →
              k ≤ last_seg_id)
         ∧ dict_get last_seg_id (segmentations dark_history)
           = Some removed_seg
         ∧ segmentations c'
           = dict_del last_seg_id (segmentations dark_history)
         ∧ mask_pixmap c'
           = set_segmentation_pixels_to_black (mask_pixmap dark_history)
               (pixels removed_seg)
         ∧ redo_stack c' = OpSegmentation data :: redo_stack dark_history)
  ∧ (segmentations dark_history = [] →
       segmentations c' = []
       ∧ mask_pixmap c' = mask_pixmap dark_history
       ∧ redo_stack c' = redo_stack dark_history).
Proof.
  intros data. apply (undo_segmentation_entry dot_painter dark_history data []).
  reflexivity.
Defined.

(** The region removed need not be the one the entry records: the entry of
    [dark_history] records region 1 and the undo removes region 2. *)
Example undo_removes_greatest_id :
  dict_keys (segmentations dark_history) = [1; 2]
  ∧ dict_keys (segmentations (undo_last_operation dot_painter dark_history))
    = [1].
Proof. split; vm_compute; reflexivity. Qed.

(** ** Selection and deletion *)

Lemma undo_keeps_selection qp c :
  selected_segmentations (undo_last_operation qp c)
  = selected_segmentations c.
Proof.
  unfold undo_last_operation.
  destruct (undo_stack c) as [|[data | data | olds new] rest]; [done|..];
    simpl; repeat case_match; done.
Qed.

Lemma redo_keeps_selection qp c :
  selected_segmentations (redo_last_operation qp c)
  = selected_segmentations c.
Proof.
  unfold redo_last_operation.
  by destruct (redo_stack c) as [|[data | data | olds new] rest].
Qed.

Lemma remove_discards_selection segmentation c :
  seg_id segmentation
  ∉ selected_segmentations (remove_segmentation segmentation c).
Proof.
  simpl. unfold set_discard. intros Hin.
  by apply list_elem_of_filter in Hin as [Hne _].
Qed.

(** C3 fails on the code: the blank 1 by 1 canvas is filled, the new
    region 1 is selected, and [undo] deletes the region while its id stays
    selected. *)
Theorem undo_leaves_stale_selection qp :
  let c := run qp [FloodFill (40, 50, 60) 0 0; Select 0 0 false; Undo]
               (create_blank_mask 1 1) in
  segmentations c = [] ∧ selected_segmentations c = [1].
Proof. split; vm_compute; reflexivity. Qed.

(** ** The label grid *)

Lemma shaped_zeros {A} (v : A) h w : shaped h w (np.zeros v h w).
Proof.
  unfold shaped, np.zeros. split; [by rewrite length_replicate|].
  apply Forall_replicate. by rewrite length_replicate.
Qed.

Lemma shaped_zeros_like {A B} (v : B) h w (a : np.ndarray A) :
  shaped h w a → shaped h w (np.zeros_like v a).
Proof.
  intros [Hh Hw]. unfold shaped, np.zeros_like.
  split; [by rewrite length_map|].
  apply Forall_fmap. eapply Forall_impl; [done|].
  intros row Hrow. simpl. by rewrite length_map.
Qed.

Lemma shaped_set {A} h w (a : np.ndarray A) y x v :
  shaped h w a → shaped h w (np.set a y x v).
Proof.
  intros [Hh Hw]. unfold shaped, np.set.
  split; [by rewrite length_alter|].
  apply Forall_alter; [done|]. intros row _ Hrow.
  by rewrite length_insert.
Qed.

Lemma shaped_height {A} h w (a : np.ndarray A) :
  shaped h w a → np.height a = Z.of_nat h.
Proof. intros [Hh _]. unfold np.height. by rewrite Hh. Qed.

Lemma shaped_width {A} h w (a : np.ndarray A) :
  shaped h w a → (0 < h)%nat → np.width a = Z.of_nat w.
Proof.
  intros [Hh Hw] Hpos. unfold np.width. destruct a as [|row a]; simpl in *.
  - lia.
  - apply Forall_cons in Hw as [-> _]. done.
Qed.

Lemma shaped_has_cell {A} h w (a : np.ndarray A) y x :
  shaped h w a → 0 ≤ x < Z.of_nat w → 0 ≤ y < Z.of_nat h → has_cell a y x.
Proof.
  intros [Hh Hw] Hx Hy. unfold has_cell.
  destruct (lookup_lt_is_Some_2 a (Z.to_nat y)) as [row Hrow]; [lia|].
  exists row. split; [done|]. rewrite Forall_forall in Hw.
  rewrite (Hw row); [lia|]. by eapply list_elem_of_lookup_2.
Qed.

Lemma inside_shaped {A} h w (a : np.ndarray A) x y :
  shaped h w a →
  (0 <=? y) && (y <? np.height a) && (0 <=? x) && (x <? np.width a)
  = inside (Z.of_nat w) (Z.of_nat h) x y.
Proof.
  intros Hs. rewrite (shaped_height _ _ _ Hs). unfold inside.
  destruct h as [|h].
  - destruct (Z.ltb_spec y (Z.of_nat 0)); [lia|].
    by rewrite !andb_false_r, andb_false_l.
  - rewrite (shaped_width _ _ _ Hs) by lia.
    destruct (0 <=? y), (y <? Z.of_nat (S h)), (0 <=? x), (x <? Z.of_nat w);
      done.
Qed.

Lemma shaped_label_pixels h w k (g : np.ndarray Z) pix :
  shaped h w g → shaped h w (label_pixels k g pix).
Proof.
  unfold label_pixels. revert g.
  induction pix as [|[px py] pix IH]; intros g Hs; simpl; [done|].
  apply IH. destruct (_ && _); [by apply shaped_set | done].
Qed.

Lemma get_label_pixels h w k (g : np.ndarray Z) pix x y :
  shaped h w g → 0 ≤ x < Z.of_nat w → 0 ≤ y < Z.of_nat h →
  np.get 0 (label_pixels k g pix) y x
  = if bool_decide ((x, y) ∈ pix) then k else np.get 0 g y x.
Proof.
  intros Hs Hx Hy. unfold label_pixels. revert g Hs.
  induction pix as [|[px py] pix IH]; intros g Hs; cbn [foldl].
  - rewrite bool_decide_eq_false_2; [done|]. intros H. by apply elem_of_nil in H.
  - rewrite (inside_shaped h w) by done.
    destruct (inside (Z.of_nat w) (Z.of_nat h) px py) eqn:Hin.
    + rewrite IH by by apply shaped_set.
      apply inside_spec in Hin.
      destruct (decide ((px, py) = (x, y))) as [[= -> ->] | Hne].
      * rewrite np_get_set_eq by by eapply shaped_has_cell.
        rewrite (bool_decide_eq_true_2 ((x, y) ∈ (x, y) :: pix)) by by left.
        by destruct (bool_decide _).
      * rewrite np_get_set_ne by (done || lia).
        rewrite (bool_decide_ext ((x, y) ∈ pix) ((x, y) ∈ (px, py) :: pix));
          [done|].
        rewrite elem_of_cons. split; [auto|].
        intros [? | ?]; [congruence | done].
    + rewrite IH by done.
      rewrite (bool_decide_ext ((x, y) ∈ pix) ((x, y) ∈ (px, py) :: pix));
        [done|].
      rewrite elem_of_cons. split; [auto|].
      intros [[= <- <-] | ?]; [|done].
      assert (inside (Z.of_nat w) (Z.of_nat h) x y = true)
        by (apply inside_spec; lia). congruence.
Qed.

Lemma shaped_label_segmentations h w (g : np.ndarray Z) segs :
  shaped h w g → shaped h w (label_segmentations g segs).
Proof.
  unfold label_segmentations. revert g.
  induction segs as [|[k s] segs IH]; intros g Hs; cbn [foldl]; [done|].
  by apply IH, shaped_label_pixels.
Qed.

Lemma get_label_segmentations h w (g : np.ndarray Z) segs x y :
  shaped h w g → 0 ≤ x < Z.of_nat w → 0 ≤ y < Z.of_nat h →
  np.get 0 (label_segmentations g segs) y x
  = foldl (λ label '(seg_id, segmentation),
             if bool_decide ((x, y) ∈ pixels segmentation)
             then seg_id else label)
          (np.get 0 g y x) segs.
Proof.
  intros Hs Hx Hy. unfold label_segmentations. revert g Hs.
  induction segs as [|[k s] segs IH]; intros g Hs; cbn [foldl]; [done|].
  rewrite IH by by apply shaped_label_pixels.
  by rewrite (get_label_pixels h w).
Qed.

Lemma get_pixel_label_inside h w (labels : np.ndarray Z) x y :
  shaped h w labels → 0 ≤ x < Z.of_nat w → 0 ≤ y < Z.of_nat h →
  get_pixel_label (Some labels) x y = np.get 0 labels y x.
Proof.
  intros Hs Hx Hy. unfold get_pixel_label.
  rewrite (shaped_height _ _ _ Hs), (shaped_width _ _ _ Hs) by lia.
  destruct (Z.ltb_spec x 0), (Z.ltb_spec y 0); try lia.
  destruct (Z.geb_spec y (Z.of_nat h)), (Z.geb_spec x (Z.of_nat w)); try lia.
  done.
Qed.

Lemma get_pixel_label_outside h w (labels : np.ndarray Z) x y :
  shaped h w labels →
  ¬ (0 ≤ x < Z.of_nat w ∧ 0 ≤ y < Z.of_nat h) →
  get_pixel_label (Some labels) x y = 0.
Proof.
  intros Hs Hout. unfold get_pixel_label.
  rewrite (shaped_height _ _ _ Hs).
  destruct (Z.ltb_spec x 0), (Z.ltb_spec y 0); try done.
  destruct (Z.geb_spec y (Z.of_nat h)); [done|].
  rewrite (shaped_width _ _ _ Hs) by lia.
  destruct (Z.geb_spec x (Z.of_nat w)); [done | lia].
Qed.

Lemma labels_shaped_update c :
  labels_shaped c → labels_shaped (update_pixel_labels c).
Proof.
  intros Hs labels [= <-]. simpl.
  apply shaped_label_segmentations, shaped_zeros_like.
  destruct (pixel_labels c) as [a|] eqn:E; [by apply Hs | apply shaped_zeros].
Qed.

(** After [update_pixel_labels] the grid holds the last owner of every
    pixel of the image. *)
Lemma grid_last_owner_update c :
  labels_shaped c → grid_last_owner (update_pixel_labels c).
Proof.
  intros Hs. split; [by apply labels_shaped_update|].
  intros x y [Hx Hy]. simpl in Hx, Hy. cbn [update_pixel_labels set_pixel_labels
    pixel_labels segmentations].
  assert (Hz : shaped (original_height c) (original_width c)
                 (np.zeros_like 0
                    match pixel_labels c with
                    | Some labels => labels
                    | None => initialize_pixel_labels c
                    end)).
  { apply shaped_zeros_like.
    destruct (pixel_labels c) as [a|] eqn:E; [by apply Hs | apply shaped_zeros]. }
  rewrite (get_pixel_label_inside (original_height c) (original_width c));
    [|by apply shaped_label_segmentations|done..].
  rewrite (get_label_segmentations (original_height c) (original_width c))
    by done.
  by rewrite np_get_zeros_like.
Qed.

Lemma grid_last_owner_view c c' :
  grid_view c = grid_view c' → grid_last_owner c → grid_last_owner c'.
Proof.
  unfold grid_view. intros [= Hw Hh Hp Hsg] [Hs Hl]. split.
  - intros labels Hlab. rewrite <- Hw, <- Hh. apply Hs. by rewrite Hp.
  - intros x y Hin. rewrite <- Hp, <- Hsg. apply Hl.
    unfold in_grid in *. by rewrite Hw, Hh.
Qed.

Lemma labels_shaped_view c c' :
  grid_view c = grid_view c' → labels_shaped c → labels_shaped c'.
Proof.
  unfold grid_view. intros [= Hw Hh Hp Hsg] Hs labels Hlab.
  rewrite <- Hw, <- Hh. apply Hs. by rewrite Hp.
Qed.

(** ** The grid invariant along the operations *)

Lemma labels_shaped_same c c' :
  same_labels c c' → labels_shaped c → labels_shaped c'.
Proof.
  intros (Hw & Hh & Hp) Hs labels Hlab. rewrite Hw, Hh. apply Hs.
  by rewrite <- Hp.
Qed.

Lemma grid_last_owner_update_same c c' :
  same_labels c c' → grid_last_owner c →
  grid_last_owner (update_pixel_labels c').
Proof.
  intros Hsame [Hs _]. by eapply grid_last_owner_update, labels_shaped_same.
Qed.

Lemma grid_last_owner_flood_fill random_color x y c :
  grid_last_owner c →
  grid_last_owner (flood_fill_at_position random_color x y c).
Proof.
  intros Hg. destruct (is_pixel_black (mask_pixmap c) x y) eqn:Hb.
  - destruct (flood_fill_at_position_black random_color x y c Hb)
      as (image & filled & _ & _ & ->).
    by apply (grid_last_owner_update_same c).
  - unfold flood_fill_at_position. by rewrite Hb.
Qed.

Lemma stroke_moves_view qp remove pen moves : ∀ c d last,
  grid_view
    (foldl (λ '(c, current_drawing, last_pos) pos,
              let '(c, current_drawing) :=
                draw_line qp remove pen c current_drawing last_pos pos in
              (c, current_drawing, pos))
           (c, d, last) moves).1.1
  = grid_view c.
Proof.
  induction moves as [|pos moves IH]; intros c d last; cbn [foldl]; [done|].
  unfold draw_line at 2. by rewrite IH.
Qed.

Lemma stroke_view qp remove pen p0 moves c :
  grid_view (stroke qp remove pen p0 moves c) = grid_view c.
Proof.
  unfold stroke.
  pose proof (stroke_moves_view qp remove pen moves
    (draw_at_position qp remove pen
       (set_next_draw_id c (next_draw_id c + 1)) p0)
    {| draw_id := next_draw_id c; draw_pixels := []; thickness := pen |} p0)
    as Hv.
  destruct (foldl _ _ moves) as [[c' d'] last']. simpl in Hv.
  by destruct (0 <? length (draw_pixels d'))%nat.
Qed.

Lemma grid_last_owner_remove segmentation c :
  grid_last_owner c → grid_last_owner (remove_segmentation segmentation c).
Proof. intros Hg. by apply (grid_last_owner_update_same c). Qed.

Lemma grid_last_owner_remove_at c pos :
  grid_last_owner c → grid_last_owner (remove_at c pos).
Proof.
  intros Hg. unfold remove_at.
  destruct (get_segmentation_at_pixel c pos.1 pos.2) as [s|]; [|done].
  apply grid_last_owner_update. by apply grid_last_owner_remove.
Qed.

Lemma grid_last_owner_mouse_remove qp pen p0 moves c :
  grid_last_owner c → grid_last_owner (mouse_remove qp pen p0 moves c).
Proof.
  intros Hg. unfold mouse_remove.
  destruct (get_segmentation_at_pixel c p0.1 p0.2) as [s|].
  - assert (Hg' : grid_last_owner
                    (update_pixel_labels (remove_segmentation s c))).
    { apply grid_last_owner_update. by apply grid_last_owner_remove. }
    revert Hg'. generalize (update_pixel_labels (remove_segmentation s c)).
    induction moves as [|pos moves IH]; intros c' Hg'; cbn [foldl]; [done|].
    by apply IH, grid_last_owner_remove_at.
  - eapply grid_last_owner_view; [|done]. symmetry. apply stroke_view.
Qed.

Lemma select_view x y shift_pressed c :
  grid_view (select_region_at_position x y shift_pressed c) = grid_view c.
Proof.
  unfold select_region_at_position.
  destruct (get_segmentation_at_pixel c x y) as [s|]; [|done].
  destruct shift_pressed, (bool_decide _); done.
Qed.

Lemma toggle_view seg_id checked c :
  grid_view (toggle_segmentation_selection seg_id checked c) = grid_view c.
Proof. by destruct checked. Qed.

Lemma grid_last_owner_set_mask c m :
  grid_last_owner c → grid_last_owner (set_mask_pixmap c m).
Proof. by apply grid_last_owner_view. Qed.

Lemma grid_last_owner_merge new_color c :
  grid_last_owner c →
  grid_last_owner (merge_selected_segmentations new_color c).
Proof.
  intros Hg.
  destruct (Nat.ltb_spec (length (selected_segmentations c)) 2) as [Hlt | Hge].
  { by rewrite merge_refused. }
  destruct (decide (concat (map pixels (get_selected_segmentations c)) = []))
    as [Hnil | Hpix].
  { unfold merge_selected_segmentations.
    destruct (Nat.ltb_spec (length (selected_segmentations c)) 2); [done|].
    by rewrite Hnil. }
  rewrite merge_effective by done. cbv zeta.
  apply grid_last_owner_set_mask. by apply (grid_last_owner_update_same c).
Qed.

(** [undo] and [redo] with an entry to pop end in [update_pixel_labels]. *)
Lemma undo_ends_in_update qp c :
  undo_stack c ≠ [] →
  ∃ c1, undo_last_operation qp c = update_pixel_labels c1 ∧ same_labels c c1.
Proof.
  intros Hne. unfold undo_last_operation.
  destruct (undo_stack c) as [|[data | data | olds new] rest]; [done|..].
  - destruct (max_key (segmentations _)) as [m|]; [|by eexists].
    destruct (dict_get m _); by eexists.
  - destruct (max_key (drawings _)) as [m|]; [|by eexists].
    destruct (dict_get m _); by eexists.
  - by eexists.
Qed.

Lemma redo_ends_in_update qp c :
  redo_stack c ≠ [] →
  ∃ c1, redo_last_operation qp c = update_pixel_labels c1 ∧ same_labels c c1.
Proof.
  intros Hne. unfold redo_last_operation.
  destruct (redo_stack c) as [|[data | data | olds new] rest]; [done|..];
    by eexists.
Qed.

Lemma grid_last_owner_undo qp c :
  grid_last_owner c → grid_last_owner (undo_last_operation qp c).
Proof.
  intros Hg. destruct (decide (undo_stack c = [])) as [He | Hne].
  - unfold undo_last_operation. by rewrite He.
  - destruct (undo_ends_in_update qp c Hne) as (c1 & -> & Hsame).
    by apply (grid_last_owner_update_same c).
Qed.

Lemma grid_last_owner_redo qp c :
  grid_last_owner c → grid_last_owner (redo_last_operation qp c).
Proof.
  intros Hg. destruct (decide (redo_stack c = [])) as [He | Hne].
  - unfold redo_last_operation. by rewrite He.
  - destruct (redo_ends_in_update qp c Hne) as (c1 & -> & Hsame).
    by apply (grid_last_owner_update_same c).
Qed.

Lemma grid_last_owner_step qp a c :
  grid_last_owner c → grid_last_owner (step qp a c).
Proof.
  intros Hg. destruct a; simpl.
  - by apply grid_last_owner_flood_fill.
  - eapply grid_last_owner_view; [|done]. symmetry. apply stroke_view.
  - by apply grid_last_owner_mouse_remove.
  - destruct (pixel_labels c) eqn:E; [|done].
    eapply grid_last_owner_view; [|done]. symmetry. apply select_view.
  - eapply grid_last_owner_view; [|done]. symmetry. apply toggle_view.
  - by apply grid_last_owner_merge.
  - by apply grid_last_owner_undo.
  - by apply grid_last_owner_redo.
Qed.

(** ** Grid/region consistency *)

Lemma last_owner_snoc segs k s p :
  last_owner (segs ++ [(k, s)]) p
  = if bool_decide (p ∈ pixels s) then k else last_owner segs p.
Proof. unfold last_owner. by rewrite foldl_app. Qed.

(** The last owner is 0 when no region has the pixel, and otherwise the
    id of a region that has it. *)
Lemma last_owner_cases segs p :
  (last_owner segs p = 0 ∧ ∀ k s, (k, s) ∈ segs → p ∉ pixels s)
  ∨ ∃ k s, (k, s) ∈ segs ∧ p ∈ pixels s ∧ last_owner segs p = k.
Proof.
  induction segs as [|[k s] segs IH] using rev_ind.
  - left. split; [done|]. intros k s H. by apply elem_of_nil in H.
  - rewrite last_owner_snoc. destruct (decide (p ∈ pixels s)) as [Hp | Hp].
    + right. exists k, s. rewrite bool_decide_eq_true_2 by done.
      split; [|done]. apply elem_of_app. right. by left.
    + rewrite bool_decide_eq_false_2 by done.
      destruct IH as [[H0 Hno] | (k' & s' & Hin & Hp' & Hk')].
      * left. split; [done|]. intros k' s' [Hin | Hin]%elem_of_app.
        -- by eapply Hno.
        -- apply list_elem_of_singleton in Hin as [= -> ->]. done.
      * right. exists k', s'. split; [|done]. apply elem_of_app. by left.
Qed.

(** With disjoint regions under distinct non-zero ids, a grid that holds
    the last owner is consistent in the specification's sense. *)
Lemma last_owner_consistent c :
  grid_last_owner c →
  NoDup (dict_keys (segmentations c)) →
  regions_disjoint (segmentations c) →
  ids_nonzero (segmentations c) →
  grid_region_consistent c.
Proof.
  intros [_ Hg] Hnd Hdis Hnz x y Hin. rewrite (Hg x y Hin).
  destruct (last_owner_cases (segmentations c) (x, y))
    as [[H0 Hno] | (k & s & Hks & Hp & Hk)].
  - rewrite H0. split.
    + intros id s His. split.
      * intros <-. by destruct (Hnz 0 s).
      * intros Hp. by destruct (Hno id s His).
    + split; [by intros _ | done].
  - rewrite Hk. split.
    + intros id s' His. split.
      * intros <-. pose proof (elem_dict_get _ _ _ Hnd Hks) as E1.
        pose proof (elem_dict_get _ _ _ Hnd His) as E2.
        rewrite E1 in E2. by injection E2 as <-.
      * intros Hp'. by eapply Hdis.
    + split.
      * intros ->. by destruct (Hnz 0 s).
      * intros Hno. by destruct (Hno k s Hks).
Qed.

Lemma grid_last_owner_blank w h : grid_last_owner (create_blank_mask w h).
Proof. split; [by intros labels | done]. Qed.

Lemma create_extracted_same items : ∀ c,
  same_labels c (foldl create_extracted c items).
Proof.
  induction items as [|[col pix] items IH]; intros c; cbn [foldl]; [done|].
  destruct (IH (create_extracted c (col, pix))) as (Hw & Hh & Hp).
  by split; [|split].
Qed.

Lemma last_owner_compute_borders c segs p :
  last_owner
    (map (λ '(k, segmentation),
            (k, compute_segmentation_borders c segmentation)) segs) p
  = last_owner segs p.
Proof.
  unfold last_owner. generalize 0.
  induction segs as [|[k s] segs IH]; intros l; [done|].
  cbn [map foldl]. apply IH.
Qed.

Lemma grid_last_owner_load_mask w h mask :
  grid_last_owner (load_mask w h mask).
Proof.
  unfold load_mask, extract_segmentations_from_mask. cbv zeta.
  match goal with
  | |- context [update_pixel_labels ?c0] => set (c1 := c0)
  end.
  assert (Hs : labels_shaped c1).
  { intros labels Hl. subst c1.
    match type of Hl with
    | pixel_labels (foldl _ ?c0 ?l) = _ =>
        destruct (create_extracted_same l c0) as (_ & _ & Hp)
    end.
    rewrite Hp in Hl. done. }
  destruct (grid_last_owner_update c1 Hs) as [Hsh Hg].
  split; [done|]. intros x y Hin.
  cbn [set_segmentations pixel_labels segmentations].
  rewrite last_owner_compute_borders. by apply Hg.
Qed.

(** Case analysis on membership in a list that is written out. *)
Ltac list_cases :=
  repeat match goal with
  | H : _ ∈ [] |- _ => by apply elem_of_nil in H
  | H : _ ∈ _ :: _ |- _ => apply elem_of_cons in H as [H | H]
  | H : (_, _) = (_, _) |- _ => injection H as ??; subst
  end.

Lemma store_dark_canvas :
  segmentations dark_canvas
  = [(1, {| seg_id := 1; seg_color := (5, 5, 5); pixels := [(0, 0)];
            border_pixels := [(0, 0)] |});
     (2, {| seg_id := 2; seg_color := (50, 50, 50); pixels := [(1, 0)];
            border_pixels := [(1, 0)] |})].
Proof. vm_compute. reflexivity. Qed.

Lemma dark_canvas_consistent : grid_region_consistent dark_canvas.
Proof.
  apply last_owner_consistent.
  - apply grid_last_owner_load_mask.
  - by apply (bool_decide_unpack _).
  - rewrite store_dark_canvas. intros id1 s1 id2 s2 p H1 H2 Hp1 Hp2.
    list_cases; simpl in *; list_cases; congruence.
  - rewrite store_dark_canvas. intros id s H. list_cases; done.
Qed.

(** C1, as stated, fails.  [dark_canvas], the canvas after loading a mask
    with a very dark pixel, is consistent; a flood fill at that pixel adds
    region 3 over the pixel of region 1, the grid then holds 3 there, and
    the pixel is still in the pixel list of the stored region 1. *)
Lemma fill_breaks_grid_consistency :
  grid_region_consistent dark_canvas
  ∧ ¬ grid_region_consistent
        (step dot_painter (FloodFill (40, 50, 60) 0 0) dark_canvas).
Proof.
  split; [apply dark_canvas_consistent|].
  set (c' := step dot_painter (FloodFill (40, 50, 60) 0 0) dark_canvas).
  intros H.
  assert (Hin : in_grid c' 0 0) by (unfold in_grid; vm_compute; done).
  destruct (H 0 0 Hin) as [H1 _].
  destruct (H1 1 {| seg_id := 1; seg_color := (5, 5, 5); pixels := [(0, 0)];
                    border_pixels := [(0, 0)] |}) as [_ Hlabel].
  { vm_compute. by left. }
  assert (Hl : get_pixel_label (pixel_labels c') 0 0 = 1).
  { apply Hlabel. by left. }
  vm_compute in Hl. discriminate Hl.
Qed.

(** The invariant holds of every canvas reached from a blank or a loaded
    mask. *)
Lemma grid_last_owner_run qp actions : ∀ c,
  grid_last_owner c → grid_last_owner (run qp actions c).
Proof.
  unfold run. induction actions as [|a actions IH]; intros c Hg; [done|].
  cbn [foldl]. by apply IH, grid_last_owner_step.
Qed.

(** C1, amended.  Call the grid up to date ([grid_last_owner]) when it has
    the shape of the image and holds, at every pixel of the image, the id
    of the last region, in the store's insertion order, whose pixel list
    has the pixel, and 0 when no stored region has it.  If the grid is up
    to date before a core operation, it is up to date after it; and when,
    after the operation, no pixel belongs to two stored regions and the
    ids are distinct and not 0, that is the consistency the specification
    states: the grid holds an id at a pixel if and only if the pixel is in
    the pixel list of the stored region with that id, and 0 if and only if
    no stored region owns it.  The grid is up to date on a blank mask, on a
    mask loaded without a label array, and on every canvas reached from
    these by core operations.  Nothing is stated of a canvas loaded with a
    label array, which the loader takes as the grid whatever its shape and
    its labels: see [stale_grid_after_label_load]. *)
Theorem grid_consistency_after_step qp a c :
  (grid_last_owner c →
   let c' := step qp a c in
   grid_last_owner c'
   ∧ (NoDup (dict_keys (segmentations c')) →
      regions_disjoint (segmentations c') →
      ids_nonzero (segmentations c') →
      grid_region_consistent c'))
  ∧ (∀ w h mask actions,
       grid_last_owner (run qp actions (create_blank_mask w h))
       ∧ grid_last_owner (run qp actions (load_mask w h mask))).
Proof.
  split.
  - intros Hg c'.
    assert (Hg' : grid_last_owner c') by by apply grid_last_owner_step.
    split; [done|]. intros Hnd Hdis Hnz. by apply last_owner_consistent.
  - intros w h mask actions. split; apply grid_last_owner_run.
    + apply grid_last_owner_blank.
    + apply grid_last_owner_load_mask.
Qed.

Lemma grid_consistency_after_step_witness :
  let c' := step dot_painter (FloodFill (40, 50, 60) 0 0)
              (create_blank_mask 2 2) in
  grid_last_owner c'
  ∧ (NoDup (dict_keys (segmentations c')) →
     regions_disjoint (segmentations c') →
     ids_nonzero (segmentations c') →
     grid_region_consistent c').
Proof.
  apply (proj1 (grid_consistency_after_step dot_painter
                  (FloodFill (40, 50, 60) 0 0) (create_blank_mask 2 2))).
  split; [intros labels H; discriminate H | intros x y _; reflexivity].
Defined.

(** The premise of the amended C1 can fail after a load with a label
    array.  On a 2 by 1 image loaded with a label array of one cell the
    grid keeps that shape, so it is not up to date; a fill of the two
    black pixels stores them as region 2, and the grid, rebuilt within
    the bounds of the old one, reads 0 at (1, 0), whose last owner is
    region 2. *)
Example stale_grid_after_label_load :
  let c := short_grid_canvas in
  let c' := step dot_painter (FloodFill (40, 50, 60) 1 0) c in
  pixel_labels c = Some [[1]]
  ∧ map (λ ks : Z * Segmentation, (ks.1, pixels ks.2)) (segmentations c')
    = [(1, [(0, 0)]); (2, [(1, 0); (0, 0)])]
  ∧ pixel_labels c' = Some [[2]]
  ∧ get_pixel_label (pixel_labels c') 1 0 = 0
  ∧ last_owner (segmentations c') (1, 0) = 2
  ∧ ¬ grid_last_owner c.
Proof.
  cbv zeta. repeat split; try (vm_compute; reflexivity).
  intros [Hshape _].
  destruct (Hshape [[1]] eq_refl) as [_ Hrows].
  apply Forall_cons in Hrows as [Hrow _]. vm_compute in Hrow.
  discriminate Hrow.
Qed.

(** ** Undo and redo: what each entry does *)

Lemma get_pixel_label_out c x y :
  labels_shaped c → ¬ in_grid c x y →
  get_pixel_label (pixel_labels c) x y = 0.
Proof.
  intros Hs Hout. destruct (pixel_labels c) as [labels|] eqn:E; [|done].
  by eapply get_pixel_label_outside; [apply Hs|].
Qed.

(** Two grids that hold the last owner agree when the last owners do. *)
Lemma grid_eq_last_owner c1 c2 :
  grid_last_owner c1 → grid_last_owner c2 →
  original_width c1 = original_width c2 →
  original_height c1 = original_height c2 →
  (∀ p, last_owner (segmentations c1) p = last_owner (segmentations c2) p) →
  grid_eq c1 c2.
Proof.
  intros [Hs1 Hg1] [Hs2 Hg2] Hw Hh Hown x y.
  destruct (decide (in_grid c1 x y)) as [Hin | Hout].
  - rewrite Hg1 by done. rewrite Hg2; [done|].
    unfold in_grid in *. by rewrite <- Hw, <- Hh.
  - rewrite get_pixel_label_out by done.
    rewrite get_pixel_label_out; [done..|].
    unfold in_grid in *. by rewrite <- Hw, <- Hh.
Qed.

Lemma undo_top_segmentation qp c data rest m removed :
  undo_stack c = OpSegmentation data :: rest →
  max_key (segmentations c) = Some m →
  dict_get m (segmentations c) = Some removed →
  ∃ c', undo_last_operation qp c = update_pixel_labels c'
        ∧ same_labels c c'
        ∧ segmentations c' = dict_del m (segmentations c)
        ∧ undo_stack c' = rest
        ∧ redo_stack c' = OpSegmentation data :: redo_stack c.
Proof.
  intros Hstack Hmax Hget. unfold undo_last_operation. rewrite Hstack.
  cbn [set_stacks segmentations]. rewrite Hmax, Hget. by eexists.
Qed.

Lemma undo_top_drawing qp c data rest :
  undo_stack c = OpDrawing data :: rest →
  drawings c ≠ [] →
  ∃ c', undo_last_operation qp c = update_pixel_labels c'
        ∧ same_labels c c'
        ∧ segmentations c' = segmentations c
        ∧ undo_stack c' = rest
        ∧ redo_stack c' = OpDrawing data :: redo_stack c.
Proof.
  intros Hstack Hne. unfold undo_last_operation. rewrite Hstack.
  cbn [set_stacks drawings].
  destruct (max_key_is_Some _ Hne) as [m Hm]. rewrite Hm.
  destruct (max_key_get _ _ Hm) as [removed ->]. by eexists.
Qed.

Lemma undo_top_merge qp c olds new rest :
  undo_stack c = OpMerge olds new :: rest →
  ∃ c', undo_last_operation qp c = update_pixel_labels c'
        ∧ same_labels c c'
        ∧ segmentations c'
          = foldl (λ d segmentation,
                     dict_set (seg_id segmentation) segmentation d)
                  (dict_del (seg_id new) (segmentations c)) olds
        ∧ undo_stack c' = rest
        ∧ redo_stack c' = OpMerge olds new :: redo_stack c.
Proof.
  intros Hstack. unfold undo_last_operation. rewrite Hstack. by eexists.
Qed.

Lemma redo_top_segmentation qp c data rest :
  redo_stack c = OpSegmentation data :: rest →
  ∃ c', redo_last_operation qp c = update_pixel_labels c'
        ∧ same_labels c c'
        ∧ segmentations c' = dict_set (seg_id data) data (segmentations c).
Proof.
  intros Hstack. unfold redo_last_operation. rewrite Hstack. by eexists.
Qed.

Lemma redo_top_drawing qp c data rest :
  redo_stack c = OpDrawing data :: rest →
  ∃ c', redo_last_operation qp c = update_pixel_labels c'
        ∧ same_labels c c'
        ∧ segmentations c' = segmentations c.
Proof.
  intros Hstack. unfold redo_last_operation. rewrite Hstack. by eexists.
Qed.

Lemma redo_top_merge qp c olds new rest :
  redo_stack c = OpMerge olds new :: rest →
  ∃ c', redo_last_operation qp c = update_pixel_labels c'
        ∧ same_labels c c'
        ∧ segmentations c'
          = dict_set (seg_id new) new
              (foldl (λ d segmentation, dict_del (seg_id segmentation) d)
                     (segmentations c) olds).
Proof.
  intros Hstack. unfold redo_last_operation. rewrite Hstack. by eexists.
Qed.

(** ** Undo and redo after a flood fill *)

Lemma dims_undo qp c :
  original_width (undo_last_operation qp c) = original_width c
  ∧ original_height (undo_last_operation qp c) = original_height c.
Proof.
  destruct (decide (undo_stack c = [])) as [He | Hne].
  - unfold undo_last_operation. by rewrite He.
  - by destruct (undo_ends_in_update qp c Hne) as (c1 & -> & Hw & Hh & _).
Qed.

Lemma dims_redo qp c :
  original_width (redo_last_operation qp c) = original_width c
  ∧ original_height (redo_last_operation qp c) = original_height c.
Proof.
  destruct (decide (redo_stack c = [])) as [He | Hne].
  - unfold redo_last_operation. by rewrite He.
  - by destruct (redo_ends_in_update qp c Hne) as (c1 & -> & Hw & Hh & _).
Qed.

Lemma store_eq_same_store c1 c2 :
  segmentations c1 = segmentations c2 → store_eq c1 c2.
Proof. intros H id. by rewrite H. Qed.

(** Same store and same image size: same grid, once both grids hold the
    last owner. *)
Lemma grid_eq_same_store c1 c2 :
  grid_last_owner c1 → grid_last_owner c2 →
  original_width c1 = original_width c2 →
  original_height c1 = original_height c2 →
  segmentations c1 = segmentations c2 →
  grid_eq c1 c2.
Proof.
  intros Hg1 Hg2 Hw Hh Hs. apply grid_eq_last_owner; try done.
  intros p. by rewrite Hs.
Qed.

Lemma recorded_flood_fill qp random_color x y c :
  recorded qp (FloodFill random_color x y) c →
  is_pixel_black (mask_pixmap c) x y = true.
Proof.
  unfold recorded. simpl. unfold flood_fill_at_position.
  destruct (is_pixel_black (mask_pixmap c) x y); [done | lia].
Qed.

Lemma undo_redo_flood_fill qp random_color x y c :
  recorded qp (FloodFill random_color x y) c →
  store_wf c → grid_last_owner c →
  undo_redo_law qp (FloodFill random_color x y) c.
Proof.
  intros Hrec Hwf Hg. apply recorded_flood_fill in Hrec.
  pose proof (grid_last_owner_step qp (FloodFill random_color x y) c Hg)
    as Hg1.
  unfold undo_redo_law. cbv zeta. simpl step in *.
  destruct (flood_fill_at_position_black random_color x y c Hrec)
    as (image & filled & _ & _ & Heq). cbv zeta in Heq.
  set (seg := compute_segmentation_borders c _) in Heq.
  set (c1 := flood_fill_at_position random_color x y c) in *.
  pose proof (next_seg_id_fresh c Hwf) as Hfresh.
  assert (Hs1 : segmentations c1 = segmentations c ++ [(next_seg_id c, seg)]).
  { rewrite Heq. simpl. by apply dict_set_fresh. }
  assert (Hu1 : undo_stack c1 = OpSegmentation seg :: undo_stack c)
    by by rewrite Heq.
  assert (Hr1 : redo_stack c1 = []) by by rewrite Heq.
  assert (Hd1 : original_width c1 = original_width c
                ∧ original_height c1 = original_height c)
    by by rewrite Heq.
  assert (Hmax : max_key (segmentations c1) = Some (next_seg_id c)).
  { rewrite Hs1. apply max_key_fresh. intros k Hk.
    unfold dict_keys in Hk. apply list_elem_of_fmap in Hk as ([k' s] & -> & Hin).
    apply (proj1 (Forall_forall _ _) (wf_fresh _ Hwf) _ Hin). }
  assert (Hget : dict_get (next_seg_id c) (segmentations c1) = Some seg).
  { rewrite Heq. simpl. apply dict_get_set_eq. }
  destruct (undo_top_segmentation qp c1 seg (undo_stack c) _ _ Hu1 Hmax Hget)
    as (c2' & Hundo & _ & Hs2 & Hu2 & Hr2).
  rewrite Hs1, dict_del_snoc, dict_del_fresh in Hs2 by done.
  pose proof (grid_last_owner_undo qp c1 Hg1) as Hg2.
  pose proof (dims_undo qp c1) as Hd2.
  set (c2 := undo_last_operation qp c1) in *.
  assert (Hs2' : segmentations c2 = segmentations c) by by rewrite Hundo.
  assert (Hr2' : redo_stack c2 = [OpSegmentation seg])
    by by rewrite Hundo; simpl; rewrite Hr2, Hr1.
  destruct (redo_top_segmentation qp c2 seg [] Hr2') as (c3' & Hredo & _ & Hs3).
  pose proof (grid_last_owner_redo qp c2 Hg2) as Hg3.
  pose proof (dims_redo qp c2) as Hd3.
  set (c3 := redo_last_operation qp c2) in *.
  assert (Hs3' : segmentations c3 = segmentations c1).
  { rewrite Hredo. simpl. rewrite Hs3, Hs2', Hs1. by apply dict_set_fresh. }
  destruct Hd1, Hd2, Hd3.
  split; [by apply store_eq_same_store|].
  split; [apply grid_eq_same_store; congruence|].
  split; [by apply store_eq_same_store|].
  apply grid_eq_same_store; congruence.
Qed.

(** ** Undo and redo after a stroke *)

Lemma set_mask_pixmap_id c : set_mask_pixmap c (mask_pixmap c) = c.
Proof. by destruct c. Qed.

(** Dragging the pen changes nothing but the mask. *)
Lemma stroke_moves_mask qp remove pen moves : ∀ c d last,
  ∃ m,
    (foldl (λ '(c, current_drawing, last_pos) pos,
              let '(c, current_drawing) :=
                draw_line qp remove pen c current_drawing last_pos pos in
              (c, current_drawing, pos))
           (c, d, last) moves).1.1
    = set_mask_pixmap c m.
Proof.
  induction moves as [|pos moves IH]; intros c d last; cbn [foldl].
  - exists (mask_pixmap c). simpl. by rewrite set_mask_pixmap_id.
  - unfold draw_line at 2.
    destruct (IH (set_mask_pixmap c
                    (drawLine qp (pen_color remove) pen (mask_pixmap c)
                       last pos))
                 {| draw_id := draw_id d;
                    draw_pixels := draw_pixels d ++ [last; pos];
                    thickness := thickness d |} pos) as [m Hm].
    exists m. by rewrite Hm.
Qed.

(** A stroke either records nothing and changes only the mask and the
    drawing counter, or also files one drawing and pushes its entry. *)
Lemma stroke_cases qp remove pen p0 moves c :
  ∃ m d,
    let c0 := set_mask_pixmap (set_next_draw_id c (next_draw_id c + 1)) m in
    stroke qp remove pen p0 moves c = c0
    ∨ stroke qp remove pen p0 moves c
      = push_to_undo_stack
          (set_drawings c0 (dict_set (draw_id d) d (drawings c)))
          (OpDrawing d).
Proof.
  unfold stroke.
  destruct (stroke_moves_mask qp remove pen moves
    (draw_at_position qp remove pen
       (set_next_draw_id c (next_draw_id c + 1)) p0)
    {| draw_id := next_draw_id c; draw_pixels := []; thickness := pen |} p0)
    as [m Hm].
  destruct (foldl _ _ moves) as [[c' d'] last']. simpl in Hm. subst c'.
  exists m, d'. cbv zeta.
  destruct (0 <? length (draw_pixels d'))%nat; [by right | by left].
Qed.

Lemma undo_redo_stroke qp pen p0 moves c :
  recorded qp (Stroke pen p0 moves) c →
  grid_last_owner c →
  undo_redo_law qp (Stroke pen p0 moves) c.
Proof.
  intros Hrec Hg.
  pose proof (grid_last_owner_step qp (Stroke pen p0 moves) c Hg) as Hg1.
  unfold undo_redo_law, recorded in *. cbv zeta. simpl step in *.
  destruct (stroke_cases qp false pen p0 moves c) as (m & d & [Heq | Heq]);
    cbv zeta in Heq.
  { rewrite Heq in Hrec. simpl in Hrec. lia. }
  set (c1 := stroke qp false pen p0 moves c) in *.
  assert (Hs1 : segmentations c1 = segmentations c) by by rewrite Heq.
  assert (Hu1 : undo_stack c1 = OpDrawing d :: undo_stack c) by by rewrite Heq.
  assert (Hr1 : redo_stack c1 = []) by by rewrite Heq.
  assert (Hd1 : original_width c1 = original_width c
                ∧ original_height c1 = original_height c)
    by by rewrite Heq.
  assert (Hdr : drawings c1 ≠ []).
  { rewrite Heq. simpl. by destruct (drawings c) as [|[k v] l]; simpl;
      [|destruct (decide _)]. }
  destruct (undo_top_drawing qp c1 d (undo_stack c) Hu1 Hdr)
    as (c2' & Hundo & _ & Hs2 & Hu2 & Hr2).
  pose proof (grid_last_owner_undo qp c1 Hg1) as Hg2.
  pose proof (dims_undo qp c1) as Hd2.
  set (c2 := undo_last_operation qp c1) in *.
  assert (Hs2' : segmentations c2 = segmentations c1) by by rewrite Hundo.
  assert (Hr2' : redo_stack c2 = [OpDrawing d])
    by by rewrite Hundo; simpl; rewrite Hr2, Hr1.
  destruct (redo_top_drawing qp c2 d [] Hr2') as (c3' & Hredo & _ & Hs3).
  pose proof (grid_last_owner_redo qp c2 Hg2) as Hg3.
  pose proof (dims_redo qp c2) as Hd3.
  set (c3 := redo_last_operation qp c2) in *.
  assert (Hs3' : segmentations c3 = segmentations c2) by by rewrite Hredo.
  destruct Hd1, Hd2, Hd3.
  split; [apply store_eq_same_store; congruence|].
  split; [apply grid_eq_same_store; congruence|].
  split; [apply store_eq_same_store; congruence|].
  apply grid_eq_same_store; congruence.
Qed.

(** ** Undo and redo after a merge *)

Lemma dict_get_keyed segs id (s : Segmentation) :
  Forall (λ ks, seg_id ks.2 = ks.1) segs →
  dict_get id segs = Some s → seg_id s = id.
Proof.
  intros Hk Hget. apply dict_get_Some_elem in Hget.
  apply (proj1 (Forall_forall _ _) Hk _ Hget).
Qed.

Lemma elem_of_selected_segmentations c s :
  s ∈ get_selected_segmentations c ↔
  ∃ id, id ∈ selected_segmentations c
        ∧ dict_get id (segmentations c) = Some s.
Proof. unfold get_selected_segmentations. apply list_elem_of_omap. Qed.

(** The selected regions that are in the store have distinct ids. *)
Lemma NoDup_selected_ids c :
  store_wf c → NoDup (map seg_id (get_selected_segmentations c)).
Proof.
  intros Hwf. unfold get_selected_segmentations.
  pose proof (wf_selected _ Hwf) as Hnd. pose proof (wf_keyed _ Hwf) as Hk.
  induction Hnd as [|id sel Hid Hnd IH]; simpl; [constructor|].
  destruct (dict_get id (segmentations c)) as [s|] eqn:Hget; [|done].
  simpl. constructor; [|done].
  intros Hin. apply list_elem_of_fmap in Hin as (s' & Heq & Hs').
  apply list_elem_of_omap in Hs' as (id' & Hid' & Hget').
  apply (dict_get_keyed _ _ _ Hk) in Hget, Hget'. congruence.
Qed.

Lemma foldl_dict_set_fresh (olds : list Segmentation) : ∀ D,
  NoDup (map seg_id olds) →
  (∀ s, s ∈ olds → seg_id s ∉ dict_keys D) →
  foldl (λ d segmentation, dict_set (seg_id segmentation) segmentation d)
        D olds
  = D ++ map (λ s, (seg_id s, s)) olds.
Proof.
  induction olds as [|s olds IH]; intros D Hnd Hfresh; simpl.
  - by rewrite app_nil_r.
  - apply NoDup_cons in Hnd as [Hs Hnd].
    rewrite dict_set_fresh by (apply Hfresh; by left).
    rewrite IH; [by rewrite <- app_assoc | done |].
    intros s' Hs'. unfold dict_keys. rewrite map_app, elem_of_app.
    intros [Hin | Hin%list_elem_of_singleton].
    + by apply (Hfresh s'); [right|].
    + apply Hs. simpl in Hin. rewrite <- Hin.
      apply list_elem_of_fmap. by exists s'.
Qed.

Lemma foldl_dict_del_segs (olds : list Segmentation) :
  ∀ d : list (Z * Segmentation),
  foldl (λ d segmentation, dict_del (seg_id segmentation) d) d olds
  = filter (λ kv, kv.1 ∉ map seg_id olds) d.
Proof.
  induction olds as [|s olds IH]; intros d; simpl.
  - symmetry. apply filter_all. intros kv _ H. by apply elem_of_nil in H.
  - rewrite IH. unfold dict_del. rewrite list_filter_filter.
    apply list_filter_iff. intros [k' v']. simpl.
    rewrite not_elem_of_cons. tauto.
Qed.

(** The last owner depends on the regions, not on their order, when no
    pixel has two owners. *)
Lemma last_owner_same_entries l1 l2 p :
  (∀ k s, (k, s) ∈ l1 ↔ (k, s) ∈ l2) →
  regions_disjoint l1 →
  last_owner l1 p = last_owner l2 p.
Proof.
  intros Hmem Hdis.
  destruct (last_owner_cases l1 p) as [[H1 Hno1] | (k1 & s1 & Hin1 & Hp1 & H1)],
    (last_owner_cases l2 p) as [[H2 Hno2] | (k2 & s2 & Hin2 & Hp2 & H2)].
  - congruence.
  - apply Hmem in Hin2. by destruct (Hno1 k2 s2 Hin2).
  - apply Hmem in Hin1. by destruct (Hno2 k1 s1 Hin1).
  - apply Hmem in Hin2. rewrite H1, H2. by eapply Hdis.
Qed.

Lemma dict_get_same_entries {V} (l1 l2 : list (Z * V)) id :
  NoDup (dict_keys l1) → NoDup (dict_keys l2) →
  (∀ k s, (k, s) ∈ l1 ↔ (k, s) ∈ l2) →
  dict_get id l1 = dict_get id l2.
Proof.
  intros Hnd1 Hnd2 Hmem.
  destruct (dict_get id l1) as [v|] eqn:E1.
  - apply dict_get_Some_elem, Hmem in E1. symmetry. by apply elem_dict_get.
  - destruct (dict_get id l2) as [v|] eqn:E2; [|done].
    apply dict_get_Some_elem, Hmem in E2.
    apply elem_dict_get in E2; [congruence | done].
Qed.

Lemma filter_none {A} (P : A → Prop) `{∀ x, Decision (P x)} (l : list A) :
  (∀ x, x ∈ l → ¬ P x) → filter P l = [].
Proof.
  induction l as [|x l IH]; intros Hnone; [done|].
  rewrite filter_cons_False by (apply Hnone; by left).
  apply IH. intros y Hy. apply Hnone. by right.
Qed.

Lemma NoDup_foldl_dict_set (olds : list Segmentation) : ∀ D,
  NoDup (dict_keys D) →
  NoDup (dict_keys
           (foldl (λ d segmentation,
                     dict_set (seg_id segmentation) segmentation d) D olds)).
Proof.
  induction olds as [|s olds IH]; intros D Hnd; simpl; [done|].
  by apply IH, NoDup_dict_keys_set.
Qed.

Lemma NoDup_dict_keys_filter {V} (P : Z * V → Prop) `{∀ x, Decision (P x)}
    (d : list (Z * V)) :
  NoDup (dict_keys d) → NoDup (dict_keys (filter P d)).
Proof.
  unfold dict_keys. induction d as [|[k v] d IH]; [done|].
  simpl. intros [Hk Hnd]%NoDup_cons. rewrite filter_cons.
  destruct (decide (P (k, v))); [|by apply IH].
  simpl. apply NoDup_cons. split; [|by apply IH].
  intros Hin. apply Hk. apply list_elem_of_fmap in Hin as (kv & -> & Hin).
  apply list_elem_of_filter in Hin as [_ Hin].
  apply list_elem_of_fmap. by exists kv.
Qed.

Lemma recorded_merge qp new_color c :
  recorded qp (Merge new_color) c →
  (2 ≤ length (selected_segmentations c))%nat
  ∧ concat (map pixels (get_selected_segmentations c)) ≠ [].
Proof.
  unfold recorded. simpl. intros Hrec.
  destruct (Nat.ltb_spec (length (selected_segmentations c)) 2) as [Hlt | Hge].
  { rewrite merge_refused in Hrec by done. lia. }
  split; [done|]. intros Hnil. unfold merge_selected_segmentations in Hrec.
  destruct (Nat.ltb_spec (length (selected_segmentations c)) 2); [lia|].
  rewrite Hnil in Hrec. lia.
Qed.

(** After the undo of a merge the store holds the regions it held before
    the merge: those that were not selected, in their order, followed by
    the merged ones. *)
Lemma restored_entries c k s :
  store_wf c →
  (k, s) ∈ filter (λ kv, kv.1 ∉ selected_segmentations c) (segmentations c)
           ++ map (λ s, (seg_id s, s)) (get_selected_segmentations c)
  ↔ (k, s) ∈ segmentations c.
Proof.
  intros Hwf. pose proof (wf_keyed _ Hwf) as Hk.
  rewrite elem_of_app, list_elem_of_filter, list_elem_of_fmap. split.
  - intros [[_ Hin] | (s' & [= -> ->] & Hs')]; [done|].
    apply elem_of_selected_segmentations in Hs' as (id & _ & Hget).
    rewrite (dict_get_keyed _ _ _ Hk Hget). by apply dict_get_Some_elem.
  - intros Hin. destruct (decide (k ∈ selected_segmentations c)) as [Hsel | Hsel].
    + right. exists s.
      pose proof (elem_dict_get _ _ _ (wf_keys _ Hwf) Hin) as Hget.
      rewrite (dict_get_keyed _ _ _ Hk Hget). split; [done|].
      apply elem_of_selected_segmentations. eauto.
    + by left.
Qed.

Lemma undo_redo_merge qp new_color c :
  recorded qp (Merge new_color) c →
  store_wf c → grid_last_owner c →
  regions_disjoint (segmentations c) →
  undo_redo_law qp (Merge new_color) c.
Proof.
  intros Hrec Hwf Hg Hdis. apply recorded_merge in Hrec as [Hlen Hpix].
  pose proof (grid_last_owner_step qp (Merge new_color) c Hg) as Hg1.
  pose proof (merge_effective new_color c Hlen Hpix) as Heq. cbv zeta in Heq.
  unfold undo_redo_law. cbv zeta. simpl step in *.
  set (c1 := merge_selected_segmentations new_color c) in *.
  set (olds := get_selected_segmentations c) in *.
  set (merged := merged_segmentation new_color c) in *.
  set (D := filter (λ kv, kv.1 ∉ selected_segmentations c) (segmentations c)).
  pose proof (wf_keyed _ Hwf) as Hkeyed.
  pose proof (next_seg_id_fresh c Hwf) as Hfresh.
  assert (HD : ∀ k, k ∈ dict_keys D →
                 (k ∉ selected_segmentations c)
                 ∧ k ∈ dict_keys (segmentations c)).
  { intros k Hk. unfold dict_keys in Hk.
    apply list_elem_of_fmap in Hk as ([k' s] & -> & Hin).
    apply list_elem_of_filter in Hin as [Hsel Hin]. split; [done|].
    unfold dict_keys. apply list_elem_of_fmap. by exists (k', s). }
  assert (Hold : ∀ s, s ∈ olds → seg_id s ∈ selected_segmentations c).
  { intros s (id & Hid & Hget)%elem_of_selected_segmentations.
    by rewrite (dict_get_keyed _ _ _ Hkeyed Hget). }
  assert (HnD : next_seg_id c ∉ dict_keys D).
  { intros Hin. by apply HD in Hin as [_ Hin]. }
  assert (Hs1 : segmentations c1 = D ++ [(next_seg_id c, merged)]).
  { rewrite Heq. simpl. rewrite foldl_dict_del. by apply dict_set_fresh. }
  assert (Hu1 : undo_stack c1 = OpMerge olds merged :: undo_stack c)
    by by rewrite Heq.
  assert (Hr1 : redo_stack c1 = []) by by rewrite Heq.
  assert (Hd1 : original_width c1 = original_width c
                ∧ original_height c1 = original_height c)
    by by rewrite Heq.
  destruct (undo_top_merge qp c1 olds merged (undo_stack c) Hu1)
    as (c2' & Hundo & _ & Hs2 & Hu2 & Hr2).
  change (seg_id merged) with (next_seg_id c) in Hs2.
  rewrite Hs1, dict_del_snoc, dict_del_fresh in Hs2 by done.
  rewrite foldl_dict_set_fresh in Hs2.
  2: { by apply NoDup_selected_ids. }
  2: { intros s Hs Hin. apply HD in Hin as [Hin _]. by apply Hin, Hold. }
  pose proof (grid_last_owner_undo qp c1 Hg1) as Hg2.
  pose proof (dims_undo qp c1) as Hd2.
  set (c2 := undo_last_operation qp c1) in *.
  assert (Hs2' : segmentations c2
                 = D ++ map (λ s, (seg_id s, s)) olds) by by rewrite Hundo.
  assert (Hr2' : redo_stack c2 = [OpMerge olds merged])
    by by rewrite Hundo; simpl; rewrite Hr2, Hr1.
  assert (Hmem : ∀ k s, (k, s) ∈ segmentations c2 ↔ (k, s) ∈ segmentations c).
  { intros k s. rewrite Hs2'. by apply restored_entries. }
  assert (Hnd2 : NoDup (dict_keys (segmentations c2))).
  { rewrite Hs2', <- foldl_dict_set_fresh.
    - apply NoDup_foldl_dict_set, NoDup_dict_keys_filter, Hwf.
    - by apply NoDup_selected_ids.
    - intros s Hs Hin. apply HD in Hin as [Hin _]. by apply Hin, Hold. }
  destruct (redo_top_merge qp c2 olds merged [] Hr2') as (c3' & Hredo & _ & Hs3).
  change (seg_id merged) with (next_seg_id c) in Hs3.
  pose proof (grid_last_owner_redo qp c2 Hg2) as Hg3.
  pose proof (dims_redo qp c2) as Hd3.
  set (c3 := redo_last_operation qp c2) in *.
  assert (Hs3' : segmentations c3 = segmentations c1).
  { rewrite Hredo. simpl. rewrite Hs3, Hs2', Hs1, foldl_dict_del_segs.
    rewrite filter_app, filter_all, filter_none, app_nil_r.
    - by apply dict_set_fresh.
    - intros kv (s & -> & Hs)%list_elem_of_fmap Hno. apply Hno. simpl.
      apply list_elem_of_fmap. by exists s.
    - intros [k s] Hin (s' & Hk & Hs')%list_elem_of_fmap. simpl in Hk.
      assert (Hkd : k ∈ dict_keys D).
      { unfold dict_keys. apply list_elem_of_fmap. by exists (k, s). }
      apply HD in Hkd as [Hsel _]. apply Hsel. rewrite Hk. by apply Hold. }
  destruct Hd1, Hd2, Hd3.
  split; [|split; [|split]].
  - intros id. apply dict_get_same_entries; [done | apply Hwf | done].
  - apply grid_eq_last_owner; try congruence.
    intros p. symmetry. apply last_owner_same_entries; [|done].
    intros k s. symmetry. apply Hmem.
  - by apply store_eq_same_store.
  - apply grid_eq_same_store; congruence.
Qed.

(** ** The undo/redo inverse law *)

(** C2, as stated, fails.  On [overlap_canvas], where region 3 lies over
    the pixel of region 1, the merge of regions 1 and 2 is recorded, and
    the undo puts regions 1 and 2 back after region 3 in the store: the
    grid then holds 1 where it held 3 before the merge.  And a stroke that
    is a single click records no entry, so the undo after it takes back
    the earlier fill of [filled_canvas] instead. *)
Lemma undo_redo_law_fails :
  (recorded dot_painter (Merge (70, 80, 90)) overlap_canvas
   ∧ ¬ undo_redo_law dot_painter (Merge (70, 80, 90)) overlap_canvas)
  ∧ (undo_stack (step dot_painter (Stroke 3 (0, 0) []) filled_canvas)
     = undo_stack filled_canvas
     ∧ ¬ undo_redo_law dot_painter (Stroke 3 (0, 0) []) filled_canvas).
Proof.
  split; split.
  - vm_compute. reflexivity.
  - intros (_ & Hgrid & _). specialize (Hgrid 0 0).
    vm_compute in Hgrid. discriminate Hgrid.
  - vm_compute. reflexivity.
  - intros (Hstore & _). specialize (Hstore 1).
    vm_compute in Hstore. discriminate Hstore.
Qed.

(** C2, amended.  Let an operation among flood fill, stroke and merge
    record a history entry, on a canvas whose store is well formed and
    whose grid holds the last owner of every pixel; for a merge, let no
    pixel belong to two stored regions.  Then [undo] right after the
    operation gives back the store, id for id, and the grid, pixel for
    pixel, that the operation started from, and [redo] right after that
    [undo] gives back the store and the grid the operation produced. *)
Theorem undo_redo_inverse qp a c :
  is_edit a →
  recorded qp a c →
  store_wf c →
  grid_last_owner c →
  (∀ new_color, a = Merge new_color → regions_disjoint (segmentations c)) →
  undo_redo_law qp a c.
Proof.
  intros Hedit Hrec Hwf Hg Hdis. destruct a; try done.
  - by apply undo_redo_flood_fill.
  - by apply undo_redo_stroke.
  - apply undo_redo_merge; try done. by eapply Hdis.
Qed.

Lemma grid_last_owner_dark_selected : grid_last_owner dark_selected.
Proof.
  apply (grid_last_owner_view dark_canvas); [done|].
  apply grid_last_owner_load_mask.
Qed.

Lemma undo_redo_inverse_witness :
  undo_redo_law dot_painter (Merge (70, 80, 90)) dark_selected.
Proof.
  apply (undo_redo_inverse dot_painter (Merge (70, 80, 90)) dark_selected).
  - exact I.
  - vm_compute. reflexivity.
  - apply store_wf_dark_selected.
  - apply grid_last_owner_dark_selected.
  - intros new_color _.
    change (segmentations dark_selected) with (segmentations dark_canvas).
    rewrite store_dark_canvas. intros id1 s1 id2 s2 p H1 H2 Hp1 Hp2.
    list_cases; simpl in *; list_cases; congruence.
Defined.

(** The scenario of the specification: a fill of the blank 2 by 2 canvas,
    undone and redone. *)
Example undo_redo_fill_2x2 :
  let c1 := step dot_painter (FloodFill (40, 50, 60) 0 0)
              (create_blank_mask 2 2) in
  let c2 := undo_last_operation dot_painter c1 in
  let c3 := redo_last_operation dot_painter c2 in
  segmentations c2 = []
  ∧ pixel_labels c2 = Some [[0; 0]; [0; 0]]
  ∧ length (redo_stack c2) = 1%nat
  ∧ segmentations c3 = segmentations c1
  ∧ pixel_labels c3 = Some [[1; 1]; [1; 1]].
Proof. repeat split; vm_compute; reflexivity. Qed.

(** ** The store invariant along the operations *)

Lemma store_wf_intro c :
  NoDup (dict_keys (segmentations c)) →
  Forall (entry_ok (next_seg_id c)) (segmentations c) →
  NoDup (selected_segmentations c) →
  store_wf c.
Proof.
  intros Hnd He Hsel. rewrite Forall_forall in He.
  split; try done; apply Forall_forall; intros ks Hin;
    destruct (He ks Hin) as (? & ? & ?); congruence.
Qed.

Lemma store_wf_entries c :
  store_wf c → Forall (entry_ok (next_seg_id c)) (segmentations c).
Proof.
  intros [_ Hk Hf Hp _]. rewrite Forall_forall in *. intros ks Hin.
  specialize (Hk ks Hin). specialize (Hf ks Hin). specialize (Hp ks Hin).
  repeat split; [done | simpl in *; lia | done].
Qed.

Lemma seg_ok_mono n m s : n ≤ m → seg_ok n s → seg_ok m s.
Proof. intros Hle [Hid Hp]. split; [lia | done]. Qed.

Lemma entry_ok_mono n m ks : n ≤ m → entry_ok n ks → entry_ok m ks.
Proof. intros Hle [Hk Hs]. split; [done | by eapply seg_ok_mono]. Qed.

Lemma op_ok_mono n m op : n ≤ m → op_ok n op → op_ok m op.
Proof.
  intros Hle. destruct op as [s | d | olds new]; simpl; [|done|].
  - by apply seg_ok_mono.
  - intros [Ho Hn]. split; [|by eapply seg_ok_mono].
    eapply Forall_impl; [done|]. intros s. by apply seg_ok_mono.
Qed.

Lemma Forall_dict_set {V} (P : Z * V → Prop) k v d :
  Forall P d → P (k, v) → Forall P (dict_set k v d).
Proof.
  intros Hd Hkv. induction Hd as [|[k' v'] d Hx Hd IH]; simpl.
  - by constructor.
  - destruct (decide (k = k')); by constructor.
Qed.

Lemma Forall_dict_del {V} (P : Z * V → Prop) k d :
  Forall P d → Forall P (dict_del k d).
Proof.
  rewrite !Forall_forall. intros Hd kv Hin. apply Hd.
  unfold dict_del in Hin. by apply list_elem_of_filter in Hin as [_ Hin].
Qed.

Lemma NoDup_set_add x s : NoDup s → NoDup (set_add x s).
Proof.
  intros Hnd. unfold set_add. destruct (decide (x ∈ s)); [done|].
  apply NoDup_app. split; [done|]. split; [|apply NoDup_singleton].
  by intros y Hy ->%list_elem_of_singleton.
Qed.

Lemma NoDup_set_discard x s : NoDup s → NoDup (set_discard x s).
Proof. intros Hnd. by apply NoDup_filter. Qed.

(** The part of the canvas the store invariant reads. *)
Lemma canvas_wf_view c c' :
  segmentations c' = segmentations c →
  next_seg_id c' = next_seg_id c →
  selected_segmentations c' = selected_segmentations c →
  undo_stack c' = undo_stack c →
  redo_stack c' = redo_stack c →
  canvas_wf c → canvas_wf c'.
Proof.
  intros Hs Hn Hsel Hu Hr ([Hk1 Hk2 Hk3 Hk4 Hk5] & Hundo & Hredo).
  split; [split|]; rewrite ?Hs, ?Hn, ?Hsel, ?Hu, ?Hr; done.
Qed.

Lemma canvas_wf_update c : canvas_wf c → canvas_wf (update_pixel_labels c).
Proof. by apply canvas_wf_view. Qed.

Lemma canvas_wf_flood_fill random_color x y c :
  canvas_wf c → canvas_wf (flood_fill_at_position random_color x y c).
Proof.
  intros (Hwf & Hundo & Hredo).
  destruct (is_pixel_black (mask_pixmap c) x y) eqn:Hb.
  2: { unfold flood_fill_at_position. by rewrite Hb. }
  destruct (flood_fill_at_position_black random_color x y c Hb)
    as (image & filled & _ & Hseed & ->). cbv zeta.
  apply canvas_wf_update.
  assert (Hseg : seg_ok (next_seg_id c + 1)
                   (compute_segmentation_borders c
                      {| seg_id := next_seg_id c; seg_color := random_color;
                         pixels := filled; border_pixels := [] |})).
  { split; simpl; [lia|]. intros ->. by apply elem_of_nil in Hseed. }
  split; [|split]; simpl.
  - apply store_wf_intro; simpl.
    + apply NoDup_dict_keys_set, Hwf.
    + apply Forall_dict_set; [|by split].
      eapply Forall_impl; [by apply store_wf_entries|].
      intros ks. apply entry_ok_mono. lia.
    + apply Hwf.
  - constructor; [done|]. eapply Forall_impl; [done|].
    intros op. apply op_ok_mono. lia.
  - constructor.
Qed.

Lemma canvas_wf_stroke qp remove pen p0 moves c :
  canvas_wf c → canvas_wf (stroke qp remove pen p0 moves c).
Proof.
  intros Hc. pose proof Hc as (Hwf & Hundo & Hredo).
  destruct (stroke_cases qp remove pen p0 moves c) as (m & d & [-> | ->]).
  - by apply (canvas_wf_view c).
  - split; [|split]; simpl.
    + by destruct Hwf.
    + by constructor.
    + constructor.
Qed.

Lemma canvas_wf_remove segmentation c :
  canvas_wf c → canvas_wf (remove_segmentation segmentation c).
Proof.
  intros (Hwf & _ & _). apply canvas_wf_update.
  split; [|split]; simpl; [|constructor..].
  apply store_wf_intro; simpl.
  - apply NoDup_dict_keys_del, Hwf.
  - by apply Forall_dict_del, store_wf_entries.
  - apply NoDup_set_discard, Hwf.
Qed.

Lemma canvas_wf_mouse_remove qp pen p0 moves c :
  canvas_wf c → canvas_wf (mouse_remove qp pen p0 moves c).
Proof.
  intros Hc. unfold mouse_remove.
  destruct (get_segmentation_at_pixel c p0.1 p0.2) as [s|];
    [|by apply canvas_wf_stroke].
  assert (Hc' : canvas_wf (update_pixel_labels (remove_segmentation s c)))
    by by apply canvas_wf_update, canvas_wf_remove.
  revert Hc'. generalize (update_pixel_labels (remove_segmentation s c)).
  induction moves as [|pos moves IH]; intros c' Hc'; cbn [foldl]; [done|].
  apply IH. unfold remove_at.
  destruct (get_segmentation_at_pixel c' pos.1 pos.2); [|done].
  by apply canvas_wf_update, canvas_wf_remove.
Qed.

Lemma canvas_wf_set_selected c sel :
  NoDup sel → canvas_wf c → canvas_wf (set_selected c sel).
Proof.
  intros Hnd ([Hk1 Hk2 Hk3 Hk4 Hk5] & Hundo & Hredo). by split; [split|].
Qed.

Lemma canvas_wf_select x y shift_pressed c :
  canvas_wf c → canvas_wf (select_region_at_position x y shift_pressed c).
Proof.
  intros Hc. pose proof Hc as (Hwf & _). unfold select_region_at_position.
  destruct (get_segmentation_at_pixel c x y) as [s|].
  - destruct shift_pressed, (bool_decide _); apply canvas_wf_set_selected;
      try done; first [ apply NoDup_set_discard, Hwf
                      | apply NoDup_set_add, Hwf
                      | apply NoDup_singleton ].
  - apply canvas_wf_set_selected; [constructor | done].
Qed.

Lemma canvas_wf_toggle seg_id checked c :
  canvas_wf c → canvas_wf (toggle_segmentation_selection seg_id checked c).
Proof.
  intros Hc. pose proof Hc as (Hwf & _).
  destruct checked; apply canvas_wf_set_selected; try done.
  - apply NoDup_set_add, Hwf.
  - apply NoDup_set_discard, Hwf.
Qed.

Lemma Forall_foldl_dict_del {V} (P : Z * V → Prop) (ks : list Z) d :
  Forall P d → Forall P (foldl (λ d k, dict_del k d) d ks).
Proof.
  revert d. induction ks as [|k ks IH]; intros d Hd; simpl; [done|].
  by apply IH, Forall_dict_del.
Qed.

Lemma NoDup_foldl_dict_del {V} (ks : list Z) (d : list (Z * V)) :
  NoDup (dict_keys d) → NoDup (dict_keys (foldl (λ d k, dict_del k d) d ks)).
Proof.
  revert d. induction ks as [|k ks IH]; intros d Hd; simpl; [done|].
  by apply IH, NoDup_dict_keys_del.
Qed.

Lemma selected_seg_ok c :
  store_wf c → Forall (seg_ok (next_seg_id c)) (get_selected_segmentations c).
Proof.
  intros Hwf. apply Forall_forall.
  intros s (id & _ & Hget)%elem_of_selected_segmentations.
  apply dict_get_Some_elem in Hget.
  pose proof (proj1 (Forall_forall _ _) (store_wf_entries c Hwf) _ Hget)
    as [_ Hok]. done.
Qed.

Lemma canvas_wf_merge new_color c :
  canvas_wf c → canvas_wf (merge_selected_segmentations new_color c).
Proof.
  intros Hc. pose proof Hc as (Hwf & Hundo & Hredo).
  destruct (Nat.ltb_spec (length (selected_segmentations c)) 2) as [Hlt | Hge].
  { by rewrite merge_refused. }
  destruct (decide (concat (map pixels (get_selected_segmentations c)) = []))
    as [Hnil | Hpix].
  { unfold merge_selected_segmentations.
    destruct (Nat.ltb_spec (length (selected_segmentations c)) 2); [done|].
    by rewrite Hnil. }
  rewrite merge_effective by done. cbv zeta.
  match goal with
  | |- canvas_wf (set_mask_pixmap (update_pixel_labels ?c0) _) =>
      apply (canvas_wf_view c0); try done
  end.
  assert (Hm : seg_ok (next_seg_id c + 1) (merged_segmentation new_color c)).
  { split; simpl; [lia | done]. }
  split; [|split]; simpl.
  - apply store_wf_intro; simpl.
    + apply NoDup_dict_keys_set, NoDup_foldl_dict_del, Hwf.
    + apply Forall_dict_set; [|by split].
      apply Forall_foldl_dict_del.
      eapply Forall_impl; [by apply store_wf_entries|].
      intros ks. apply entry_ok_mono. lia.
    + constructor.
  - constructor.
    + split; [|done]. eapply Forall_impl; [by apply selected_seg_ok|].
      intros s. apply seg_ok_mono. lia.
    + eapply Forall_impl; [done|]. intros op. apply op_ok_mono. lia.
  - constructor.
Qed.

Lemma Forall_foldl_dict_set n (olds : list Segmentation) : ∀ D,
  Forall (entry_ok n) D → Forall (seg_ok n) olds →
  Forall (entry_ok n)
    (foldl (λ d segmentation, dict_set (seg_id segmentation) segmentation d)
           D olds).
Proof.
  induction olds as [|s olds IH]; intros D HD Ho; simpl; [done|].
  apply Forall_cons in Ho as [Hs Ho].
  apply IH; [|done]. apply Forall_dict_set; [done | by split].
Qed.

Lemma Forall_foldl_dict_del_segs (P : Z * Segmentation → Prop)
    (olds : list Segmentation) : ∀ d,
  Forall P d →
  Forall P (foldl (λ d segmentation, dict_del (seg_id segmentation) d) d olds).
Proof.
  induction olds as [|s olds IH]; intros d Hd; simpl; [done|].
  by apply IH, Forall_dict_del.
Qed.

Lemma NoDup_foldl_dict_del_segs (olds : list Segmentation) :
  ∀ d : list (Z * Segmentation),
  NoDup (dict_keys d) →
  NoDup (dict_keys
           (foldl (λ d segmentation, dict_del (seg_id segmentation) d)
                  d olds)).
Proof.
  induction olds as [|s olds IH]; intros d Hd; simpl; [done|].
  by apply IH, NoDup_dict_keys_del.
Qed.

Lemma canvas_wf_undo qp c :
  canvas_wf c → canvas_wf (undo_last_operation qp c).
Proof.
  intros Hc. pose proof Hc as (Hwf & Hundo & Hredo).
  unfold undo_last_operation.
  destruct (undo_stack c) as [|op rest] eqn:Hstack; [done|].
  apply Forall_cons in Hundo as [Hop Hrest].
  assert (Hpop : canvas_wf (set_stacks c rest (redo_stack c))).
  { split; [|by split]. by destruct Hwf. }
  apply canvas_wf_update.
  destruct op as [data | data | olds new]; cbn [set_stacks segmentations
    drawings redo_stack undo_stack].
  - destruct (max_key (segmentations c)) as [m|]; [|done].
    destruct (dict_get m (segmentations c)) as [removed|]; [|done].
    split; [|split]; simpl; [| done | by constructor].
    apply store_wf_intro; simpl.
    + apply NoDup_dict_keys_del, Hwf.
    + by apply Forall_dict_del, store_wf_entries.
    + apply Hwf.
  - destruct (max_key (drawings c)) as [m|]; [|done].
    destruct (dict_get m (drawings c)) as [removed|]; [|done].
    split; [|split]; simpl; [|done | by constructor].
    by destruct Hwf.
  - destruct Hop as [Ho Hn].
    split; [|split]; simpl; [|done | by constructor].
    apply store_wf_intro; simpl.
    + apply NoDup_foldl_dict_set, NoDup_dict_keys_del, Hwf.
    + apply Forall_foldl_dict_set; [|done].
      by apply Forall_dict_del, store_wf_entries.
    + apply Hwf.
Qed.

Lemma canvas_wf_redo qp c :
  canvas_wf c → canvas_wf (redo_last_operation qp c).
Proof.
  intros Hc. pose proof Hc as (Hwf & Hundo & Hredo).
  unfold redo_last_operation.
  destruct (redo_stack c) as [|op rest] eqn:Hstack; [done|].
  apply Forall_cons in Hredo as [Hop Hrest].
  apply canvas_wf_update.
  destruct op as [data | data | olds new]; cbn [set_stacks segmentations
    drawings redo_stack undo_stack].
  - split; [|split]; simpl; [|by constructor | done].
    apply store_wf_intro; simpl.
    + apply NoDup_dict_keys_set, Hwf.
    + apply Forall_dict_set; [by apply store_wf_entries | by split].
    + apply Hwf.
  - split; [|split]; simpl; [|by constructor | done].
    by destruct Hwf.
  - destruct Hop as [Ho Hn].
    split; [|split]; simpl; [|by constructor | done].
    apply store_wf_intro; simpl.
    + apply NoDup_dict_keys_set, NoDup_foldl_dict_del_segs, Hwf.
    + apply Forall_dict_set; [|by split].
      by apply Forall_foldl_dict_del_segs, store_wf_entries.
    + apply Hwf.
Qed.

Lemma canvas_wf_step qp a c : canvas_wf c → canvas_wf (step qp a c).
Proof.
  intros Hc. destruct a; simpl.
  - by apply canvas_wf_flood_fill.
  - by apply canvas_wf_stroke.
  - by apply canvas_wf_mouse_remove.
  - destruct (pixel_labels c); [by apply canvas_wf_select | done].
  - by apply canvas_wf_toggle.
  - by apply canvas_wf_merge.
  - by apply canvas_wf_undo.
  - by apply canvas_wf_redo.
Qed.

Lemma canvas_wf_run qp actions : ∀ c,
  canvas_wf c → canvas_wf (run qp actions c).
Proof.
  unfold run. induction actions as [|a actions IH]; intros c Hc; [done|].
  cbn [foldl]. by apply IH, canvas_wf_step.
Qed.

Lemma canvas_wf_blank w h : canvas_wf (create_blank_mask w h).
Proof. repeat split; simpl; constructor. Qed.

Lemma group_append_nonempty rgb p d :
  Forall (λ g : color * list point, g.2 ≠ []) d →
  Forall (λ g : color * list point, g.2 ≠ []) (group_append rgb p d).
Proof.
  induction 1 as [|[rgb' ps] d Hg Hd IH]; simpl.
  - by repeat constructor.
  - destruct (decide (rgb = rgb')); constructor; try done.
    simpl. intros [? _]%app_eq_nil. done.
Qed.

Lemma color_to_pixels_nonempty image :
  Forall (λ g : color * list point, g.2 ≠ []) (color_to_pixels image).
Proof.
  unfold color_to_pixels.
  generalize (flat_map (λ y, map (λ x, (x, y)) (range (img_width image)))
                (range (img_height image))).
  intros l. assert (H0 : Forall (λ g : color * list point, g.2 ≠ []) [])
    by constructor.
  revert H0. generalize (@nil (color * list point)).
  induction l as [|[x y] l IH]; intros d Hd; cbn [foldl]; [done|].
  apply IH. destruct (bool_decide _); [by apply group_append_nonempty | done].
Qed.

Lemma canvas_wf_create_extracted items : ∀ c,
  Forall (λ g : color * list point, g.2 ≠ []) items →
  canvas_wf c → canvas_wf (foldl create_extracted c items).
Proof.
  induction items as [|[col pix] items IH]; intros c Hi Hc; cbn [foldl];
    [done|].
  apply Forall_cons in Hi as [Hpix Hi]. apply IH; [done|].
  destruct Hc as (Hwf & Hundo & Hredo). simpl in Hpix.
  split; [|split]; simpl.
  - apply store_wf_intro; simpl.
    + apply NoDup_dict_keys_set, Hwf.
    + apply Forall_dict_set; [|split; [done | split; simpl; [lia | done]]].
      eapply Forall_impl; [by apply store_wf_entries|].
      intros ks. apply entry_ok_mono. lia.
    + apply Hwf.
  - eapply Forall_impl; [done|]. intros op. apply op_ok_mono. lia.
  - eapply Forall_impl; [done|]. intros op. apply op_ok_mono. lia.
Qed.

Lemma canvas_wf_compute_borders c0 c :
  canvas_wf c →
  canvas_wf
    (set_segmentations c
       (map (λ '(k, segmentation),
               (k, compute_segmentation_borders c0 segmentation))
            (segmentations c))).
Proof.
  intros (Hwf & Hundo & Hredo). split; [|by split].
  apply store_wf_intro; simpl.
  - unfold dict_keys. rewrite map_map.
    rewrite (map_ext _ fst); [apply Hwf | by intros [k s]].
  - apply Forall_fmap. eapply Forall_impl; [by apply store_wf_entries|].
    by intros [k s].
  - apply Hwf.
Qed.

Lemma canvas_wf_load_mask w h mask : canvas_wf (load_mask w h mask).
Proof.
  unfold load_mask, extract_segmentations_from_mask. cbv zeta.
  apply canvas_wf_compute_borders, canvas_wf_update.
  apply canvas_wf_create_extracted; [apply color_to_pixels_nonempty|].
  repeat split; simpl; constructor.
Qed.

(** X1. Every canvas reached from a blank or a loaded mask has a well-formed
    store, a history that can be replayed, and a grid that holds the last
    owner of every pixel. *)
Theorem reachable_canvas_invariant qp actions w h :
  (canvas_wf (run qp actions (create_blank_mask w h))
   ∧ grid_last_owner (run qp actions (create_blank_mask w h)))
  ∧ ∀ mask,
      canvas_wf (run qp actions (load_mask w h mask))
      ∧ grid_last_owner (run qp actions (load_mask w h mask)).
Proof.
  split; [split|intros mask; split].
  - apply canvas_wf_run, canvas_wf_blank.
  - apply grid_last_owner_run, grid_last_owner_blank.
  - apply canvas_wf_run, canvas_wf_load_mask.
  - apply grid_last_owner_run, grid_last_owner_load_mask.
Qed.

(** ** A second fill at the same seed *)

Lemma pixelColor_fill image (l : list point) fill_color x y :
  pixelColor
    (foldl (λ image '(x, y), setPixelColor image x y fill_color) image l) x y
  = if bool_decide ((x, y) ∈ l) then fill_color else pixelColor image x y.
Proof.
  revert image. induction l as [|[px py] l IH]; intros image; cbn [foldl].
  - by rewrite bool_decide_eq_false_2 by (intros H; by apply elem_of_nil in H).
  - rewrite IH. destruct (decide ((x, y) ∈ l)) as [Hin | Hin].
    + rewrite !bool_decide_eq_true_2; [done | by right | done].
    + rewrite (bool_decide_eq_false_2 _ Hin). simpl.
      destruct (decide (x = px ∧ y = py)) as [[-> ->] | Hne].
      * rewrite !bool_decide_eq_true_2; [done | by left | done].
      * rewrite !bool_decide_eq_false_2; [done | | done].
        intros [[= -> ->] | ?]%elem_of_cons; [by apply Hne | done].
Qed.

Lemma size_fill image (l : list point) fill_color :
  let image' :=
    foldl (λ image '(x, y), setPixelColor image x y fill_color) image l in
  width image' = width image ∧ height image' = height image.
Proof.
  revert image. induction l as [|[px py] l IH]; intros image; cbn [foldl];
    [done|].
  apply (IH (setPixelColor image px py fill_color)).
Qed.

(** X2. Flood fill idempotence: after a fill that started, with a colour that
    is not very dark (the random colours have every channel at least 32),
    a second fill at the same seed finds the seed coloured and does
    nothing. *)
Theorem second_fill_is_noop random_color other_color x y c :
  store_wf c →
  is_pixel_black (mask_pixmap c) x y = true →
  ¬ (random_color.1.1 < 10 ∧ random_color.1.2 < 10 ∧ random_color.2 < 10) →
  let c1 := flood_fill_at_position random_color x y c in
  length (segmentations c1) = S (length (segmentations c))
  ∧ flood_fill_at_position other_color x y c1 = c1.
Proof.
  intros Hwf Hb Hcol c1. subst c1.
  destruct (flood_fill_at_position_black random_color x y c Hb)
    as (image & filled & Hff & Hseed & ->). cbv zeta.
  split.
  - simpl. rewrite dict_set_fresh by by apply next_seg_id_fresh.
    rewrite length_app. simpl. lia.
  - unfold flood_fill_at_position at 1. cbn [update_pixel_labels
      push_to_undo_stack set_next_seg_id set_segmentations set_mask_pixmap
      set_stacks set_pixel_labels mask_pixmap].
    unfold flood_fill in Hff.
    destruct (_numpy_flood_fill x y _) as [l|] eqn:El; [|done].
    simpl in Hff. injection Hff as <- <-.
    assert (Hnb : is_pixel_black
              (foldl (λ image '(x, y), setPixelColor image x y random_color)
                     (mask_pixmap c) l) x y = false).
    { apply not_true_is_false. intros (_ & H1 & H2 & H3)%is_pixel_black_spec.
      rewrite pixelColor_fill, bool_decide_eq_true_2 in H1, H2, H3 by done.
      by apply Hcol. }
    by rewrite Hnb.
Qed.

Lemma second_fill_is_noop_witness :
  let c := create_blank_mask 3 3 in
  let c1 := flood_fill_at_position (40, 50, 60) 1 1 c in
  length (segmentations c1) = S (length (segmentations c))
  ∧ flood_fill_at_position (70, 80, 90) 1 1 c1 = c1.
Proof.
  apply (second_fill_is_noop (40, 50, 60) (70, 80, 90) 1 1
           (create_blank_mask 3 3)).
  - split; simpl; constructor.
  - reflexivity.
  - simpl. lia.
Defined.

(** The scenario of the specification: a fill of the blank 3 by 3 canvas
    from its centre makes one region of nine pixels with no border. *)
Example fill_3x3 :
  ∃ segmentation,
    segmentations (flood_fill_at_position (40, 50, 60) 1 1
                     (create_blank_mask 3 3)) = [(1, segmentation)]
    ∧ length (pixels segmentation) = 9%nat
    ∧ border_pixels segmentation = [].
Proof. eexists. repeat split; vm_compute; reflexivity. Qed.

(** ** Removal and the history *)

Lemma pixelColor_paint_pixels image (l : list point) col x y :
  pixelColor (paint_pixels image l col) x y
  = if bool_decide ((x, y) ∈ l
                    ∧ inside (width image) (height image) x y = true)
    then col else pixelColor image x y.
Proof.
  unfold paint_pixels.
  assert (Hgen : ∀ im,
    width im = width image → height im = height image →
    pixelColor
      (foldl (λ image '(x, y),
                if (0 <=? x) && (x <? width image)
                   && (0 <=? y) && (y <? height image)
                then setPixelColor image x y col else image) im l) x y
    = if bool_decide ((x, y) ∈ l
                      ∧ inside (width image) (height image) x y = true)
      then col else pixelColor im x y); [|by apply Hgen].
  induction l as [|[px py] l IH]; intros im Hw Hh; cbn [foldl].
  - rewrite bool_decide_eq_false_2; [done|].
    intros [H _]. by apply elem_of_nil in H.
  - rewrite Hw, Hh.
    change ((0 <=? px) && (px <? width image) && (0 <=? py)
            && (py <? height image))
      with (inside (width image) (height image) px py).
    destruct (inside (width image) (height image) px py) eqn:Hin.
    + rewrite IH by done.
      destruct (decide ((x, y) ∈ l
                        ∧ inside (width image) (height image) x y = true))
        as [[Hl Hi] | Hno].
      * rewrite !bool_decide_eq_true_2; [done | | done].
        split; [by right | done].
      * rewrite (bool_decide_eq_false_2 _ Hno). simpl.
        destruct (decide (x = px ∧ y = py)) as [[-> ->] | Hne].
        -- rewrite !bool_decide_eq_true_2; [done | | done].
           split; [by left | done].
        -- rewrite !bool_decide_eq_false_2; [done | | done].
           intros [[[= -> ->] | Hl]%elem_of_cons Hi]; [by apply Hne|].
           by apply Hno.
    + rewrite IH by done. apply (f_equal (λ b : bool, if b then _ else _)).
      apply bool_decide_ext. rewrite elem_of_cons. split; [tauto|].
      intros [[[= -> ->] | Hl] Hi]; [congruence | done].
Qed.

(** X3. Removal of a region: the region leaves the store and the selection,
    the other regions stay, its pixels inside the mask turn black, and
    both history stacks are emptied. *)
Theorem remove_segmentation_effect segmentation c :
  let c' := remove_segmentation segmentation c in
  dict_get (seg_id segmentation) (segmentations c') = None
  ∧ (∀ id, id ≠ seg_id segmentation →
       dict_get id (segmentations c') = dict_get id (segmentations c))
  ∧ (seg_id segmentation ∉ selected_segmentations c')
  ∧ (∀ x y, (x, y) ∈ pixels segmentation →
       inside (width (mask_pixmap c)) (height (mask_pixmap c)) x y = true →
       pixelColor (mask_pixmap c') x y = black)
  ∧ undo_stack c' = []
  ∧ redo_stack c' = [].
Proof.
  intros c'. subst c'. simpl. split; [apply dict_get_del_eq|].
  split; [intros id Hne; by apply dict_get_del_ne|].
  split; [apply remove_discards_selection|].
  split; [|done]. intros x y Hp Hin.
  rewrite pixelColor_paint_pixels. by rewrite bool_decide_eq_true_2.
Qed.

(** X4. A recorded operation leaves the redo stack empty. *)
Theorem recorded_clears_redo qp a c :
  is_edit a → recorded qp a c → redo_stack (step qp a c) = [].
Proof.
  intros Hedit Hrec. destruct a; try done.
  - apply recorded_flood_fill in Hrec. simpl.
    destruct (flood_fill_at_position_black random_color x y c Hrec)
      as (image & filled & _ & _ & Heq). by rewrite Heq.
  - unfold recorded in Hrec. simpl in *.
    destruct (stroke_cases qp false pen p0 moves c) as (m & d & [Heq | Heq]);
      cbv zeta in Heq; rewrite Heq in *; [simpl in Hrec; lia | done].
  - apply recorded_merge in Hrec as [Hlen Hpix]. simpl.
    by rewrite merge_effective.
Qed.

Lemma recorded_clears_redo_witness :
  redo_stack
    (step dot_painter (Merge (70, 80, 90))
       (undo_last_operation dot_painter
          (step dot_painter (FloodFill (40, 50, 60) 0 0) dark_selected)))
  = [].
Proof.
  apply recorded_clears_redo.
  - exact I.
  - vm_compute. reflexivity.
Defined.

(** An overlap reached by core operations alone, with a painter that
    colours the two ends of a line: the blank 2 by 1 canvas is filled,
    a white stroke is drawn across the region and undone, which leaves
    black pixels that still belong to region 1, and a second fill then
    creates region 2 over them. *)
Example overlap_after_undone_stroke :
  let c := run dot_painter
             [FloodFill (40, 50, 60) 0 0; Stroke 1 (0, 0) [(1, 0)]; Undo;
              FloodFill (70, 80, 90) 0 0]
             (create_blank_mask 2 1) in
  map (λ ks, (ks.1, pixels ks.2)) (segmentations c)
  = [(1, [(0, 0); (1, 0)]); (2, [(0, 0); (1, 0)])]
  ∧ pixel_labels c = Some [[2; 2]].
Proof. split; vm_compute; reflexivity. Qed.

(** ** What a flood fill paints *)

Lemma flood_fill_result image sx sy fill_color :
  ∃ filled_pixels,
    flood_fill image sx sy fill_color
    = Some (foldl (λ image '(x, y), setPixelColor image x y fill_color)
                  image filled_pixels,
            filled_pixels)
    ∧ NoDup filled_pixels
    ∧ ∀ p, p ∈ filled_pixels ↔ component image sx sy p.
Proof.
  unfold flood_fill.
  destruct (numpy_flood_fill_correct sx sy
              (build_target_mask image (pixelColor image sx sy)))
    as (filled & -> & Hnd & Hreach).
  exists filled. split; [done|]. split; [done|].
  intros p. rewrite Hreach. apply mask_reach_component.
Qed.

Lemma component_outside image sx sy p :
  inside (width image) (height image) sx sy = false →
  ¬ component image sx sy p.
Proof.
  intros Hout Hc. induction Hc as [Hin | x y nx ny _ IH _ _ _]; [|done].
  congruence.
Qed.

(** X6. The frame of [flood_fill]: the image keeps its size, the pixels of the
    seed's component take the fill colour, every other pixel keeps its
    colour, and a seed outside the image fills nothing. *)
Theorem flood_fill_paints_component image start_x start_y fill_color :
  ∃ image' filled_pixels,
    flood_fill image start_x start_y fill_color = Some (image', filled_pixels)
    ∧ width image' = width image
    ∧ height image' = height image
    ∧ (∀ x y, component image start_x start_y (x, y) →
         pixelColor image' x y = fill_color)
    ∧ (∀ x y, ¬ component image start_x start_y (x, y) →
         pixelColor image' x y = pixelColor image x y)
    ∧ (inside (width image) (height image) start_x start_y = false →
       filled_pixels = []).
Proof.
  destruct (flood_fill_result image start_x start_y fill_color)
    as (filled & Hff & _ & Hcomp).
  eexists _, filled. split; [exact Hff|].
  pose proof (size_fill image filled fill_color) as [Hw Hh].
  split; [done|]. split; [done|]. split; [|split].
  - intros x y Hc. rewrite pixelColor_fill, bool_decide_eq_true_2; [done|].
    by apply Hcomp.
  - intros x y Hc. rewrite pixelColor_fill, bool_decide_eq_false_2; [done|].
    by rewrite Hcomp.
  - intros Hout. destruct filled as [|p filled]; [done|].
    exfalso. apply (component_outside image start_x start_y p Hout).
    apply Hcomp. by left.
Qed.

(** ** Fill, undo and redo on the mask *)

Lemma flood_fill_at_position_region random_color x y c :
  store_wf c →
  is_pixel_black (mask_pixmap c) x y = true →
  ∃ filled_pixels,
    let image :=
      foldl (λ image '(x, y), setPixelColor image x y random_color)
            (mask_pixmap c) filled_pixels in
    let segmentation :=
      compute_segmentation_borders c
        {| seg_id := next_seg_id c; seg_color := random_color;
           pixels := filled_pixels; border_pixels := [] |} in
    let c1 := flood_fill_at_position random_color x y c in
    (∀ p, p ∈ filled_pixels ↔ component (mask_pixmap c) x y p)
    ∧ mask_pixmap c1 = image
    ∧ segmentations c1 = segmentations c ++ [(next_seg_id c, segmentation)]
    ∧ undo_stack c1 = OpSegmentation segmentation :: undo_stack c
    ∧ redo_stack c1 = []
    ∧ selected_segmentations c1 = selected_segmentations c
    ∧ max_key (segmentations c1) = Some (next_seg_id c)
    ∧ dict_get (next_seg_id c) (segmentations c1) = Some segmentation.
Proof.
  intros Hwf Hb.
  destruct (flood_fill_at_position_black random_color x y c Hb)
    as (image & filled & Hff & _ & Heq). cbv zeta in Heq.
  destruct (flood_fill_result (mask_pixmap c) x y random_color)
    as (filled' & Hff' & _ & Hcomp).
  rewrite Hff' in Hff. injection Hff as <- <-.
  exists filled'. cbv zeta. rewrite Heq.
  pose proof (next_seg_id_fresh c Hwf) as Hfresh.
  split; [done|]. split; [done|]. simpl.
  rewrite dict_set_fresh by done.
  split; [done|]. split; [done|]. split; [done|]. split; [done|]. split.
  - apply max_key_fresh. intros k Hk.
    unfold dict_keys in Hk.
    apply list_elem_of_fmap in Hk as ([k' s] & -> & Hin).
    apply (proj1 (Forall_forall _ _) (wf_fresh _ Hwf) _ Hin).
  - rewrite <- (dict_set_fresh _ _ _ Hfresh). apply dict_get_set_eq.
Qed.

(** X7. Undo of a fill paints the filled pixels black and leaves the rest of
    the mask alone, so it restores the mask exactly when the seed was
    black; redo paints the fill colour again. *)
Theorem fill_undo_redo_mask qp random_color x y c :
  store_wf c →
  is_pixel_black (mask_pixmap c) x y = true →
  let c1 := flood_fill_at_position random_color x y c in
  let c2 := undo_last_operation qp c1 in
  let c3 := redo_last_operation qp c2 in
  (∀ x' y', component (mask_pixmap c) x y (x', y') →
     pixelColor (mask_pixmap c2) x' y' = black)
  ∧ (∀ x' y', ¬ component (mask_pixmap c) x y (x', y') →
       pixelColor (mask_pixmap c2) x' y' = pixelColor (mask_pixmap c) x' y')
  ∧ (pixelColor (mask_pixmap c) x y = black →
     ∀ x' y',
       pixelColor (mask_pixmap c2) x' y' = pixelColor (mask_pixmap c) x' y')
  ∧ (∀ x' y',
       pixelColor (mask_pixmap c3) x' y' = pixelColor (mask_pixmap c1) x' y').
Proof.
  intros Hwf Hb.
  destruct (flood_fill_at_position_region random_color x y c Hwf Hb)
    as (filled & Hcomp & Hm1 & Hs1 & Hu1 & Hr1 & _ & Hmax & Hget).
  cbv zeta in *.
  set (seg := compute_segmentation_borders c _) in *.
  set (c1 := flood_fill_at_position random_color x y c) in *.
  pose proof (size_fill (mask_pixmap c) filled random_color) as [Hw Hh].
  cbv zeta in Hw, Hh. rewrite <- Hm1 in Hw, Hh.
  assert (Hin : ∀ x' y', (x', y') ∈ filled →
            inside (width (mask_pixmap c)) (height (mask_pixmap c)) x' y'
            = true
            ∧ pixelColor (mask_pixmap c) x' y' = pixelColor (mask_pixmap c) x y).
  { intros x' y' Hp. by apply component_inside, Hcomp. }
  (* the mask after the undo *)
  assert (Hm2 : mask_pixmap (undo_last_operation qp c1)
                = paint_pixels (mask_pixmap c1) filled black).
  { unfold undo_last_operation. rewrite Hu1. simpl. rewrite Hmax. simpl.
    rewrite Hget. done. }
  assert (Hs2 : segmentations (undo_last_operation qp c1) = segmentations c).
  { unfold undo_last_operation. rewrite Hu1. simpl. rewrite Hmax. simpl.
    rewrite Hget. simpl. rewrite Hs1, dict_del_snoc.
    by apply dict_del_fresh, next_seg_id_fresh. }
  assert (Hr2 : redo_stack (undo_last_operation qp c1)
                = [OpSegmentation seg]).
  { unfold undo_last_operation. rewrite Hu1. simpl. rewrite Hmax. simpl.
    rewrite Hget. simpl. by rewrite Hr1. }
  assert (Hpix2 : ∀ x' y',
            pixelColor (mask_pixmap (undo_last_operation qp c1)) x' y'
            = if bool_decide ((x', y') ∈ filled) then black
              else pixelColor (mask_pixmap c) x' y').
  { intros x' y'. rewrite Hm2, pixelColor_paint_pixels, Hw, Hh.
    destruct (decide ((x', y') ∈ filled)) as [Hp | Hp].
    - rewrite !bool_decide_eq_true_2; [done | done |].
      split; [done|]. by apply Hin.
    - rewrite (bool_decide_eq_false_2 _ Hp).
      rewrite bool_decide_eq_false_2 by tauto.
      by rewrite Hm1, pixelColor_fill, bool_decide_eq_false_2. }
  split; [|split; [|split]].
  - intros x' y' Hc. rewrite Hpix2, bool_decide_eq_true_2; [done|].
    by apply Hcomp.
  - intros x' y' Hc. rewrite Hpix2, bool_decide_eq_false_2; [done|].
    by rewrite Hcomp.
  - intros Hblack x' y'. rewrite Hpix2. case_bool_decide as Hp; [|done].
    apply Hin in Hp as [_ ->]. by rewrite Hblack.
  - intros x' y'.
    assert (Hm3 : mask_pixmap
                    (redo_last_operation qp (undo_last_operation qp c1))
                  = paint_pixels (mask_pixmap (undo_last_operation qp c1))
                      filled random_color).
    { unfold redo_last_operation at 1. rewrite Hr2. done. }
    rewrite Hm3, pixelColor_paint_pixels, Hpix2.
    assert (Hw2 : width (mask_pixmap (undo_last_operation qp c1))
                  = width (mask_pixmap c)
                  ∧ height (mask_pixmap (undo_last_operation qp c1))
                    = height (mask_pixmap c)).
    { rewrite Hm2. unfold width, height.
      assert (Hgen : ∀ l im,
                img_width (paint_pixels im l black) = img_width im
                ∧ img_height (paint_pixels im l black) = img_height im).
      { unfold paint_pixels. induction l as [|[px py] l IH]; intros im;
          cbn [foldl]; [done|].
        destruct (_ && _); [|apply IH].
        destruct (IH (setPixelColor im px py black)) as [-> ->]. done. }
      destruct (Hgen filled (mask_pixmap c1)) as [-> ->].
      unfold width, height in Hw, Hh. by split; [rewrite Hw | rewrite Hh]. }
    destruct Hw2 as [-> ->].
    rewrite Hm1, pixelColor_fill.
    destruct (decide ((x', y') ∈ filled)) as [Hp | Hp].
    + rewrite !bool_decide_eq_true_2; [done | done |].
      split; [done|]. by apply Hin.
    + rewrite (bool_decide_eq_false_2 _ Hp).
      by rewrite bool_decide_eq_false_2 by tauto.
Qed.

Lemma fill_undo_redo_mask_witness :
  let c := create_blank_mask 2 2 in
  let c1 := flood_fill_at_position (40, 50, 60) 0 0 c in
  let c2 := undo_last_operation dot_painter c1 in
  let c3 := redo_last_operation dot_painter c2 in
  (∀ x' y', component (mask_pixmap c) 0 0 (x', y') →
     pixelColor (mask_pixmap c2) x' y' = black)
  ∧ (∀ x' y', ¬ component (mask_pixmap c) 0 0 (x', y') →
       pixelColor (mask_pixmap c2) x' y' = pixelColor (mask_pixmap c) x' y')
  ∧ (pixelColor (mask_pixmap c) 0 0 = black →
     ∀ x' y',
       pixelColor (mask_pixmap c2) x' y' = pixelColor (mask_pixmap c) x' y')
  ∧ (∀ x' y',
       pixelColor (mask_pixmap c3) x' y' = pixelColor (mask_pixmap c1) x' y').
Proof.
  apply (fill_undo_redo_mask dot_painter (40, 50, 60) 0 0
           (create_blank_mask 2 2)).
  - split; simpl; constructor.
  - reflexivity.
Defined.

(** A fill that starts on a very dark pixel that is not black: the undo
    leaves the pixel black, not as it was. *)
Example undo_blackens_dark_seed :
  let c := load_mask 2 1 dim_mask in
  let c2 := undo_last_operation dot_painter
              (flood_fill_at_position (40, 50, 60) 0 0 c) in
  pixelColor (mask_pixmap c) 0 0 = (5, 5, 5)
  ∧ pixelColor (mask_pixmap c2) 0 0 = black.
Proof. split; vm_compute; reflexivity. Qed.

(** ** The border of a freshly filled region *)

Lemma elem_of_In {A} (x : A) (l : list A) : In x l ↔ x ∈ l.
Proof. symmetry. apply list_elem_of_In. Qed.

Lemma region_edge_spec w h (pix : list point) p :
  p ∈ region_edge w h pix ↔
  p ∈ pix ∧ ∃ n, n ∈ neighbors p.1 p.2 ∧ inside w h n.1 n.2 = true
                 ∧ (n ∉ pix).
Proof.
  unfold region_edge. rewrite list_elem_of_filter.
  rewrite Is_true_true, existsb_exists. split.
  - intros [(n & Hn & Hb) Hp]. split; [done|]. exists n.
    apply andb_true_iff in Hb as [Hin Hno].
    apply negb_true_iff, bool_decide_eq_false in Hno.
    by rewrite <- elem_of_In.
  - intros [Hp (n & Hn & Hin & Hno)]. split; [|done]. exists n.
    rewrite elem_of_In. split; [done|].
    by rewrite Hin, bool_decide_eq_false_2.
Qed.

Lemma last_owner_key segs p :
  last_owner segs p = 0 ∨ last_owner segs p ∈ dict_keys segs.
Proof.
  destruct (last_owner_cases segs p) as [[-> _] | (k & s & Hin & _ & ->)];
    [by left | right].
  unfold dict_keys. apply list_elem_of_fmap. by exists (k, s).
Qed.

(** X8. On a canvas whose grid is up to date and whose next id is positive,
    the border stored for a freshly filled region is the edge of the
    region: its pixels that have a neighbour inside the image and outside
    the region.  The region's pixels are the component of the seed. *)
Theorem fresh_region_border random_color x y c :
  store_wf c →
  grid_last_owner c →
  0 < next_seg_id c →
  is_pixel_black (mask_pixmap c) x y = true →
  ∃ segmentation,
    dict_get (next_seg_id c)
      (segmentations (flood_fill_at_position random_color x y c))
    = Some segmentation
    ∧ (∀ p, p ∈ pixels segmentation ↔ component (mask_pixmap c) x y p)
    ∧ border_pixels segmentation
      = region_edge (Z.of_nat (original_width c))
          (Z.of_nat (original_height c)) (pixels segmentation).
Proof.
  intros Hwf Hg Hpos Hb.
  destruct (flood_fill_at_position_region random_color x y c Hwf Hb)
    as (filled & Hcomp & _ & _ & _ & _ & _ & _ & Hget). cbv zeta in Hget.
  eexists. split; [exact Hget|]. split; [done|].
  rewrite border_pixels_compute. cbn [pixels].
  unfold region_edge. apply list_filter_iff. intros [px py].
  rewrite !Is_true_true, is_border_pixel_spec, existsb_exists. cbn [pixels seg_id fst snd].
  assert (Hlabel : ∀ n : point, in_grid c n.1 n.2 →
            get_pixel_label (pixel_labels c) n.1 n.2 ≠ next_seg_id c).
  { intros n Hn. destruct Hg as [_ Hg]. rewrite (Hg _ _ Hn).
    destruct (last_owner_key (segmentations c) (n.1, n.2)) as [-> | Hk];
      [lia|].
    unfold dict_keys in Hk.
    apply list_elem_of_fmap in Hk as ([k s] & Hk & Hin).
    pose proof (proj1 (Forall_forall _ _) (wf_fresh _ Hwf) _ Hin) as Hlt.
    simpl in *. lia. }
  split.
  - intros (n & Hn & Hgrid & Hno & _). exists n.
    rewrite elem_of_In. split; [done|].
    rewrite bool_decide_eq_false_2 by done.
    rewrite andb_true_r. by apply inside_spec.
  - intros (n & Hn & Hb'). exists n.
    apply andb_true_iff in Hb' as [Hin Hno].
    apply negb_true_iff, bool_decide_eq_false in Hno.
    apply inside_spec in Hin.
    rewrite <- elem_of_In. split; [done|]. split; [done|]. split; [done|].
    by apply Hlabel.
Qed.

Lemma fresh_region_border_witness :
  ∃ segmentation,
    dict_get (next_seg_id dark_canvas)
      (segmentations (flood_fill_at_position (40, 50, 60) 0 0 dark_canvas))
    = Some segmentation
    ∧ (∀ p, p ∈ pixels segmentation
            ↔ component (mask_pixmap dark_canvas) 0 0 p)
    ∧ border_pixels segmentation
      = region_edge (Z.of_nat (original_width dark_canvas))
          (Z.of_nat (original_height dark_canvas)) (pixels segmentation).
Proof.
  apply (fresh_region_border (40, 50, 60) 0 0 dark_canvas).
  - apply canvas_wf_load_mask.
  - apply grid_last_owner_load_mask.
  - vm_compute. reflexivity.
  - vm_compute. reflexivity.
Defined.

(** ** The selection and the store *)



Lemma elem_of_dict_keys {V} k (d : list (Z * V)) :
  k ∈ dict_keys d ↔ ∃ v, (k, v) ∈ d.
Proof.
  unfold dict_keys. rewrite list_elem_of_fmap. split.
  - intros ([k' v] & -> & Hin). by exists v.
  - intros (v & Hin). by exists (k, v).
Qed.









(** ** What a merge does to the pixels *)

Lemma elem_of_concat {A} (x : A) (ls : list (list A)) :
  x ∈ concat ls ↔ ∃ l, x ∈ l ∧ l ∈ ls.
Proof.
  induction ls as [|l ls IH]; simpl.
  - split; [by intros ?%elem_of_nil | by intros (l & _ & ?%elem_of_nil)].
  - rewrite elem_of_app, IH. split.
    + intros [Hx | (l' & Hx & Hl)]; [exists l | exists l'];
        (split; [done|]); [by left | by right].
    + intros (l' & Hx & [-> | Hl]%elem_of_cons); [by left | right; eauto].
Qed.

Lemma owned_app segs1 segs2 p :
  owned (segs1 ++ segs2) p ↔ owned segs1 p ∨ owned segs2 p.
Proof.
  unfold owned. split.
  - intros (k & s & [Hin | Hin]%elem_of_app & Hp); [left | right]; eauto.
  - intros [(k & s & Hin & Hp) | (k & s & Hin & Hp)]; exists k, s;
      rewrite elem_of_app; eauto.
Qed.

(** X10. A merge neither loses nor gains a pixel: the pixels owned by some
    stored region are the same before and after.  An effective merge
    paints the pixels of the selected regions, where they are inside the
    mask, in the new colour and leaves the rest of the mask alone. *)
Theorem merge_conserves_pixels new_color c :
  store_wf c →
  let c' := merge_selected_segmentations new_color c in
  (∀ p, owned (segmentations c') p ↔ owned (segmentations c) p)
  ∧ ((2 ≤ length (selected_segmentations c))%nat →
     concat (map pixels (get_selected_segmentations c)) ≠ [] →
     ∀ x y,
       pixelColor (mask_pixmap c') x y
       = if bool_decide
              ((x, y) ∈ concat (map pixels (get_selected_segmentations c))
               ∧ inside (width (mask_pixmap c)) (height (mask_pixmap c)) x y
                 = true)
         then new_color else pixelColor (mask_pixmap c) x y).
Proof.
  intros Hwf c'. subst c'. split.
  - intros p.
    destruct (decide (2 ≤ length (selected_segmentations c))%nat)
      as [Hlen|Hlen]; [|by rewrite merge_refused by lia].
    destruct (decide (concat (map pixels (get_selected_segmentations c))
                      = [])) as [Hpix | Hpix].
    { unfold merge_selected_segmentations.
      destruct (_ <? _)%nat; [done|]. by rewrite Hpix. }
    rewrite merge_effective by done. cbv zeta. simpl.
    rewrite foldl_dict_del.
    set (D := filter (λ kv, kv.1 ∉ selected_segmentations c)
                     (segmentations c)).
    assert (HnD : next_seg_id c ∉ dict_keys D).
    { intros (v & Hin)%elem_of_dict_keys.
      apply list_elem_of_filter in Hin as [_ Hin].
      apply (next_seg_id_fresh c Hwf), elem_of_dict_keys. eauto. }
    rewrite dict_set_fresh by done. rewrite owned_app. split.
    + intros [(k & s & Hin & Hp) | (k & s & Hin & Hp)].
      * apply list_elem_of_filter in Hin as [_ Hin]. by exists k, s.
      * apply list_elem_of_singleton in Hin as [= -> ->]. simpl in Hp.
        apply elem_of_concat in Hp as (l & Hp & Hl).
        apply list_elem_of_fmap in Hl as (s & -> & Hs).
        apply elem_of_selected_segmentations in Hs as (id & _ & Hget).
        exists id, s. split; [by apply dict_get_Some_elem | done].
    + intros (k & s & Hin & Hp).
      destruct (decide (k ∈ selected_segmentations c)) as [Hsel | Hsel].
      * right. exists (next_seg_id c), (merged_segmentation new_color c).
        split; [by apply list_elem_of_singleton|]. simpl.
        apply elem_of_concat. exists (pixels s). split; [done|].
        apply list_elem_of_fmap. exists s. split; [done|].
        apply elem_of_selected_segmentations. exists k. split; [done|].
        by apply elem_dict_get; [apply Hwf|].
      * left. exists k, s. split; [|done].
        apply list_elem_of_filter. by split.
  - intros Hlen Hpix x y. rewrite merge_effective by done. cbv zeta.
    cbn [mask_pixmap set_mask_pixmap]. rewrite pixelColor_paint_pixels.
    done.
Qed.

Lemma merge_conserves_pixels_witness :
  let c' := merge_selected_segmentations (70, 80, 90) dark_selected in
  (∀ p, owned (segmentations c') p ↔ owned (segmentations dark_selected) p)
  ∧ ((2 ≤ length (selected_segmentations dark_selected))%nat →
     concat (map pixels (get_selected_segmentations dark_selected)) ≠ [] →
     ∀ x y,
       pixelColor (mask_pixmap c') x y
       = if bool_decide
              ((x, y) ∈ concat (map pixels
                                  (get_selected_segmentations dark_selected))
               ∧ inside (width (mask_pixmap dark_selected))
                   (height (mask_pixmap dark_selected)) x y
                 = true)
         then (70, 80, 90) else pixelColor (mask_pixmap dark_selected) x y).
Proof.
  apply (merge_conserves_pixels (70, 80, 90) dark_selected).
  apply store_wf_dark_selected.
Defined.

(** ** Grouping the pixels of a scan *)

Section grouping.
Context {K : Type} `{EqDecision K}.
Implicit Types (d : list (K * list point)) (key : point → option K).

Lemma dict_append_keys (k : K) p d :
  map fst (dict_append k p d)
  = if decide (k ∈ map fst d) then map fst d else map fst d ++ [k].
Proof.
  induction d as [|[k' ps] d IH]; cbn [dict_append map fst].
  - by rewrite decide_False by by intros ?%elem_of_nil.
  - destruct (decide (k = k')) as [-> | Hne].
    + by rewrite decide_True by by left.
    + cbn [map fst]. rewrite IH. destruct (decide (k ∈ map fst d)) as [Hin | Hin].
      * by rewrite decide_True by by right.
      * rewrite decide_False; [done|].
        by intros [? | ?]%elem_of_cons.
Qed.

Lemma elem_of_dict_append (k : K) p d k' ps' :
  NoDup (map fst d) →
  (k', ps') ∈ dict_append k p d →
  (k' ≠ k ∧ (k', ps') ∈ d)
  ∨ (k' = k ∧ ((∃ ps, (k, ps) ∈ d ∧ ps' = ps ++ [p])
               ∨ ((k ∉ map fst d) ∧ ps' = [p]))).
Proof.
  induction d as [|[k0 ps0] d IH]; cbn [dict_append map fst]; intros Hnd Hin.
  - apply list_elem_of_singleton in Hin as [= -> ->]. right. split; [done|].
    right. split; [by intros ?%elem_of_nil | done].
  - apply NoDup_cons in Hnd as [Hk0 Hnd].
    destruct (decide (k = k0)) as [-> | Hne].
    + apply elem_of_cons in Hin as [[= -> ->] | Hin].
      * right. split; [done|]. left. exists ps0. split; [by left | done].
      * left. split; [|by right]. intros ->. apply Hk0.
        apply list_elem_of_fmap. by exists (k0, ps').
    + apply elem_of_cons in Hin as [[= -> ->] | Hin].
      * left. split; [done | by left].
      * destruct (IH Hnd Hin) as [[Hk Hd] | [-> [(ps & Hd & ->) | [Hd ->]]]].
        -- left. split; [done | by right].
        -- right. split; [done|]. left. exists ps. split; [by right | done].
        -- right. split; [done|]. right. split; [|done].
           by intros [? | ?]%elem_of_cons.
Qed.

Lemma grouped_nil key : grouped key [] [].
Proof.
  split; [constructor|]. split.
  - by intros k ps ?%elem_of_nil.
  - by intros p k ?%elem_of_nil.
Qed.

Lemma grouped_step key d l p :
  grouped key d l →
  grouped key (match key p with
               | Some k => dict_append k p d
               | None => d
               end) (l ++ [p]).
Proof.
  intros (Hnd & Hd & Hk). destruct (key p) as [k|] eqn:Hp.
  - split; [|split].
    + rewrite dict_append_keys. destruct (decide _) as [Hin | Hin]; [done|].
      apply NoDup_app. split; [done|]. split; [|apply NoDup_singleton].
      by intros k' Hk' ->%list_elem_of_singleton.
    + intros k' ps' Hin. rewrite filter_app.
      destruct (elem_of_dict_append k p d k' ps' Hnd Hin)
        as [[Hne Hin'] | [-> [(ps & Hin' & ->) | [Hno ->]]]].
      * destruct (Hd _ _ Hin') as [Hne' ->]. split; [done|].
        rewrite (filter_none _ [p]), app_nil_r; [done|].
        intros q ->%list_elem_of_singleton. congruence.
      * destruct (Hd _ _ Hin') as [Hne' ->].
        split; [by intros [_ ?]%app_eq_nil|].
        by rewrite (filter_all _ [p])
          by by intros q ->%list_elem_of_singleton.
      * split; [done|].
        rewrite (filter_none _ l).
        -- by rewrite (filter_all _ [p])
             by by intros q ->%list_elem_of_singleton.
        -- intros q Hq Hkq. apply Hno. by apply (Hk q).
    + intros q k' [Hq | ->%list_elem_of_singleton]%elem_of_app Hkq.
      * rewrite dict_append_keys. pose proof (Hk _ _ Hq Hkq).
        destruct (decide _); [done|]. apply elem_of_app. by left.
      * replace k' with k by congruence. rewrite dict_append_keys.
        destruct (decide _); [done|]. apply elem_of_app. right. by left.
  - split; [done|]. split.
    + intros k ps Hin. destruct (Hd _ _ Hin) as [Hne ->]. split; [done|].
      rewrite filter_app, (filter_none _ [p]), app_nil_r; [done|].
      intros q ->%list_elem_of_singleton. congruence.
    + intros q k [Hq | ->%list_elem_of_singleton]%elem_of_app Hkq;
        [by apply (Hk q) | congruence].
Qed.

Lemma grouped_scan key scan : ∀ d l,
  grouped key d l → grouped key (group_scan key d scan) (l ++ scan).
Proof.
  unfold group_scan.
  induction scan as [|p scan IH]; intros d l Hg; cbn [foldl].
  - by rewrite app_nil_r.
  - rewrite cons_middle, (assoc_L (++) l [p] scan). by apply IH, grouped_step.
Qed.

Lemma grouped_from_nil key scan : grouped key (group_scan key [] scan) scan.
Proof. apply (grouped_scan key scan [] []), grouped_nil. Qed.

(** What a grouping gives: keys are distinct, a pixel is filed under a key
    exactly when it is in the scan with that key, and two groups share no
    pixel. *)
Lemma grouped_elem key d l k ps p :
  grouped key d l → (k, ps) ∈ d → p ∈ ps ↔ p ∈ l ∧ key p = Some k.
Proof.
  intros (_ & Hd & _) Hin. destruct (Hd _ _ Hin) as [_ ->].
  rewrite list_elem_of_filter. tauto.
Qed.

Lemma grouped_filed key d l p k :
  grouped key d l → p ∈ l → key p = Some k → ∃ ps, (k, ps) ∈ d ∧ p ∈ ps.
Proof.
  intros Hg Hp Hk. pose proof Hg as (_ & _ & Hkeys).
  pose proof (Hkeys _ _ Hp Hk) as Hin.
  apply list_elem_of_fmap in Hin as ([k' ps] & -> & Hin). exists ps.
  split; [done|]. by apply (grouped_elem key d l k' ps p Hg Hin).
Qed.

Lemma grouped_nonempty key d l :
  grouped key d l → Forall (λ g : K * list point, g.2 ≠ []) d.
Proof.
  intros (_ & Hd & _). apply Forall_forall. intros [k ps] Hin.
  by destruct (Hd _ _ Hin).
Qed.

End grouping.

Lemma elem_of_row_major w h x y :
  (x, y) ∈ row_major w h ↔ 0 ≤ x < Z.of_nat w ∧ 0 ≤ y < Z.of_nat h.
Proof.
  unfold row_major, range. rewrite <- elem_of_In, in_flat_map. split.
  - intros (y' & Hy' & Hx). apply in_map_iff in Hx as (x' & [= <- <-] & Hx').
    apply in_map_iff in Hx' as (i & <- & Hi).
    apply in_map_iff in Hy' as (j & <- & Hj).
    apply in_seq in Hi, Hj. lia.
  - intros [Hx Hy]. exists y. split.
    + apply in_map_iff. exists (Z.to_nat y). split; [lia|]. apply in_seq. lia.
    + apply in_map_iff. exists x. split; [done|].
      apply in_map_iff. exists (Z.to_nat x). split; [lia|]. apply in_seq. lia.
Qed.

Lemma group_append_dict_append rgb p (d : list (color * list point)) :
  group_append rgb p d = dict_append rgb p d.
Proof.
  induction d as [|[rgb' ps] d IH]; cbn [group_append dict_append]; [done|].
  by rewrite IH.
Qed.

Lemma label_append_dict_append label p (d : list (Z * list point)) :
  label_append label p d = dict_append label p d.
Proof.
  induction d as [|[label' ps] d IH]; cbn [label_append dict_append]; [done|].
  by rewrite IH.
Qed.

Lemma color_to_pixels_group_scan image :
  color_to_pixels image
  = group_scan (color_key image) []
      (row_major (img_width image) (img_height image)).
Proof.
  unfold color_to_pixels, group_scan, row_major.
  generalize (@nil (color * list point)).
  induction (flat_map _ _) as [|[x y] l IH]; intros d; cbn [foldl]; [done|].
  rewrite IH. f_equal. unfold color_key. cbn [fst snd].
  destruct (bool_decide _); [apply group_append_dict_append | done].
Qed.

Lemma label_to_pixels_group_scan (labels_array : np.ndarray Z) :
  label_to_pixels labels_array
  = group_scan (label_key labels_array) []
      (row_major (Z.to_nat (np.width labels_array))
                 (Z.to_nat (np.height labels_array))).
Proof.
  unfold label_to_pixels, group_scan.
  generalize (@nil (Z * list point)).
  induction (row_major _ _) as [|[x y] l IH]; intros d; cbn [foldl]; [done|].
  rewrite IH. f_equal. unfold label_key. cbn [fst snd].
  destruct (_ >? 0); [apply label_append_dict_append | done].
Qed.

Lemma color_to_pixels_grouped image :
  grouped (color_key image) (color_to_pixels image)
    (row_major (img_width image) (img_height image)).
Proof. rewrite color_to_pixels_group_scan. apply grouped_from_nil. Qed.

Lemma label_to_pixels_grouped (labels_array : np.ndarray Z) :
  grouped (label_key labels_array) (label_to_pixels labels_array)
    (row_major (Z.to_nat (np.width labels_array))
               (Z.to_nat (np.height labels_array))).
Proof. rewrite label_to_pixels_group_scan. apply grouped_from_nil. Qed.

(** ** The regions of a mask loaded without a label array *)

Lemma numbered_keys items : ∀ n,
  map fst (numbered n items)
  = map (λ i, n + Z.of_nat i) (seq 0 (length items)).
Proof.
  induction items as [|[col ps] items IH]; intros n; cbn [numbered map length seq fst];
    [done|].
  f_equal; [lia|]. rewrite IH, <- seq_shift, map_map.
  apply map_ext. intros i. lia.
Qed.

Lemma elem_of_numbered items : ∀ n k s,
  (k, s) ∈ numbered n items ↔
  ∃ i col ps, items !! i = Some (col, ps) ∧ k = n + Z.of_nat i
              ∧ s = {| seg_id := k; seg_color := col; pixels := ps;
                       border_pixels := [] |}.
Proof.
  induction items as [|[col ps] items IH]; intros n k s; cbn [numbered].
  - split; [by intros ?%elem_of_nil | by intros (i & ? & ? & ? & _)].
  - rewrite elem_of_cons, IH. split.
    + intros [[= -> ->] | (i & col' & ps' & Hi & -> & ->)].
      * exists 0%nat, col, ps. split; [done|]. split; [lia | done].
      * exists (S i), col', ps'. split; [done|]. split; [lia|]. done.
    + intros ([|i] & col' & ps' & Hi & -> & ->).
      * left. injection Hi as <- <-. replace (n + Z.of_nat 0) with n by lia.
        done.
      * right. exists i, col', ps'. split; [done|].
        replace (n + Z.of_nat (S i)) with (n + 1 + Z.of_nat i) by lia. done.
Qed.

Lemma create_extracted_store items : ∀ c,
  (∀ k, k ∈ dict_keys (segmentations c) → k < next_seg_id c) →
  segmentations (foldl create_extracted c items)
  = segmentations c ++ numbered (next_seg_id c) items
  ∧ next_seg_id (foldl create_extracted c items)
    = next_seg_id c + Z.of_nat (length items).
Proof.
  induction items as [|[col ps] items IH]; intros c Hfresh;
    cbn [foldl numbered length].
  - rewrite app_nil_r. split; [done | lia].
  - destruct (IH (create_extracted c (col, ps))) as [-> ->].
    + simpl. intros k. rewrite dict_keys_set.
      destruct (decide _).
      * intros ?%Hfresh. lia.
      * intros [?%Hfresh | ->%list_elem_of_singleton]%elem_of_app; lia.
    + simpl. rewrite dict_set_fresh.
      * rewrite <- (assoc_L (++)). split; [done | lia].
      * intros ?%Hfresh. lia.
Qed.

Lemma load_mask_store w h mask :
  ∃ c1,
    segmentations (load_mask w h mask)
    = map (λ '(k, segmentation),
             (k, compute_segmentation_borders c1 segmentation))
          (numbered 1 (color_to_pixels mask))
    ∧ next_seg_id (load_mask w h mask)
      = 1 + Z.of_nat (length (color_to_pixels mask)).
Proof.
  unfold load_mask, extract_segmentations_from_mask. cbv zeta.
  cbn [mask_pixmap].
  set (c0 := {| original_width := w |}).
  destruct (create_extracted_store (color_to_pixels mask) c0) as [Hs Hn].
  { by intros k ?%elem_of_nil. }
  eexists. cbn [segmentations set_segmentations next_seg_id].
  split; [|exact Hn].
  unfold update_pixel_labels at 2. cbn [segmentations set_pixel_labels].
  rewrite Hs. reflexivity.
Qed.

Lemma elem_of_load_mask w h mask id s :
  (id, s) ∈ segmentations (load_mask w h mask) →
  ∃ i, color_to_pixels mask !! i = Some (seg_color s, pixels s)
       ∧ id = 1 + Z.of_nat i.
Proof.
  destruct (load_mask_store w h mask) as (c1 & -> & _).
  intros ([k s0] & [= -> ->] & Hin)%list_elem_of_fmap.
  apply elem_of_numbered in Hin as (i & col & ps & Hi & -> & ->).
  by exists i.
Qed.

Lemma load_mask_has_group w h mask i col ps :
  color_to_pixels mask !! i = Some (col, ps) →
  ∃ s, (1 + Z.of_nat i, s) ∈ segmentations (load_mask w h mask)
       ∧ seg_color s = col ∧ pixels s = ps.
Proof.
  intros Hi. destruct (load_mask_store w h mask) as (c1 & -> & _).
  eexists. split; [|split]; cycle 1.
  - shelve.
  - shelve.
  - apply list_elem_of_fmap.
    exists (1 + Z.of_nat i,
            {| seg_id := 1 + Z.of_nat i; seg_color := col; pixels := ps;
               border_pixels := [] |}).
    split; [reflexivity|]. apply elem_of_numbered. by exists i, col, ps.
  Unshelve. all: done.
Qed.

Lemma NoDup_fst_lookup {A B} (l : list (A * B)) i j a b b' :
  NoDup (map fst l) → l !! i = Some (a, b) → l !! j = Some (a, b') → i = j.
Proof.
  intros Hnd Hi Hj. apply (NoDup_lookup _ i j a Hnd).
  - by rewrite list_lookup_fmap, Hi.
  - by rewrite list_lookup_fmap, Hj.
Qed.

Lemma color_key_Some image p col :
  color_key image p = Some col ↔
  pixelColor image p.1 p.2 = col ∧ col ≠ black ∧ col ≠ white.
Proof.
  unfold color_key. case_bool_decide as Hc.
  - split; [by intros [= <-] | by intros [-> _]].
  - split; [done|]. intros [<- ?]. tauto.
Qed.

(** ** The order of the keys of a grouping *)

Section first_occurrences.
Context {K : Type} `{EqDecision K}.
Implicit Types (d : list (K * list point)) (key : point → option K).

Lemma elem_of_first_occurrences (k : K) (l : list K) :
  k ∈ first_occurrences l ↔ k ∈ l.
Proof.
  induction l as [|k' l IH]; cbn [first_occurrences]; [done|].
  rewrite !elem_of_cons, list_elem_of_filter, IH.
  destruct (decide (k = k')); tauto.
Qed.

Lemma NoDup_first_occurrences (l : list K) : NoDup (first_occurrences l).
Proof.
  induction l as [|k l IH]; cbn [first_occurrences]; [constructor|].
  apply NoDup_cons. split; [|by apply NoDup_filter].
  by intros [? _]%list_elem_of_filter.
Qed.

Lemma group_scan_keys key scan : ∀ d,
  map fst (group_scan key d scan)
  = map fst d
    ++ filter (λ k, k ∉ map fst d) (first_occurrences (omap key scan)).
Proof.
  unfold group_scan.
  induction scan as [|p scan IH]; intros d; cbn [foldl omap list_omap].
  - by rewrite app_nil_r.
  - destruct (key p) as [k|] eqn:Hp; [|apply IH].
    rewrite IH, dict_append_keys. cbn [first_occurrences].
    destruct (decide (k ∈ map fst d)) as [Hin | Hin].
    + rewrite filter_cons_False by tauto. rewrite list_filter_filter.
      f_equal. apply list_filter_iff. intros k'. split; [|tauto].
      intros Hk'. split; [done|]. by intros ->.
    + rewrite filter_cons_True by done. rewrite list_filter_filter.
      rewrite <- (assoc_L (++)). f_equal. cbn [app]. f_equal.
      apply list_filter_iff. intros k'.
      rewrite elem_of_app, list_elem_of_singleton. tauto.
Qed.

End first_occurrences.

Example first_occurrences_of_list :
  first_occurrences [3; 1; 3; 2; 1] = [3; 1; 2].
Proof. reflexivity. Qed.

Lemma color_to_pixels_keys mask :
  map fst (color_to_pixels mask) = first_occurrences (mask_colors mask).
Proof.
  rewrite color_to_pixels_group_scan, group_scan_keys. cbn [map app].
  unfold mask_colors. apply filter_all.
  intros k _ Hk. by apply elem_of_nil in Hk.
Qed.

Lemma numbered_colors items : ∀ n,
  map (λ ks : Z * Segmentation, seg_color ks.2) (numbered n items)
  = map fst items.
Proof.
  induction items as [|[col ps] items IH]; intros n;
    cbn [numbered map fst snd seg_color]; [done|].
  by rewrite IH.
Qed.

Lemma load_mask_colors w h mask :
  map (λ ks : Z * Segmentation, seg_color ks.2)
      (segmentations (load_mask w h mask))
  = first_occurrences (mask_colors mask).
Proof.
  destruct (load_mask_store w h mask) as (c1 & -> & _).
  rewrite map_map, <- color_to_pixels_keys, <- (numbered_colors _ 1).
  apply map_ext. by intros [k s].
Qed.

(** X11. Loading a mask that has no label array: the ids are 1 to n in
    the order of the store and the next id is n + 1; the colours of the
    regions, in that order, are the colours of the mask other than black
    and white in the order in which the scan, rows from the top and each
    row from the left, first meets them, so that the region with id i has
    the i-th colour first met; each region is the set of the mask's
    pixels of one colour that is neither black nor white, two regions
    never have the same colour or share a pixel, and the grid agrees with
    the regions. *)
Theorem load_mask_partition w h mask :
  let c := load_mask w h mask in
  dict_keys (segmentations c)
  = map Z.of_nat (seq 1 (length (segmentations c)))
  ∧ next_seg_id c = Z.of_nat (length (segmentations c)) + 1
  ∧ map (λ ks : Z * Segmentation, seg_color ks.2) (segmentations c)
    = first_occurrences (mask_colors mask)
  ∧ (∀ id s, (id, s) ∈ segmentations c →
       first_occurrences (mask_colors mask) !! Z.to_nat (id - 1)
       = Some (seg_color s))
  ∧ (∀ id s, (id, s) ∈ segmentations c →
       seg_color s ≠ black ∧ seg_color s ≠ white
       ∧ ∀ x y, (x, y) ∈ pixels s ↔
           inside (width mask) (height mask) x y = true
           ∧ pixelColor mask x y = seg_color s)
  ∧ (∀ x y, inside (width mask) (height mask) x y = true →
       pixelColor mask x y ≠ black → pixelColor mask x y ≠ white →
       ∃ id s, (id, s) ∈ segmentations c ∧ (x, y) ∈ pixels s)
  ∧ (∀ id1 s1 id2 s2,
       (id1, s1) ∈ segmentations c → (id2, s2) ∈ segmentations c →
       seg_color s1 = seg_color s2 → id1 = id2)
  ∧ regions_disjoint (segmentations c)
  ∧ grid_region_consistent c.
Proof.
  intros c. subst c.
  pose proof (color_to_pixels_grouped mask) as Hg.
  assert (Hpix : ∀ id s, (id, s) ∈ segmentations (load_mask w h mask) →
            seg_color s ≠ black ∧ seg_color s ≠ white
            ∧ ∀ x y, (x, y) ∈ pixels s ↔
                inside (width mask) (height mask) x y = true
                ∧ pixelColor mask x y = seg_color s).
  { intros id s (i & Hi & _)%elem_of_load_mask.
    apply list_elem_of_lookup_2 in Hi.
    pose proof Hg as (_ & Hd & _). destruct (Hd _ _ Hi) as [Hne Heq].
    assert (Hcol : seg_color s ≠ black ∧ seg_color s ≠ white).
    { assert (∃ q, q ∈ pixels s) as [q Hq].
      { destruct (pixels s) as [|q ps]; [done|]. exists q. by left. }
      apply (grouped_elem _ _ _ _ _ q Hg Hi) in Hq as [_ Hq].
      by apply color_key_Some in Hq as (_ & ? & ?). }
    split; [tauto|]. split; [tauto|]. intros x y.
    rewrite (grouped_elem _ _ _ _ _ (x, y) Hg Hi), elem_of_row_major,
      color_key_Some, inside_spec. unfold width, height. simpl. tauto. }
  assert (Hcolor : ∀ id1 s1 id2 s2,
            (id1, s1) ∈ segmentations (load_mask w h mask) →
            (id2, s2) ∈ segmentations (load_mask w h mask) →
            seg_color s1 = seg_color s2 → id1 = id2).
  { intros id1 s1 id2 s2 (i & Hi & ->)%elem_of_load_mask
      (j & Hj & ->)%elem_of_load_mask Hc. rewrite Hc in Hi.
    pose proof Hg as (Hnd & _).
    by rewrite (NoDup_fst_lookup _ _ _ _ _ _ Hnd Hi Hj). }
  assert (Hdis : regions_disjoint (segmentations (load_mask w h mask))).
  { intros id1 s1 id2 s2 [x y] H1 H2 Hp1 Hp2.
    apply (Hcolor id1 s1 id2 s2 H1 H2).
    apply Hpix in H1 as (_ & _ & H1). apply Hpix in H2 as (_ & _ & H2).
    apply H1 in Hp1 as [_ <-]. by apply H2 in Hp2 as [_ <-]. }
  destruct (load_mask_store w h mask) as (c1 & Hs & Hn).
  assert (Hkeys : dict_keys (segmentations (load_mask w h mask))
                  = map Z.of_nat
                      (seq 1 (length (segmentations (load_mask w h mask))))).
  { rewrite Hs. unfold dict_keys. rewrite map_map, length_map.
    rewrite (map_ext _ fst) by by intros [].
    rewrite numbered_keys.
    assert (Hlen : ∀ items n, length (numbered n items) = length items).
    { induction items as [|[] items IH]; intros n; simpl; [done|].
      by rewrite IH. }
    rewrite Hlen, <- seq_shift, map_map. apply map_ext. intros i. lia. }
  split; [done|]. split.
  { rewrite Hn, Hs, length_map.
    assert (Hlen : ∀ items n, length (numbered n items) = length items).
    { induction items as [|[] items IH]; intros n; simpl; [done|].
      by rewrite IH. }
    rewrite Hlen. lia. }
  split; [apply load_mask_colors|]. split.
  { intros id s (i & Hi & ->)%elem_of_load_mask.
    rewrite <- color_to_pixels_keys, list_lookup_fmap.
    replace (Z.to_nat (1 + Z.of_nat i - 1)) with i by lia.
    by rewrite Hi. }
  split; [done|]. split.
  { intros x y Hin Hb Hw.
    destruct (grouped_filed (color_key mask) _ _ (x, y)
                (pixelColor mask x y) Hg) as (ps & Hps & Hp).
    - apply elem_of_row_major. by apply inside_spec in Hin.
    - by apply color_key_Some.
    - apply list_elem_of_lookup_1 in Hps as (i & Hi).
      destruct (load_mask_has_group w h mask i _ _ Hi) as (s & Hs' & _ & <-).
      eauto. }
  split; [done|]. split; [done|].
  apply last_owner_consistent.
  - apply grid_last_owner_load_mask.
  - apply (canvas_wf_load_mask w h mask).
  - done.
  - intros id s (i & _ & ->)%elem_of_load_mask. lia.
Qed.

(** ** The regions of a mask loaded with its label array *)

Lemma label_key_Some (labels_array : np.ndarray Z) p k :
  label_key labels_array p = Some k ↔
  np.get 0 labels_array p.2 p.1 = k ∧ 0 < k.
Proof.
  unfold label_key. destruct (_ >? 0) eqn:Hpos.
  - split; [intros [= <-]; lia | by intros [-> _]].
  - split; [done | intros [<- ?]; lia].
Qed.

Lemma elem_of_row_major_array {A} (a : np.ndarray A) x y :
  (x, y) ∈ row_major (Z.to_nat (np.width a)) (Z.to_nat (np.height a)) ↔
  0 ≤ x < np.width a ∧ 0 ≤ y < np.height a.
Proof. rewrite elem_of_row_major. unfold np.width, np.height. lia. Qed.

Lemma create_labelled_store random_color items : ∀ c,
  NoDup (map fst items) →
  Forall (λ g : Z * list point, g.2 ≠ []) items →
  (∀ k, k ∈ map fst items → k ∉ dict_keys (segmentations c)) →
  foldl (create_labelled random_color) c items
  = set_next_seg_id
      (set_segmentations c
         (segmentations c ++ map (labelled_region random_color) items))
      (foldl (λ n (g : Z * list point), if g.1 >=? n then g.1 + 1 else n)
             (next_seg_id c) items).
Proof.
  induction items as [|[label ps] items IH]; intros c Hnd Hne Hfresh;
    cbn [foldl map fst].
  - rewrite app_nil_r. by destruct c.
  - apply NoDup_cons in Hnd as [Hl Hnd]. apply Forall_cons in Hne as [Hps Hne].
    rewrite IH; [|done|done|].
    + unfold create_labelled. simpl in Hps.
      destruct ps as [|p ps]; [done|]. cbn [length Nat.ltb Nat.leb].
      rewrite dict_set_fresh by (apply Hfresh; by left).
      cbn [next_seg_id set_segmentations].
      destruct (label >=? next_seg_id c); cbn [segmentations next_seg_id
        set_segmentations set_next_seg_id fst];
        rewrite <- (assoc_L (++)); by destruct c.
    + intros k Hk. unfold create_labelled. simpl in Hps.
      destruct ps as [|p ps]; [done|]. cbn [length Nat.ltb Nat.leb].
      assert (Hkk : k ∉ dict_keys
                (dict_set label
                   {| seg_id := label; seg_color := random_color label;
                      pixels := p :: ps; border_pixels := [] |}
                   (segmentations c))).
      { rewrite dict_keys_set. destruct (decide _).
        - apply Hfresh. by right.
        - intros [Hin | ->%list_elem_of_singleton]%elem_of_app; [|done].
          revert Hin. apply Hfresh. by right. }
      cbv zeta. cbn [next_seg_id set_segmentations].
      destruct (label >=? next_seg_id c); exact Hkk.
Qed.

Lemma labelled_next (items : list (Z * list point)) : ∀ n,
  let n' := foldl (λ n (g : Z * list point),
                     if g.1 >=? n then g.1 + 1 else n) n items in
  n ≤ n' ∧ ∀ k, k ∈ map fst items → k < n'.
Proof.
  induction items as [|[label ps] items IH]; intros n; cbn [foldl map fst].
  - split; [lia | by intros k ?%elem_of_nil].
  - destruct (IH (if label >=? n then label + 1 else n)) as [Hle Hk].
    cbv zeta in *. split; [destruct (label >=? n) eqn:E; lia|].
    intros k [-> | Hin]%elem_of_cons; [|by apply Hk].
    destruct (label >=? n) eqn:E; lia.
Qed.

Lemma labelled_next_le (items : list (Z * list point)) B : ∀ n,
  n ≤ B → (∀ k, k ∈ map fst items → k < B) →
  foldl (λ n (g : Z * list point), if g.1 >=? n then g.1 + 1 else n) n items
  ≤ B.
Proof.
  induction items as [|[label ps] items IH]; intros n Hn Hk;
    cbn [foldl map fst]; [done|].
  apply IH.
  - assert (label < B) by (apply Hk; by left).
    destruct (label >=? n); lia.
  - intros k Hin. apply Hk. by right.
Qed.

Lemma load_labels_store w h mask random_color (labels_array : np.ndarray Z) :
  ∃ c1,
    original_width c1 = w ∧ original_height c1 = h
    ∧ pixel_labels c1 = Some labels_array
    ∧ load_mask_with_labels w h mask random_color labels_array
      = set_segmentations c1
          (map (λ '(k, segmentation),
                  (k, compute_segmentation_borders c1 segmentation))
               (map (labelled_region random_color)
                    (label_to_pixels labels_array)))
    ∧ next_seg_id c1
      = foldl (λ n (g : Z * list point), if g.1 >=? n then g.1 + 1 else n)
              1 (label_to_pixels labels_array)
    ∧ selected_segmentations c1 = []
    ∧ undo_stack c1 = [] ∧ redo_stack c1 = [].
Proof.
  unfold load_mask_with_labels, extract_segmentations_from_labels. cbv zeta.
  pose proof (label_to_pixels_grouped labels_array) as Hg.
  rewrite create_labelled_store.
  - eexists. split; [|split; [|split; [|split; [reflexivity|]]]]; done.
  - apply Hg.
  - by apply (grouped_nonempty _ _ _ Hg).
  - intros k _. by intros ?%elem_of_nil.
Qed.

Lemma elem_of_load_labels w h mask random_color
    (labels_array : np.ndarray Z) id s :
  (id, s)
  ∈ segmentations (load_mask_with_labels w h mask random_color labels_array)
  → seg_id s = id ∧ seg_color s = random_color id
    ∧ (id, pixels s) ∈ label_to_pixels labels_array.
Proof.
  destruct (load_labels_store w h mask random_color labels_array)
    as (c1 & _ & _ & _ & -> & _). cbn [segmentations set_segmentations].
  rewrite map_map.
  intros ([k ps] & [= -> ->] & Hin)%list_elem_of_fmap. done.
Qed.

Lemma load_labels_has_group w h mask random_color
    (labels_array : np.ndarray Z) id ps :
  (id, ps) ∈ label_to_pixels labels_array →
  ∃ s, (id, s)
       ∈ segmentations
           (load_mask_with_labels w h mask random_color labels_array)
       ∧ pixels s = ps.
Proof.
  intros Hin.
  destruct (load_labels_store w h mask random_color labels_array)
    as (c1 & _ & _ & _ & -> & _). cbn [segmentations set_segmentations].
  rewrite map_map.
  exists (compute_segmentation_borders c1
            (labelled_region random_color (id, ps)).2).
  split; [|done]. apply list_elem_of_fmap. by exists (id, ps).
Qed.

Lemma load_labels_entry w h mask random_color
    (labels_array : np.ndarray Z) id s :
  (id, s)
  ∈ segmentations (load_mask_with_labels w h mask random_color labels_array)
  → seg_id s = id ∧ 0 < id ∧ seg_color s = random_color id
    ∧ ∀ x y, (x, y) ∈ pixels s ↔
        (0 ≤ x < np.width labels_array ∧ 0 ≤ y < np.height labels_array)
        ∧ np.get 0 labels_array y x = id.
Proof.
  pose proof (label_to_pixels_grouped labels_array) as Hg.
  intros (Hid & Hcol & Hin)%elem_of_load_labels.
  assert (Hxy : ∀ x y, (x, y) ∈ pixels s ↔
            (0 ≤ x < np.width labels_array
             ∧ 0 ≤ y < np.height labels_array)
            ∧ np.get 0 labels_array y x = id ∧ 0 < id).
  { intros x y.
    by rewrite (grouped_elem _ _ _ _ _ (x, y) Hg Hin),
      elem_of_row_major_array, label_key_Some. }
  assert (∃ q, q ∈ pixels s) as [[qx qy] Hq].
  { pose proof Hg as (_ & Hd & _). destruct (Hd _ _ Hin) as [Hne _].
    destruct (pixels s) as [|q ps]; [done|]. exists q. by left. }
  apply Hxy in Hq as (_ & _ & Hpos).
  split; [done|]. split; [done|]. split; [done|].
  intros x y. rewrite Hxy. tauto.
Qed.

Lemma regions_disjoint_load_labels w h mask random_color
    (labels_array : np.ndarray Z) :
  regions_disjoint
    (segmentations
       (load_mask_with_labels w h mask random_color labels_array)).
Proof.
  intros id1 s1 id2 s2 [x y] H1 H2 Hp1 Hp2.
  apply load_labels_entry in H1 as (_ & _ & _ & H1).
  apply load_labels_entry in H2 as (_ & _ & _ & H2).
  apply H1 in Hp1 as [_ <-]. by apply H2 in Hp2 as [_ <-].
Qed.

Lemma next_seg_id_load_labels w h mask random_color
    (labels_array : np.ndarray Z) :
  1 ≤ next_seg_id (load_mask_with_labels w h mask random_color labels_array).
Proof.
  destruct (load_labels_store w h mask random_color labels_array)
    as (c1 & _ & _ & _ & -> & Hn & _).
  destruct (labelled_next (label_to_pixels labels_array) 1) as [Hle _].
  cbv zeta in Hle. by rewrite <- Hn in Hle.
Qed.

Lemma canvas_wf_load_labels w h mask random_color
    (labels_array : np.ndarray Z) :
  canvas_wf (load_mask_with_labels w h mask random_color labels_array).
Proof.
  pose proof (label_to_pixels_grouped labels_array) as Hg.
  set (c := load_mask_with_labels w h mask random_color labels_array).
  destruct (load_labels_store w h mask random_color labels_array)
    as (c1 & Hw & Hh & Hl & Hc & Hn & Hsel & Hundo & Hredo). fold c in Hc.
  destruct (labelled_next (label_to_pixels labels_array) 1) as [Hle Hlt].
  cbv zeta in Hle, Hlt. rewrite <- Hn in Hle, Hlt.
  assert (Hkeys : dict_keys (segmentations c)
                  = map fst (label_to_pixels labels_array)).
  { rewrite Hc. cbn [segmentations set_segmentations]. unfold dict_keys.
    rewrite !map_map. apply map_ext. by intros []. }
  split; [|by rewrite Hc; cbn; rewrite Hundo, Hredo].
  apply store_wf_intro.
  - rewrite Hkeys. apply Hg.
  - apply Forall_forall. intros [id s] Hin.
    pose proof (load_labels_entry _ _ _ _ _ _ _ Hin) as (Hid & _ & _ & _).
    pose proof Hin as (_ & _ & Hgrp)%elem_of_load_labels.
    split; [done|]. split.
    + cbn [fst snd]. rewrite Hid.
      assert (Hnc : next_seg_id c = next_seg_id c1) by by rewrite Hc.
      rewrite Hnc. apply Hlt. apply list_elem_of_fmap.
      by exists (id, pixels s).
    + pose proof Hg as (_ & Hd & _). by destruct (Hd _ _ Hgrp).
  - rewrite Hc. cbn. rewrite Hsel. constructor.
Qed.

(** X12. Loading a mask with its label array: the grid is the array as
    loaded; every positive label of the array becomes one region filed
    under the label as its id, whose pixels are the cells of the array
    that hold the label; no id is filed twice, no region is empty and
    two regions share no pixel. *)
Theorem load_labels_regions w h mask random_color
    (labels_array : np.ndarray Z) :
  let c := load_mask_with_labels w h mask random_color labels_array in
  pixel_labels c = Some labels_array
  ∧ (∀ id s, (id, s) ∈ segmentations c →
       seg_id s = id ∧ 0 < id ∧ seg_color s = random_color id
       ∧ ∀ x y, (x, y) ∈ pixels s ↔
           (0 ≤ x < np.width labels_array ∧ 0 ≤ y < np.height labels_array)
           ∧ np.get 0 labels_array y x = id)
  ∧ (∀ x y, 0 ≤ x < np.width labels_array →
       0 ≤ y < np.height labels_array →
       0 < np.get 0 labels_array y x →
       ∃ s, (np.get 0 labels_array y x, s) ∈ segmentations c
            ∧ (x, y) ∈ pixels s)
  ∧ regions_disjoint (segmentations c)
  ∧ NoDup (dict_keys (segmentations c))
  ∧ Forall (λ ks, pixels ks.2 ≠ []) (segmentations c).
Proof.
  intros c. subst c.
  pose proof (label_to_pixels_grouped labels_array) as Hg.
  split.
  { destruct (load_labels_store w h mask random_color labels_array)
      as (c1 & _ & _ & Hl & -> & _). done. }
  split; [intros id s; apply load_labels_entry|]. split.
  { intros x y Hx Hy Hpos.
    destruct (grouped_filed (label_key labels_array) _ _ (x, y)
                (np.get 0 labels_array y x) Hg) as (ps & Hps & Hp).
    - by apply elem_of_row_major_array.
    - by apply label_key_Some.
    - destruct (load_labels_has_group w h mask random_color labels_array
                  _ _ Hps) as (s & Hs & <-). eauto. }
  split; [apply regions_disjoint_load_labels|].
  pose proof (canvas_wf_load_labels w h mask random_color labels_array)
    as [Hwf _].
  split; apply Hwf.
Qed.

(** ** The grid of a mask loaded with its label array *)

Lemma shaped_bounds {A} h w (a : np.ndarray A) x y :
  shaped h w a →
  (0 ≤ x < np.width a ∧ 0 ≤ y < np.height a)
  ↔ (0 ≤ x < Z.of_nat w ∧ 0 ≤ y < Z.of_nat h).
Proof.
  intros Hs. pose proof (inside_spec (Z.of_nat w) (Z.of_nat h) x y) as Hi.
  rewrite <- (inside_shaped h w a x y Hs), !andb_true_iff in Hi. lia.
Qed.

Lemma np_get_nonneg (a : np.ndarray Z) y x :
  Forall (Forall (λ v, 0 ≤ v)) a → 0 ≤ np.get 0 a y x.
Proof.
  intros Ha. unfold np.get.
  destruct (a !! Z.to_nat y) as [row|] eqn:Hy; simpl; [|lia].
  destruct (row !! Z.to_nat x) as [v|] eqn:Hx; simpl; [|lia].
  apply (proj1 (Forall_lookup _ _) Ha) in Hy.
  by apply (proj1 (Forall_lookup _ _) Hy) in Hx.
Qed.

Lemma shaped_ext {A} (d : A) h w (a b : np.ndarray A) :
  shaped h w a → shaped h w b →
  (∀ x y, 0 ≤ x < Z.of_nat w → 0 ≤ y < Z.of_nat h →
     np.get d a y x = np.get d b y x) →
  a = b.
Proof.
  intros [Ha Hra] [Hb Hrb] Hget. apply list_eq. intros i.
  destruct (decide (i < h)%nat) as [Hi | Hi].
  - destruct (lookup_lt_is_Some_2 a i) as [ra Hia]; [lia|].
    destruct (lookup_lt_is_Some_2 b i) as [rb Hib]; [lia|].
    rewrite Hia, Hib. f_equal.
    pose proof (proj1 (Forall_lookup _ _) Hra _ _ Hia) as Hla.
    pose proof (proj1 (Forall_lookup _ _) Hrb _ _ Hib) as Hlb.
    simpl in Hla, Hlb.
    apply list_eq. intros j.
    destruct (decide (j < w)%nat) as [Hj | Hj].
    + destruct (lookup_lt_is_Some_2 ra j) as [va Hja]; [lia|].
      destruct (lookup_lt_is_Some_2 rb j) as [vb Hjb]; [lia|].
      rewrite Hja, Hjb. f_equal.
      pose proof (Hget (Z.of_nat j) (Z.of_nat i)) as Hg.
      unfold np.get in Hg. rewrite !Nat2Z.id, Hia, Hib in Hg. simpl in Hg.
      rewrite Hja, Hjb in Hg. simpl in Hg. apply Hg; lia.
    + rewrite !lookup_ge_None_2; [done | lia | lia].
  - rewrite !lookup_ge_None_2; [done | lia | lia].
Qed.

Lemma set_pixel_labels_id c : set_pixel_labels c (pixel_labels c) = c.
Proof. by destruct c. Qed.

(** The border by the grid alone, where the grid holds the region's id on
    the region's pixels. *)
Lemma border_by_label_compute c segmentation :
  (∀ x y, in_grid c x y → (x, y) ∈ pixels segmentation →
     get_pixel_label (pixel_labels c) x y = seg_id segmentation) →
  border_pixels (compute_segmentation_borders c segmentation)
  = border_by_label c segmentation.
Proof.
  intros Hown. rewrite border_pixels_compute. unfold border_by_label.
  apply list_filter_iff. intros [px py].
  rewrite !Is_true_true, is_border_pixel_spec, existsb_exists.
  cbn [fst snd]. split.
  - intros (n & Hn & Hgrid & _ & Hlab). exists n.
    rewrite elem_of_In. split; [done|].
    apply andb_true_iff. split; [by apply inside_spec|].
    apply negb_true_iff. lia.
  - intros (n & Hn & Hb). exists n.
    apply andb_true_iff in Hb as [Hin Hlab].
    apply inside_spec in Hin. apply negb_true_iff in Hlab.
    rewrite <- elem_of_In. split; [done|]. split; [done|].
    assert (Hne : get_pixel_label (pixel_labels c) n.1 n.2
                  ≠ seg_id segmentation) by lia.
    split; [|done]. intros Hp. apply Hne, Hown; [done|]. by destruct n.
Qed.


(** ** Counting labels *)

Lemma elem_of_np_unique values v : v ∈ np_unique values ↔ v ∈ values.
Proof.
  unfold np_unique. by rewrite merge_sort_Permutation, elem_of_remove_dups.
Qed.

Lemma NoDup_np_unique values : NoDup (np_unique values).
Proof.
  unfold np_unique. rewrite merge_sort_Permutation. apply NoDup_remove_dups.
Qed.

Lemma elem_of_concat_array {A} (d : A) h w (a : np.ndarray A) v :
  shaped h w a →
  v ∈ concat a ↔
  ∃ x y, (0 ≤ x < Z.of_nat w ∧ 0 ≤ y < Z.of_nat h) ∧ np.get d a y x = v.
Proof.
  intros [Hh Hrows]. rewrite elem_of_concat. split.
  - intros (row & Hv & Hrow).
    apply list_elem_of_lookup_1 in Hrow as (i & Hi).
    apply list_elem_of_lookup_1 in Hv as (j & Hj).
    pose proof (proj1 (Forall_lookup _ _) Hrows _ _ Hi) as Hlen.
    simpl in Hlen.
    pose proof (lookup_lt_Some _ _ _ Hi). pose proof (lookup_lt_Some _ _ _ Hj).
    exists (Z.of_nat j), (Z.of_nat i). split; [lia|].
    unfold np.get. rewrite !Nat2Z.id, Hi. simpl. by rewrite Hj.
  - intros (x & y & [Hx Hy] & Hget).
    destruct (lookup_lt_is_Some_2 a (Z.to_nat y)) as [row Hi]; [lia|].
    pose proof (proj1 (Forall_lookup _ _) Hrows _ _ Hi) as Hlen.
    simpl in Hlen.
    destruct (lookup_lt_is_Some_2 row (Z.to_nat x)) as [v' Hj]; [lia|].
    unfold np.get in Hget. rewrite Hi in Hget. simpl in Hget.
    rewrite Hj in Hget. simpl in Hget. subst v'.
    exists row. split; by eapply list_elem_of_lookup_2.
Qed.

(** X14. The script and the editor agree: for a rectangular label array
    without negative labels, the number of non-zero unique values that
    [analyze_npy.py] reports is the number of regions the editor creates
    when it loads the array. *)
Theorem count_matches_loaded_regions w h mask random_color
    (labels_array : np.ndarray Z) :
  shaped h w labels_array →
  Forall (Forall (λ v, 0 ≤ v)) labels_array →
  count_nonzero_unique_values (Some labels_array)
  = Some (length
            (segmentations
               (load_mask_with_labels w h mask random_color labels_array))).
Proof.
  intros Hshape Hpos. unfold count_nonzero_unique_values. cbv zeta. f_equal.
  set (c := load_mask_with_labels w h mask random_color labels_array).
  pose proof (label_to_pixels_grouped labels_array) as Hg.
  rewrite <- (length_map fst (segmentations c)).
  apply Permutation_length, NoDup_Permutation.
  - apply NoDup_filter, NoDup_np_unique.
  - destruct (load_labels_store w h mask random_color labels_array)
      as (c1 & _ & _ & _ & Hc & _). fold c in Hc. rewrite Hc.
    cbn [segmentations set_segmentations]. rewrite !map_map.
    rewrite (map_ext _ fst) by by intros []. apply Hg.
  - intros v. rewrite list_elem_of_filter, elem_of_np_unique,
      (elem_of_concat_array 0 h w) by done.
    change (map fst (segmentations c)) with (dict_keys (segmentations c)).
    rewrite elem_of_dict_keys. split.
    + intros [Hne (x & y & Hin & Hget)].
      pose proof (np_get_nonneg labels_array y x Hpos) as Hge.
      destruct (grouped_filed (label_key labels_array) _ _ (x, y) v Hg)
        as (ps & Hps & _).
      * apply elem_of_row_major_array. by apply (shaped_bounds h w).
      * apply label_key_Some. cbn [fst snd]. split; [done | lia].
      * destruct (load_labels_has_group w h mask random_color labels_array
                    _ _ Hps) as (s & Hs & _). by exists s.
    + intros (s & (_ & _ & Hin)%elem_of_load_labels).
      assert (∃ q, q ∈ pixels s) as [[x y] Hq].
      { pose proof Hg as (_ & Hd & _). destruct (Hd _ _ Hin) as [Hne _].
        destruct (pixels s) as [|q ps]; [done|]. exists q. by left. }
      apply (grouped_elem _ _ _ _ _ (x, y) Hg Hin) in Hq as [Hs Hk].
      apply elem_of_row_major_array, (shaped_bounds h w) in Hs; [|done].
      apply label_key_Some in Hk as [Hk Hv]. cbn [fst snd] in Hk.
      split; [lia|]. by exists x, y.
Qed.

Lemma count_matches_loaded_regions_witness :
  count_nonzero_unique_values (Some diagonal_labels)
  = Some (length
            (segmentations
               (load_mask_with_labels 2 2 img3 (λ _, (40, 50, 60))
                  diagonal_labels))).
Proof.
  apply (count_matches_loaded_regions 2 2 img3 (λ _, (40, 50, 60))
           diagonal_labels).
  - split; [reflexivity|]. repeat constructor.
  - repeat constructor; lia.
Defined.

(** A negative label counts for the script and gives the editor no
    region. *)
Example count_negative_label :
  count_nonzero_unique_values (Some negative_labels) = Some 2%nat
  ∧ length (segmentations
              (load_mask_with_labels 2 1 dark_mask (λ _, (40, 50, 60))
                 negative_labels)) = 1%nat.
Proof. split; vm_compute; reflexivity. Qed.

(** ** The statistics of the grid *)

Lemma filter_ext_elem {A} (P Q : A → Prop) `{∀ x, Decision (P x)}
    `{∀ x, Decision (Q x)} (l : list A) :
  (∀ x, x ∈ l → P x ↔ Q x) → filter P l = filter Q l.
Proof.
  induction l as [|x l IH]; intros Hl; [done|].
  assert (Hx : P x ↔ Q x) by (apply Hl; by left).
  assert (Htl : filter P l = filter Q l).
  { apply IH. intros y Hy. apply Hl. by right. }
  destruct (decide (P x)) as [HP | HP].
  - rewrite !filter_cons_True by tauto. by rewrite Htl.
  - rewrite !filter_cons_False by tauto. done.
Qed.

Lemma count_sum (U L : list Z) :
  NoDup U →
  sum_Z (map (λ v, Z.of_nat (length (filter (λ x, x = v) L))) U)
  = Z.of_nat (length (filter (λ x, x ∈ U) L)).
Proof.
  induction U as [|u U IH]; intros Hnd; cbn [map sum_Z foldr].
  - rewrite filter_none; [done|]. by intros x _ ?%elem_of_nil.
  - apply NoDup_cons in Hnd as [Hu Hnd]. fold (sum_Z
      (map (λ v, Z.of_nat (length (filter (λ x, x = v) L))) U)).
    rewrite IH by done. clear IH.
    induction L as [|x L IHL]; [done|].
    destruct (decide (x = u)) as [-> | Hne].
    + rewrite (filter_cons_True (λ x, x = u)) by done.
      rewrite (filter_cons_False (λ x, x ∈ U)) by done.
      rewrite (filter_cons_True (λ x, x ∈ u :: U)) by by left.
      cbn [length]. lia.
    + rewrite (filter_cons_False (λ x, x = u)) by done.
      destruct (decide (x ∈ U)) as [Hx | Hx].
      * rewrite (filter_cons_True (λ x, x ∈ U)) by done.
        rewrite (filter_cons_True (λ x, x ∈ u :: U)) by by right.
        cbn [length]. lia.
      * rewrite (filter_cons_False (λ x, x ∈ U)) by done.
        rewrite (filter_cons_False (λ x, x ∈ u :: U)); [done|].
        by intros [? | ?]%elem_of_cons.
Qed.

Lemma label_counts_map (values U : list Z) : ∀ d : list (Z * Z),
  NoDup U → (∀ v, v ∈ U → v ∉ dict_keys d) →
  foldl (λ label_counts label,
           if label >? 0 then
             dict_set label
               (Z.of_nat (length (filter (λ v, v = label) values)))
               label_counts
           else label_counts) d U
  = d ++ map (λ v, (v, Z.of_nat (length (filter (λ x, x = v) values))))
             (filter (λ v, 0 < v) U).
Proof.
  induction U as [|u U IH]; intros d Hnd Hfresh; cbn [foldl].
  - by rewrite app_nil_r.
  - apply NoDup_cons in Hnd as [Hu Hnd].
    destruct (u >? 0) eqn:Hpos.
    + rewrite filter_cons_True by lia. cbn [map].
      rewrite dict_set_fresh by (apply Hfresh; by left).
      rewrite IH; [by rewrite <- (assoc_L (++))| done |].
      intros v Hv. unfold dict_keys. rewrite map_app, elem_of_app.
      intros [Hin | ->%list_elem_of_singleton]; [|done].
      revert Hin. apply Hfresh. by right.
    + rewrite filter_cons_False by lia. apply IH; [done|].
      intros v Hv. apply Hfresh. by right.
Qed.

Lemma length_concat_shaped {A} h w (a : np.ndarray A) :
  shaped h w a → length (concat a) = (h * w)%nat.
Proof.
  intros [<- Hrows]. induction Hrows as [|row a Hrow _ IH]; [done|].
  cbn [concat length]. rewrite length_app, IH. simpl in Hrow. lia.
Qed.

(** X15. The accounting of [get_segmentation_statistics]: the labelled and the
    unlabelled pixels make up the grid, the per-label counts add up to
    the labelled pixels, there is one count per unique label, and every
    count is positive.  On a canvas whose grid is up to date the grid has
    as many cells as the image has pixels and every counted label is the
    id of a stored region. *)
Theorem statistics_accounting c :
  let st := get_segmentation_statistics c in
  total_pixels st = labeled_pixels st + unlabeled_pixels st
  ∧ 0 ≤ labeled_pixels st ≤ total_pixels st
  ∧ sum_Z (map snd (label_counts st)) = labeled_pixels st
  ∧ Z.of_nat (length (label_counts st)) = unique_labels st
  ∧ (∀ label count, (label, count) ∈ label_counts st →
       0 < label ∧ 0 < count)
  ∧ (grid_last_owner c →
     (pixel_labels c ≠ None →
      total_pixels st
      = Z.of_nat (original_width c) * Z.of_nat (original_height c))
     ∧ ∀ label, label ∈ dict_keys (label_counts st) →
         label ∈ dict_keys (segmentations c)).
Proof.
  intros st. subst st. unfold get_segmentation_statistics.
  destruct (pixel_labels c) as [labels|] eqn:Hl; cbv zeta;
    cbn [total_pixels labeled_pixels unlabeled_pixels unique_labels
         label_counts].
  2: { split; [done|]. split; [done|]. split; [done|]. split; [done|].
       split; [by intros label count ?%elem_of_nil|].
       intros _. split; [done|]. by intros label ?%elem_of_nil. }
  set (values := concat labels).
  rewrite (label_counts_map values (np_unique values) []);
    [|apply NoDup_np_unique | by intros v _ ?%elem_of_nil].
  cbn [app]. set (U := filter (λ v, 0 < v) (np_unique values)).
  assert (HU : ∀ v, v ∈ U ↔ 0 < v ∧ v ∈ values).
  { intros v. unfold U. by rewrite list_elem_of_filter, elem_of_np_unique. }
  assert (HndU : NoDup U) by apply NoDup_filter, NoDup_np_unique.
  split; [lia|]. split.
  { split; [lia|]. pose proof (length_filter (λ v, 0 < v) values). lia. }
  split.
  { rewrite map_map. cbn [snd]. rewrite count_sum by done. do 2 f_equal.
    apply filter_ext_elem. intros x Hx. rewrite HU. tauto. }
  split.
  { rewrite length_map. f_equal. apply Permutation_length, NoDup_Permutation;
      [done | apply NoDup_np_unique |].
    intros v. rewrite HU, elem_of_np_unique, list_elem_of_filter. tauto. }
  split.
  { intros label count (v & Heq & Hv)%list_elem_of_fmap.
    injection Heq as -> ->.
    apply HU in Hv as [Hpos Hin]. split; [done|].
    rename v into label.
    assert (Hf : label ∈ filter (λ x, x = label) values)
      by by apply list_elem_of_filter.
    destruct (filter (λ x, x = label) values); [|simpl; lia].
    by apply elem_of_nil in Hf. }
  intros [Hshape Hgrid]. pose proof (Hshape _ Hl) as Hs. split.
  { intros _. unfold values. rewrite (length_concat_shaped _ _ _ Hs). lia. }
  intros label (count & Hin)%elem_of_dict_keys.
  apply list_elem_of_fmap in Hin as (v & Heq & Hv).
  injection Heq as -> ->. rename v into label.
  apply HU in Hv as [Hpos Hin]. unfold values in Hin.
  apply (elem_of_concat_array 0 _ _ _ _ Hs) in Hin as (x & y & Hin & Hget).
  assert (Hxy : in_grid c x y) by (unfold in_grid; lia).
  specialize (Hgrid x y Hxy). rewrite Hl in Hgrid.
  rewrite (get_pixel_label_inside _ _ _ _ _ Hs) in Hgrid by lia.
  destruct (last_owner_key (segmentations c) (x, y)) as [H0 | Hk]; [lia|].
  by rewrite <- Hgrid, Hget in Hk.
Qed.

(** The statistics of a 2 by 2 canvas after a fill of the whole image
    and of a canvas that has no grid yet. *)
Example statistics_after_fill :
  get_segmentation_statistics
    (flood_fill_at_position (40, 50, 60) 0 0 (create_blank_mask 2 2))
  = {| total_pixels := 4; labeled_pixels := 4; unlabeled_pixels := 0;
       unique_labels := 1; label_counts := [(1, 4)] |}
  ∧ get_segmentation_statistics (create_blank_mask 2 2)
    = {| total_pixels := 0; labeled_pixels := 0; unlabeled_pixels := 0;
         unique_labels := 0; label_counts := [] |}.
Proof. split; vm_compute; reflexivity. Qed.

(** ** The selection overlay *)

Lemma shaped_mark_borders h w W H (g : np.ndarray Z) pix :
  shaped h w g → shaped h w (mark_borders W H g pix).
Proof.
  unfold mark_borders. revert g.
  induction pix as [|[px py] pix IH]; intros g Hg; cbn [foldl]; [done|].
  apply IH. destruct (_ && _); [by apply shaped_set | done].
Qed.

Lemma get_mark_borders h w (g : np.ndarray Z) pix x y :
  shaped h w g → 0 ≤ x < Z.of_nat w → 0 ≤ y < Z.of_nat h →
  np.get 0 (mark_borders (Z.of_nat w) (Z.of_nat h) g pix) y x
  = if bool_decide ((x, y) ∈ pix) then 255 else np.get 0 g y x.
Proof.
  intros Hg Hx Hy. unfold mark_borders. revert g Hg.
  induction pix as [|[px py] pix IH]; intros g Hg; cbn [foldl].
  - by rewrite bool_decide_eq_false_2 by by intros ?%elem_of_nil.
  - rewrite IH by (destruct (_ && _); [by apply shaped_set | done]).
    destruct (decide ((x, y) ∈ pix)) as [Hin | Hin].
    + rewrite !bool_decide_eq_true_2; [done | by right | done].
    + rewrite (bool_decide_eq_false_2 _ Hin).
      destruct (decide ((x, y) = (px, py))) as [[= -> ->] | Hne].
      * rewrite bool_decide_eq_true_2 by by left.
        replace ((px >=? 0) && (px <? Z.of_nat w) && (py >=? 0)
                 && (py <? Z.of_nat h)) with true by lia.
        apply np_get_set_eq. by apply (shaped_has_cell h w).
      * rewrite bool_decide_eq_false_2
          by by intros [[= -> ->] | ?]%elem_of_cons.
        destruct ((px >=? 0) && (px <? Z.of_nat w) && (py >=? 0)
                  && (py <? Z.of_nat h)) eqn:Hb; [|done].
        apply np_get_set_ne; try lia. congruence.
Qed.

Lemma marked_spec segs ids p :
  marked segs ids p = true ↔
  ∃ id s, id ∈ ids ∧ dict_get id segs = Some s ∧ p ∈ border_pixels s.
Proof.
  unfold marked. rewrite existsb_exists. split.
  - intros (id & Hid & Hb). apply elem_of_In in Hid.
    destruct (dict_get id segs) as [s|] eqn:Hs; [|done].
    apply bool_decide_eq_true in Hb. by exists id, s.
  - intros (id & s & Hid & Hs & Hp). exists id. rewrite elem_of_In, Hs.
    split; [done|]. by apply bool_decide_eq_true.
Qed.

Lemma get_overlay_fold h w segs ids x y : ∀ g : np.ndarray Z,
  shaped h w g → 0 ≤ x < Z.of_nat w → 0 ≤ y < Z.of_nat h →
  let overlay :=
    foldl (λ selection_overlay seg_id,
             match dict_get seg_id segs with
             | Some segmentation =>
                 mark_borders (Z.of_nat w) (Z.of_nat h) selection_overlay
                   (border_pixels segmentation)
             | None => selection_overlay
             end) g ids in
  np.get 0 overlay y x
  = if marked segs ids (x, y) then 255 else np.get 0 g y x.
Proof.
  induction ids as [|id ids IH]; intros g Hg Hx Hy; cbn [foldl]; [done|].
  cbv zeta in *. unfold marked. cbn [existsb]. fold (marked segs ids (x, y)).
  rewrite IH; [|by destruct (dict_get id segs);
                  [apply shaped_mark_borders|] | done | done].
  destruct (marked segs ids (x, y)); [by rewrite orb_true_r|].
  rewrite orb_false_r.
  destruct (dict_get id segs) as [s|]; [|done].
  by apply get_mark_borders.
Qed.

Lemma shaped_overlay_fold h w W H segs ids : ∀ g : np.ndarray Z,
  shaped h w g →
  shaped h w
    (foldl (λ selection_overlay seg_id,
              match dict_get seg_id segs with
              | Some segmentation =>
                  mark_borders W H selection_overlay
                    (border_pixels segmentation)
              | None => selection_overlay
              end) g ids).
Proof.
  induction ids as [|id ids IH]; intros g Hg; cbn [foldl]; [done|].
  apply IH. destruct (dict_get id segs); [by apply shaped_mark_borders|done].
Qed.

(** X16. The overlay that highlights the selection: there is none without a
    grid or without a selected id; otherwise it has the shape of the
    grid and holds 255 exactly on the border pixels of the selected
    regions that are stored, and 0 elsewhere.  A selected id that is no
    longer stored marks nothing. *)
Theorem selection_overlay_spec c :
  labels_shaped c →
  match update_selection_overlay c with
  | None => pixel_labels c = None ∨ selected_segmentations c = []
  | Some overlay =>
      pixel_labels c ≠ None ∧ selected_segmentations c ≠ []
      ∧ shaped (original_height c) (original_width c) overlay
      ∧ ∀ x y, in_grid c x y →
          (np.get 0 overlay y x = 255 ↔
             ∃ s, s ∈ get_selected_segmentations c
                  ∧ (x, y) ∈ border_pixels s)
          ∧ (np.get 0 overlay y x = 0 ∨ np.get 0 overlay y x = 255)
  end.
Proof.
  intros Hshape. unfold update_selection_overlay.
  destruct (pixel_labels c) as [labels|] eqn:Hl; [|by left].
  destruct (selected_segmentations c) as [|id0 ids0] eqn:Hsel; [by right|].
  rewrite <- Hsel. cbv zeta.
  specialize (Hshape _ Hl).
  split; [done|]. split; [by rewrite Hsel|].
  rewrite (shaped_height _ _ _ Hshape), Nat2Z.id.
  split.
  { apply shaped_overlay_fold.
    destruct (original_height c) as [|h'] eqn:Hh; [by split|].
    rewrite (shaped_width _ _ _ Hshape) by lia. rewrite Nat2Z.id.
    apply shaped_zeros. }
  intros x y [Hx Hy].
  rewrite (shaped_width _ _ _ Hshape) by lia. rewrite Nat2Z.id.
  rewrite (get_overlay_fold (original_height c) (original_width c))
    by (try done; apply shaped_zeros).
  assert (Hiff : (∃ s, s ∈ get_selected_segmentations c
                       ∧ (x, y) ∈ border_pixels s)
                 ↔ marked (segmentations c) (selected_segmentations c) (x, y)
                   = true).
  { rewrite marked_spec. split.
    - intros (s & (id & Hid & Hget)%elem_of_selected_segmentations & Hp).
      by exists id, s.
    - intros (id & s & Hid & Hget & Hp). exists s. split; [|done].
      apply elem_of_selected_segmentations. by exists id. }
  rewrite Hiff.
  destruct (marked (segmentations c) (selected_segmentations c) (x, y)).
  - split; [done | by right].
  - assert (H0 : np.get 0 (np.zeros (0 : Z) (original_height c)
                             (original_width c)) y x = 0).
    { unfold np.get, np.zeros.
      rewrite lookup_replicate_2 by lia. simpl.
      by rewrite lookup_replicate_2 by lia. }
    rewrite H0. split; [done | by left].
Qed.

Lemma selection_overlay_spec_witness :
  match update_selection_overlay dark_selected with
  | None =>
      pixel_labels dark_selected = None
      ∨ selected_segmentations dark_selected = []
  | Some overlay =>
      pixel_labels dark_selected ≠ None
      ∧ selected_segmentations dark_selected ≠ []
      ∧ shaped (original_height dark_selected)
          (original_width dark_selected) overlay
      ∧ ∀ x y, in_grid dark_selected x y →
          (np.get 0 overlay y x = 255 ↔
             ∃ s, s ∈ get_selected_segmentations dark_selected
                  ∧ (x, y) ∈ border_pixels s)
          ∧ (np.get 0 overlay y x = 0 ∨ np.get 0 overlay y x = 255)
  end.
Proof.
  apply (selection_overlay_spec dark_selected).
  apply grid_last_owner_dark_selected.
Defined.

(** The overlay of the two selected one-pixel regions of [dark_selected],
    and the overlay when the only selected id is not stored any more. *)
Example overlay_of_selection :
  update_selection_overlay dark_selected = Some [[255; 255]]
  ∧ update_selection_overlay
      (run dot_painter [FloodFill (40, 50, 60) 0 0; Select 0 0 false; Undo]
         (create_blank_mask 1 1))
    = Some [[0]].
Proof. split; vm_compute; reflexivity. Qed.

(** ** Positive ids *)

Lemma ids_positive_view c c' :
  segmentations c' = segmentations c →
  next_seg_id c' = next_seg_id c →
  undo_stack c' = undo_stack c →
  redo_stack c' = redo_stack c →
  ids_positive c → ids_positive c'.
Proof. unfold ids_positive. by intros -> -> -> ->. Qed.

Lemma ids_positive_flood_fill random_color x y c :
  ids_positive c → ids_positive (flood_fill_at_position random_color x y c).
Proof.
  intros (Hn & Hs & Hu & Hr).
  destruct (is_pixel_black (mask_pixmap c) x y) eqn:Hb.
  2: { unfold flood_fill_at_position. by rewrite Hb. }
  destruct (flood_fill_at_position_black random_color x y c Hb)
    as (image & filled & _ & _ & ->). cbv zeta.
  split; [simpl; lia|]. split; [|split]; simpl.
  - by apply Forall_dict_set.
  - by constructor.
  - constructor.
Qed.

Lemma ids_positive_stroke qp remove pen p0 moves c :
  ids_positive c → ids_positive (stroke qp remove pen p0 moves c).
Proof.
  intros Hc. pose proof Hc as (Hn & Hs & Hu & Hr).
  destruct (stroke_cases qp remove pen p0 moves c) as (m & d & [-> | ->]).
  - by apply (ids_positive_view c).
  - split; [done|]. split; [done|]. split; simpl; by constructor.
Qed.

Lemma ids_positive_remove segmentation c :
  ids_positive c → ids_positive (remove_segmentation segmentation c).
Proof.
  intros (Hn & Hs & _ & _). split; [done|]. split; [|split]; simpl.
  - by apply Forall_dict_del.
  - constructor.
  - constructor.
Qed.

Lemma ids_positive_remove_moves moves : ∀ c,
  ids_positive c → ids_positive (foldl remove_at c moves).
Proof.
  induction moves as [|pos moves IH]; intros c Hc; cbn [foldl]; [done|].
  apply IH. unfold remove_at.
  destruct (get_segmentation_at_pixel c pos.1 pos.2) as [s|]; [|done].
  by apply (ids_positive_view (remove_segmentation s c)),
    ids_positive_remove.
Qed.

Lemma ids_positive_mouse_remove qp pen p0 moves c :
  ids_positive c → ids_positive (mouse_remove qp pen p0 moves c).
Proof.
  intros Hc. unfold mouse_remove.
  destruct (get_segmentation_at_pixel c p0.1 p0.2) as [s|];
    [|by apply ids_positive_stroke].
  apply ids_positive_remove_moves.
  by apply (ids_positive_view (remove_segmentation s c)),
    ids_positive_remove.
Qed.

Lemma ids_positive_merge new_color c :
  store_wf c → ids_positive c →
  ids_positive (merge_selected_segmentations new_color c).
Proof.
  intros Hwf Hc. pose proof Hc as (Hn & Hs & Hu & Hr).
  destruct (Nat.ltb_spec (length (selected_segmentations c)) 2) as [Hlt | Hge].
  { by rewrite merge_refused. }
  destruct (decide (concat (map pixels (get_selected_segmentations c)) = []))
    as [Hnil | Hpix].
  { unfold merge_selected_segmentations.
    destruct (Nat.ltb_spec (length (selected_segmentations c)) 2); [done|].
    by rewrite Hnil. }
  rewrite merge_effective by done. cbv zeta.
  split; [simpl; lia|]. split; [|split]; simpl.
  - apply Forall_dict_set; [|done]. by apply Forall_foldl_dict_del.
  - constructor; [|done]. split; [|done]. apply Forall_forall.
    intros s (id & _ & Hget)%elem_of_selected_segmentations.
    rewrite (dict_get_keyed _ _ _ (wf_keyed _ Hwf) Hget).
    apply dict_get_Some_elem in Hget.
    apply (proj1 (Forall_forall _ _) Hs _ Hget).
  - constructor.
Qed.

Lemma Forall_foldl_dict_set_pos (olds : list Segmentation) : ∀ D,
  Forall (λ ks : Z * Segmentation, 0 < ks.1) D →
  Forall (λ s, 0 < seg_id s) olds →
  Forall (λ ks : Z * Segmentation, 0 < ks.1)
    (foldl (λ d segmentation, dict_set (seg_id segmentation) segmentation d)
           D olds).
Proof.
  induction olds as [|s olds IH]; intros D HD Ho; simpl; [done|].
  apply Forall_cons in Ho as [Hs Ho].
  apply IH; [|done]. by apply Forall_dict_set.
Qed.

Lemma ids_positive_undo qp c :
  ids_positive c → ids_positive (undo_last_operation qp c).
Proof.
  intros Hc. unfold undo_last_operation.
  destruct (undo_stack c) as [|op rest] eqn:Hstack; [done|].
  destruct Hc as (Hn & Hs & Hu & Hr). rewrite Hstack in Hu.
  apply Forall_cons in Hu as [Hop Hrest].
  match goal with
  | |- ids_positive (update_pixel_labels ?c0) =>
      apply (ids_positive_view c0); try done
  end.
  destruct op as [data | data | olds new]; cbn [set_stacks segmentations
    drawings redo_stack undo_stack].
  - destruct (max_key (segmentations c)) as [m|]; [|done].
    destruct (dict_get m (segmentations c)) as [removed|]; [|done].
    split; [done|]. split; [|split]; simpl; [| done | by constructor].
    by apply Forall_dict_del.
  - destruct (max_key (drawings c)) as [m|]; [|done].
    destruct (dict_get m (drawings c)) as [removed|]; [|done].
    split; [done|]. split; [|split]; simpl; [done | done | by constructor].
  - destruct Hop as [Ho Hnew].
    split; [done|]. split; [|split]; simpl; [| done | by constructor].
    apply Forall_foldl_dict_set_pos; [|done]. by apply Forall_dict_del.
Qed.

Lemma ids_positive_redo qp c :
  ids_positive c → ids_positive (redo_last_operation qp c).
Proof.
  intros Hc. unfold redo_last_operation.
  destruct (redo_stack c) as [|op rest] eqn:Hstack; [done|].
  destruct Hc as (Hn & Hs & Hu & Hr). rewrite Hstack in Hr.
  apply Forall_cons in Hr as [Hop Hrest].
  match goal with
  | |- ids_positive (update_pixel_labels ?c0) =>
      apply (ids_positive_view c0); try done
  end.
  destruct op as [data | data | olds new]; cbn [set_stacks segmentations
    drawings redo_stack undo_stack].
  - split; [done|]. split; [|split]; simpl; [| by constructor | done].
    by apply Forall_dict_set.
  - split; [done|]. split; [|split]; simpl; [done | by constructor | done].
  - destruct Hop as [Ho Hnew].
    split; [done|]. split; [|split]; simpl; [| by constructor | done].
    apply Forall_dict_set; [|done]. by apply Forall_foldl_dict_del_segs.
Qed.

Lemma select_sets_selection x y shift_pressed c :
  ∃ sel, select_region_at_position x y shift_pressed c = set_selected c sel.
Proof.
  unfold select_region_at_position.
  destruct (get_segmentation_at_pixel c x y) as [s|]; [|by eexists].
  destruct shift_pressed, (bool_decide _); by eexists.
Qed.

Lemma ids_positive_step qp a c :
  store_wf c → ids_positive c → ids_positive (step qp a c).
Proof.
  intros Hwf Hc. destruct a; simpl.
  - by apply ids_positive_flood_fill.
  - by apply ids_positive_stroke.
  - by apply ids_positive_mouse_remove.
  - destruct (pixel_labels c); [|done].
    destruct (select_sets_selection x y shift_pressed c) as (sel & ->).
    by apply (ids_positive_view c).
  - destruct checked; by apply (ids_positive_view c).
  - by apply ids_positive_merge.
  - by apply ids_positive_undo.
  - by apply ids_positive_redo.
Qed.

Lemma ids_positive_run qp actions : ∀ c,
  canvas_wf c → ids_positive c → ids_positive (run qp actions c).
Proof.
  unfold run. induction actions as [|a actions IH]; intros c Hwf Hc; [done|].
  cbn [foldl]. apply IH; [by apply canvas_wf_step|].
  apply ids_positive_step; [apply Hwf | done].
Qed.

Lemma ids_positive_blank w h : ids_positive (create_blank_mask w h).
Proof. split; [done|]. split; [|split]; constructor. Qed.

Lemma create_extracted_stacks items : ∀ c,
  undo_stack (foldl create_extracted c items) = undo_stack c
  ∧ redo_stack (foldl create_extracted c items) = redo_stack c.
Proof.
  induction items as [|[col ps] items IH]; intros c; cbn [foldl]; [done|].
  by destruct (IH (create_extracted c (col, ps))) as [-> ->].
Qed.

Lemma ids_positive_load_mask w h mask : ids_positive (load_mask w h mask).
Proof.
  destruct (load_mask_store w h mask) as (c1 & Hs & Hn).
  split; [rewrite Hn; lia|]. split; [|split].
  - apply Forall_forall. intros [id s] (i & _ & ->)%elem_of_load_mask.
    simpl. lia.
  - unfold load_mask, extract_segmentations_from_mask. cbv zeta.
    cbn [undo_stack set_segmentations update_pixel_labels set_pixel_labels].
    rewrite (proj1 (create_extracted_stacks _ _)). constructor.
  - unfold load_mask, extract_segmentations_from_mask. cbv zeta.
    cbn [redo_stack set_segmentations update_pixel_labels set_pixel_labels].
    rewrite (proj2 (create_extracted_stacks _ _)). constructor.
Qed.

Lemma ids_positive_load_labels w h mask random_color
    (labels_array : np.ndarray Z) :
  ids_positive (load_mask_with_labels w h mask random_color labels_array).
Proof.
  pose proof (next_seg_id_load_labels w h mask random_color labels_array).
  split; [lia|]. split; [|split].
  - apply Forall_forall. intros [id s] Hin.
    by apply load_labels_entry in Hin as (_ & ? & _).
  - destruct (load_labels_store w h mask random_color labels_array)
      as (c1 & _ & _ & _ & -> & _ & _ & Hundo & _). cbn. rewrite Hundo.
    constructor.
  - destruct (load_labels_store w h mask random_color labels_array)
      as (c1 & _ & _ & _ & -> & _ & _ & _ & Hredo). cbn. rewrite Hredo.
    constructor.
Qed.

(** X17. Whether the canvas was started from a blank mask or from a mask
    loaded without a label array, and whatever operations followed, no
    id is 0: the next id to allocate, the ids of the stored regions and
    the ids of the regions kept in the undo and redo stacks are
    positive. *)
Theorem reachable_ids_positive qp actions w h mask :
  ids_positive (run qp actions (create_blank_mask w h))
  ∧ ids_positive (run qp actions (load_mask w h mask)).
Proof.
  split; apply ids_positive_run.
  - apply canvas_wf_blank.
  - apply ids_positive_blank.
  - apply canvas_wf_load_mask.
  - apply ids_positive_load_mask.
Qed.

(** ** Looking up the region at a pixel *)

(** X18. On a well-formed canvas with a grid that is up to date and positive
    ids, the region found at a pixel is a stored region that has the
    pixel, the last such region of the store; no region is found exactly
    when the pixel is outside the image or no stored region has it. *)
Theorem segmentation_at_pixel_owner c x y :
  store_wf c → grid_last_owner c → ids_positive c →
  (∀ s, get_segmentation_at_pixel c x y = Some s →
     in_grid c x y
     ∧ (seg_id s, s) ∈ segmentations c
     ∧ (x, y) ∈ pixels s
     ∧ seg_id s = last_owner (segmentations c) (x, y))
  ∧ (get_segmentation_at_pixel c x y = None ↔
     ¬ in_grid c x y ∨ ¬ owned (segmentations c) (x, y)).
Proof.
  intros Hwf [Hshape Hgrid] (_ & Hpos & _).
  unfold get_segmentation_at_pixel.
  destruct (decide (in_grid c x y)) as [Hin | Hout].
  - rewrite (Hgrid _ _ Hin).
    destruct (last_owner_cases (segmentations c) (x, y))
      as [[-> Hnone] | (k & s & Hs & Hp & ->)].
    + simpl. split; [done|]. split; [|done]. intros _. right.
      intros (k & s & Hs & Hp). by apply (Hnone k s).
    + pose proof (proj1 (Forall_forall _ _) Hpos _ Hs) as Hk. simpl in Hk.
      replace (k =? 0) with false by lia.
      rewrite (elem_dict_get _ _ _ (wf_keys _ Hwf) Hs).
      pose proof (proj1 (Forall_forall _ _) (wf_keyed _ Hwf) _ Hs) as Hid.
      simpl in Hid. split.
      * intros s' [= <-]. by rewrite Hid.
      * split; [done|]. intros [? | Hno]; [done|]. exfalso. apply Hno.
        by exists k, s.
  - rewrite (get_pixel_label_out c x y Hshape Hout). simpl.
    split; [done|]. split; [by left | done].
Qed.

Lemma segmentation_at_pixel_owner_witness :
  (∀ s, get_segmentation_at_pixel dark_canvas 1 0 = Some s →
     in_grid dark_canvas 1 0
     ∧ (seg_id s, s) ∈ segmentations dark_canvas
     ∧ (1, 0) ∈ pixels s
     ∧ seg_id s = last_owner (segmentations dark_canvas) (1, 0))
  ∧ (get_segmentation_at_pixel dark_canvas 1 0 = None ↔
     ¬ in_grid dark_canvas 1 0 ∨ ¬ owned (segmentations dark_canvas) (1, 0)).
Proof.
  apply (segmentation_at_pixel_owner dark_canvas 1 0).
  - apply canvas_wf_load_mask.
  - apply grid_last_owner_load_mask.
  - apply ids_positive_load_mask.
Defined.

(** ** The path a stroke records *)

Lemma stroke_moves_drawing qp remove pen moves : ∀ c d last,
  (foldl (λ '(c, current_drawing, last_pos) pos,
            let '(c, current_drawing) :=
              draw_line qp remove pen c current_drawing last_pos pos in
            (c, current_drawing, pos))
         (c, d, last) moves).1.2
  = {| draw_id := draw_id d;
       draw_pixels :=
         draw_pixels d
         ++ flat_map (λ '(a, b), [a; b]) (zip (last :: moves) moves);
       thickness := thickness d |}.
Proof.
  induction moves as [|pos moves IH]; intros c d last; cbn [foldl].
  - simpl. rewrite app_nil_r. by destruct d.
  - unfold draw_line at 2. rewrite IH. cbn [draw_id draw_pixels thickness].
    cbn [zip zip_with flat_map]. by rewrite <- (assoc_L (++)).
Qed.

(** X19. What a stroke leaves behind.  It always takes a drawing id and never
    touches the regions, the grid or the selection.  A click without a
    drag records nothing.  A drag records one drawing, filed under the id
    taken, whose pixel list holds the two ends of every segment of the
    path in order, pushes it on the undo stack and empties the redo
    stack. *)
Theorem stroke_records_path qp remove pen p0 moves c :
  let c' := stroke qp remove pen p0 moves c in
  let drawing :=
    {| draw_id := next_draw_id c;
       draw_pixels := flat_map (λ '(a, b), [a; b]) (zip (p0 :: moves) moves);
       thickness := pen |} in
  next_draw_id c' = next_draw_id c + 1
  ∧ grid_view c' = grid_view c
  ∧ selected_segmentations c' = selected_segmentations c
  ∧ next_seg_id c' = next_seg_id c
  ∧ (moves = [] →
     drawings c' = drawings c
     ∧ undo_stack c' = undo_stack c ∧ redo_stack c' = redo_stack c)
  ∧ (moves ≠ [] →
     drawings c' = dict_set (next_draw_id c) drawing (drawings c)
     ∧ undo_stack c' = OpDrawing drawing :: undo_stack c
     ∧ redo_stack c' = []).
Proof.
  intros c' drawing. subst c' drawing. unfold stroke. cbv zeta.
  set (d0 := {| draw_id := next_draw_id c; draw_pixels := [];
                thickness := pen |}).
  set (c0 := draw_at_position qp remove pen
               (set_next_draw_id c (next_draw_id c + 1)) p0).
  pose proof (stroke_moves_drawing qp remove pen moves c0 d0 p0) as Hd.
  destruct (stroke_moves_mask qp remove pen moves c0 d0 p0) as (m & Hm).
  destruct (foldl _ (c0, d0, p0) moves) as [[c1 d1] last]. simpl in Hd, Hm.
  subst c1 d1. cbn [draw_pixels draw_id app].
  destruct moves as [|pos moves].
  - simpl. repeat split; done.
  - cbn [zip zip_with flat_map length app Nat.ltb Nat.leb].
    repeat split; done.
Qed.

(** ** Resetting the labels of an image *)

Lemma process_image_map (img_array : np.ndarray color) :
  process_image img_array
  = map (map (λ rgb : color,
                if bool_decide (rgb = white) then white else black))
        img_array.
Proof.
  unfold process_image, assign_where, non_white_mask. cbv zeta.
  induction img_array as [|row a IH]; [done|].
  cbn [map zip_with]. rewrite IH. f_equal.
  clear IH. induction row as [|rgb row IH]; [done|].
  cbn [map zip_with]. rewrite IH. f_equal.
  unfold white. by case_bool_decide; simplify_eq.
Qed.

Lemma process_image_get (img_array : np.ndarray color) y x :
  np.get black (process_image img_array) y x = black
  ∨ np.get black (process_image img_array) y x = white.
Proof.
  rewrite process_image_map. unfold np.get.
  rewrite list_lookup_fmap.
  destruct (img_array !! Z.to_nat y) as [row|]; simpl; [|by left].
  rewrite list_lookup_fmap.
  destruct (row !! Z.to_nat x) as [rgb|]; simpl; [|by left].
  case_bool_decide; [by right | by left].
Qed.

(** X20. [reset_labels.py] and the editor: the saved array is the image with
    every non-white pixel turned black, processing it again changes
    nothing, and the editor finds no region when the saved image is
    loaded as a mask. *)
Theorem reset_labels_erases_regions (img_array : np.ndarray color) w h :
  let saved := process_image img_array in
  saved
  = map (map (λ rgb : color,
                if bool_decide (rgb = white) then white else black))
        img_array
  ∧ process_image saved = saved
  ∧ color_to_pixels (image_of_array saved) = []
  ∧ segmentations (load_mask w h (image_of_array saved)) = []
  ∧ next_seg_id (load_mask w h (image_of_array saved)) = 1.
Proof.
  intros saved. subst saved. split; [apply process_image_map|].
  split.
  { rewrite !process_image_map, <- list_fmap_compose.
    apply list_fmap_ext. intros i row _. simpl.
    rewrite <- list_fmap_compose. apply list_fmap_ext. intros j rgb _. simpl.
    by repeat case_bool_decide. }
  assert (Hnil : color_to_pixels (image_of_array (process_image img_array))
                 = []).
  { pose proof (color_to_pixels_grouped
                  (image_of_array (process_image img_array))) as (_ & Hd & _).
    destruct (color_to_pixels _) as [|[col ps] items]; [done|]. exfalso.
    destruct (Hd col ps) as [Hne Hps]; [by left|].
    destruct ps as [|[x y] ps]; [done|].
    assert (Hin : (x, y) ∈ (x, y) :: ps) by by left.
    rewrite Hps in Hin. apply list_elem_of_filter in Hin as [Hk _].
    apply color_key_Some in Hk as (Hc & Hb & Hw). cbn in Hc.
    destruct (process_image_get img_array y x); congruence. }
  split; [done|].
  destruct (load_mask_store w h (image_of_array (process_image img_array)))
    as (c1 & -> & ->). by rewrite Hnil.
Qed.

(** A coloured pixel and a white one: the coloured pixel is saved black,
    and the mask that gave one region before gives none after. *)
Example reset_two_pixels :
  process_image two_pixels = [[black; white]]
  ∧ length (segmentations (load_mask 2 1 (image_of_array two_pixels)))
    = 1%nat
  ∧ segmentations
      (load_mask 2 1 (image_of_array (process_image two_pixels))) = [].
Proof. repeat split; vm_compute; reflexivity. Qed.

(** ** Saving and loading the label array *)

Lemma int16_small v : -32768 ≤ v < 32768 → int16 v = v.
Proof. intros Hv. unfold int16. rewrite Z.mod_small; lia. Qed.

Lemma grid_values c (labels : np.ndarray Z) :
  grid_last_owner c → pixel_labels c = Some labels →
  Forall (Forall (λ v, v = 0 ∨ v ∈ dict_keys (segmentations c))) labels.
Proof.
  intros [Hshape Hgrid] Hl. pose proof (Hshape _ Hl) as Hs.
  apply Forall_forall. intros row Hrow. apply Forall_forall. intros v Hv.
  assert (Hin : v ∈ concat labels).
  { apply elem_of_concat. by exists row. }
  apply (elem_of_concat_array 0 _ _ _ _ Hs) in Hin as (x & y & Hxy & <-).
  assert (Hg : in_grid c x y) by (unfold in_grid; lia).
  specialize (Hgrid x y Hg). rewrite Hl in Hgrid.
  rewrite (get_pixel_label_inside _ _ _ _ _ Hs) in Hgrid by lia.
  rewrite Hgrid. apply last_owner_key.
Qed.

(** X21. Saving and loading again.  While every id is below 32768 the array
    written is the grid itself; loading it, with any mask image, gives
    the same grid, and the regions it creates are what the grid shows:
    a region of id [id] for every id that labels some pixel, with the
    pixels the grid labels [id].  Where the stored regions share no
    pixel, each stored region that has a pixel inside the image comes
    back under its id with its pixels inside the image. *)
Theorem save_load_round_trip c (labels : np.ndarray Z) mask random_color :
  store_wf c → grid_last_owner c → ids_positive c →
  next_seg_id c ≤ 32768 →
  pixel_labels c = Some labels →
  let c' := load_mask_with_labels (original_width c) (original_height c)
              mask random_color labels in
  saved_labels c = Some labels
  ∧ pixel_labels c' = pixel_labels c
  ∧ (∀ id s', (id, s') ∈ segmentations c' →
       ∀ x y, (x, y) ∈ pixels s' ↔
         in_grid c x y ∧ last_owner (segmentations c) (x, y) = id)
  ∧ (∀ x y, in_grid c x y → last_owner (segmentations c) (x, y) ≠ 0 →
       last_owner (segmentations c) (x, y) ∈ dict_keys (segmentations c'))
  ∧ (regions_disjoint (segmentations c) →
     ∀ id s x y, (id, s) ∈ segmentations c →
       in_grid c x y → (x, y) ∈ pixels s →
       ∃ s', (id, s') ∈ segmentations c'
             ∧ ∀ x' y', in_grid c x' y' →
                 ((x', y') ∈ pixels s' ↔ (x', y') ∈ pixels s)).
Proof.
  intros Hwf Hg (Hn & Hpos & _) Hmax Hl c'. subst c'.
  pose proof Hg as [Hshape Hgrid]. pose proof (Hshape _ Hl) as Hs.
  set (w := original_width c) in *. set (h := original_height c) in *.
  set (c' := load_mask_with_labels w h mask random_color labels).
  assert (Hkey : ∀ k, k ∈ dict_keys (segmentations c) → 0 < k < 32768).
  { intros k (s & Hin)%elem_of_dict_keys.
    pose proof (proj1 (Forall_forall _ _) Hpos _ Hin).
    pose proof (proj1 (Forall_forall _ _) (wf_fresh _ Hwf) _ Hin).
    simpl in *. lia. }
  assert (Hlabel : ∀ x y, in_grid c x y →
            np.get 0 labels y x = last_owner (segmentations c) (x, y)).
  { intros x y Hxy. rewrite <- (Hgrid x y Hxy), Hl.
    symmetry. apply (get_pixel_label_inside h w); [done|..];
      unfold in_grid in Hxy; lia. }
  assert (Hpix : ∀ id s', (id, s') ∈ segmentations c' →
            ∀ x y, (x, y) ∈ pixels s' ↔
              in_grid c x y ∧ last_owner (segmentations c) (x, y) = id).
  { intros id s' Hin x y.
    apply load_labels_entry in Hin as (_ & _ & _ & Hin).
    rewrite Hin, (shaped_bounds h w labels x y Hs). unfold in_grid.
    fold w h. split; intros [Hxy Hid]; (split; [done|]);
      by rewrite ?Hlabel, <- ?Hlabel in *. }
  assert (Hback : ∀ x y, in_grid c x y →
            last_owner (segmentations c) (x, y) ≠ 0 →
            ∃ s', (last_owner (segmentations c) (x, y), s')
                  ∈ segmentations c').
  { intros x y Hxy Hne.
    pose proof (label_to_pixels_grouped labels) as Hgr.
    destruct (grouped_filed (label_key labels) _ _ (x, y)
                (last_owner (segmentations c) (x, y)) Hgr)
      as (ps & Hps & _).
    - apply elem_of_row_major_array, (shaped_bounds h w); [done|].
      unfold in_grid in Hxy. by fold w h in Hxy.
    - apply label_key_Some. cbn [fst snd]. split; [by apply Hlabel|].
      destruct (last_owner_key (segmentations c) (x, y)) as [? | Hk];
        [done|]. apply Hkey in Hk. lia.
    - destruct (load_labels_has_group w h mask random_color labels _ _ Hps)
        as (s' & Hs' & _). by exists s'. }
  split; [|split; [|split; [|split]]].
  - unfold saved_labels. rewrite Hl. f_equal.
    rewrite <- (list_fmap_id labels) at 2. apply list_fmap_ext.
    intros i row Hrow. simpl.
    rewrite <- (list_fmap_id row) at 2. apply list_fmap_ext.
    intros j v Hv. simpl. apply int16_small.
    pose proof (grid_values c labels Hg Hl) as Hvals.
    apply (proj1 (Forall_lookup _ _) Hvals) in Hrow.
    apply (proj1 (Forall_lookup _ _) Hrow) in Hv as [-> | Hk]; [lia|].
    apply Hkey in Hk. lia.
  - rewrite Hl. unfold c'.
    by destruct (load_labels_store w h mask random_color labels)
      as (c1 & _ & _ & Hl1 & -> & _).
  - done.
  - intros x y Hxy Hne. apply elem_of_dict_keys. by apply Hback.
  - intros Hdis id s x y Hin Hxy Hp.
    assert (Hown : ∀ x' y', (x', y') ∈ pixels s →
              last_owner (segmentations c) (x', y') = id).
    { intros x' y' Hp'.
      destruct (last_owner_cases (segmentations c) (x', y'))
        as [[_ Hnone] | (k & s0 & Hin0 & Hp0 & ->)].
      - by destruct (Hnone _ _ Hin).
      - by apply (Hdis k s0 id s (x', y')). }
    assert (Hid : id ≠ 0).
    { pose proof (proj1 (Forall_forall _ _) Hpos _ Hin). simpl in *. lia. }
    destruct (Hback x y Hxy) as (s' & Hs'); [by rewrite Hown|].
    rewrite (Hown _ _ Hp) in Hs'. exists s'. split; [done|].
    intros x' y' Hxy'. rewrite (Hpix _ _ Hs'). split.
    + intros [_ Hlast].
      destruct (last_owner_cases (segmentations c) (x', y'))
        as [[H0 _] | (k & s0 & Hin0 & Hp0 & Hk)]; [congruence|].
      rewrite Hk in Hlast. subst k.
      pose proof (elem_dict_get _ _ _ (wf_keys _ Hwf) Hin) as G1.
      pose proof (elem_dict_get _ _ _ (wf_keys _ Hwf) Hin0) as G2.
      congruence.
    + intros Hp'. split; [done | by apply Hown].
Qed.

Lemma save_load_round_trip_witness :
  let c := load_mask_with_labels 2 2 img3 (λ _, (40, 50, 60))
             diagonal_labels in
  let c' := load_mask_with_labels (original_width c) (original_height c)
              img3 (λ _, (70, 80, 90)) diagonal_labels in
  saved_labels c = Some diagonal_labels
  ∧ pixel_labels c' = pixel_labels c
  ∧ (∀ id s', (id, s') ∈ segmentations c' →
       ∀ x y, (x, y) ∈ pixels s' ↔
         in_grid c x y ∧ last_owner (segmentations c) (x, y) = id)
  ∧ (∀ x y, in_grid c x y → last_owner (segmentations c) (x, y) ≠ 0 →
       last_owner (segmentations c) (x, y) ∈ dict_keys (segmentations c'))
  ∧ (regions_disjoint (segmentations c) →
     ∀ id s x y, (id, s) ∈ segmentations c →
       in_grid c x y → (x, y) ∈ pixels s →
       ∃ s', (id, s') ∈ segmentations c'
             ∧ ∀ x' y', in_grid c x' y' →
                 ((x', y') ∈ pixels s' ↔ (x', y') ∈ pixels s)).
Proof.
  apply (save_load_round_trip
           (load_mask_with_labels 2 2 img3 (λ _, (40, 50, 60))
              diagonal_labels)
           diagonal_labels img3 (λ _, (70, 80, 90))).
  - apply canvas_wf_load_labels.
  - split.
    + intros labels [= <-]. split; [reflexivity|]. repeat constructor.
    + intros x y [Hx Hy]. simpl in Hx, Hy.
      assert (Hc : (x = 0 ∨ x = 1) ∧ (y = 0 ∨ y = 1)) by lia.
      destruct Hc as [[-> | ->] [-> | ->]]; reflexivity.
  - apply ids_positive_load_labels.
  - vm_compute. discriminate.
  - reflexivity.
Defined.

(** Past the last id a 16-bit label can take: on a canvas where the next
    id to allocate is 32768, the region a fill creates gets id 32768, the
    saved array holds -32768 for it, and loading the saved array gives
    back region 32767 alone. *)
Example saved_id_wraps :
  dict_keys (segmentations last_id_canvas) = [32767; 32768]
  ∧ pixel_labels last_id_canvas = Some [[32767; 32768]]
  ∧ saved_labels last_id_canvas = Some [[32767; -32768]]
  ∧ dict_keys
      (segmentations
         (load_mask_with_labels 2 1 (mask_pixmap last_id_canvas)
            (λ _, (70, 80, 90)) [[32767; -32768]]))
    = [32767].
Proof. repeat split; vm_compute; reflexivity. Qed.

(** ** Redrawing the mask from the store *)

Lemma size_paint_pixels image (l : list point) col :
  img_width (paint_pixels image l col) = img_width image
  ∧ img_height (paint_pixels image l col) = img_height image.
Proof.
  unfold paint_pixels. revert image.
  induction l as [|[px py] l IH]; intros im; cbn [foldl]; [done|].
  destruct (_ && _); [|apply IH].
  by destruct (IH (setPixelColor im px py col)) as [-> ->].
Qed.

Lemma pixelColor_paint_regions segs x y : ∀ image,
  inside (width image) (height image) x y = true →
  pixelColor
    (foldl (λ image (ks : Z * Segmentation),
              paint_pixels image (pixels ks.2) (seg_color ks.2)) image segs) x y
  = last_color (pixelColor image x y) segs (x, y).
Proof.
  unfold last_color.
  induction segs as [|[k s] segs IH]; intros image Hin; cbn [foldl snd];
    [done|].
  destruct (size_paint_pixels image (pixels s) (seg_color s)) as [Hw Hh].
  rewrite IH by (unfold width, height; by rewrite Hw, Hh).
  f_equal. rewrite pixelColor_paint_pixels.
  apply (f_equal (λ b : bool, if b then _ else _)).
  apply bool_decide_ext. tauto.
Qed.

Lemma size_paint_regions segs : ∀ image,
  let image' :=
    foldl (λ image (ks : Z * Segmentation),
             paint_pixels image (pixels ks.2) (seg_color ks.2)) image segs in
  width image' = width image ∧ height image' = height image.
Proof.
  induction segs as [|[k s] segs IH]; intros image; cbn [foldl snd]; [done|].
  destruct (IH (paint_pixels image (pixels s) (seg_color s))) as [-> ->].
  destruct (size_paint_pixels image (pixels s) (seg_color s)) as [Hw Hh].
  unfold width, height. by rewrite Hw, Hh.
Qed.

Lemma last_owner_color segs p :
  (last_owner segs p = 0 ∧ last_color black segs p = black
   ∧ ∀ k s, (k, s) ∈ segs → p ∉ pixels s)
  ∨ ∃ k s, (k, s) ∈ segs ∧ p ∈ pixels s
           ∧ last_owner segs p = k ∧ last_color black segs p = seg_color s.
Proof.
  induction segs as [|[k s] segs IH] using rev_ind.
  - left. split; [done|]. split; [done|]. by intros k s ?%elem_of_nil.
  - unfold last_color. rewrite last_owner_snoc, foldl_app. cbn [foldl snd].
    fold (last_color black segs p).
    destruct (decide (p ∈ pixels s)) as [Hp | Hp].
    + rewrite !bool_decide_eq_true_2 by done. right. exists k, s.
      split; [|done]. apply elem_of_app. right. by left.
    + rewrite !bool_decide_eq_false_2 by done.
      destruct IH as [(H0 & Hb & Hnone) | (k' & s' & Hin & Hp' & Hk & Hcol)].
      * left. split; [done|]. split; [done|].
        intros k0 s0 [Hin | [= -> ->]%list_elem_of_singleton]%elem_of_app;
          [by apply (Hnone k0) | done].
      * right. exists k', s'. split; [|done]. apply elem_of_app. by left.
Qed.

(** X22. [redraw_all_segmentations]: the mask keeps its size and the store its
    regions, pixel lists and colours; on a well-formed canvas with a grid
    that is up to date and positive ids, every pixel of the image that is
    inside the mask takes the colour of the region found at the pixel,
    and black where none is found. *)
Theorem redraw_all_renders_store c :
  store_wf c → grid_last_owner c → ids_positive c →
  let c' := redraw_all_segmentations c in
  width (mask_pixmap c') = width (mask_pixmap c)
  ∧ height (mask_pixmap c') = height (mask_pixmap c)
  ∧ pixel_labels c' = pixel_labels c
  ∧ segmentations c'
    = map (λ ks, (ks.1, compute_segmentation_borders c ks.2))
          (segmentations c)
  ∧ ∀ x y, in_grid c x y →
      inside (width (mask_pixmap c)) (height (mask_pixmap c)) x y = true →
      pixelColor (mask_pixmap c') x y
      = match get_segmentation_at_pixel c x y with
        | Some segmentation => seg_color segmentation
        | None => black
        end.
Proof.
  intros Hwf [Hshape Hgrid] (_ & Hpos & _) c'. subst c'.
  unfold redraw_all_segmentations. cbv zeta.
  cbn [mask_pixmap set_mask_pixmap set_segmentations segmentations
       pixel_labels].
  set (cleared := _clear_image_to_color (mask_pixmap c) black).
  destruct (size_fill (mask_pixmap c)
              (row_major (img_width (mask_pixmap c))
                 (img_height (mask_pixmap c))) black) as [Hcw Hch].
  fold (_clear_image_to_color (mask_pixmap c) black) in Hcw, Hch.
  fold cleared in Hcw, Hch.
  destruct (size_paint_regions (segmentations c) cleared) as [Hw Hh].
  cbv zeta in Hw, Hh.
  split; [by rewrite Hw|]. split; [by rewrite Hh|]. split; [done|]. split.
  { apply map_ext. by intros [k s]. }
  intros x y Hxy Hin.
  rewrite pixelColor_paint_regions by by rewrite Hcw, Hch.
  assert (Hblack : pixelColor cleared x y = black).
  { unfold cleared, _clear_image_to_color.
    rewrite pixelColor_fill, bool_decide_eq_true_2; [done|].
    apply elem_of_row_major. by apply inside_spec in Hin. }
  rewrite Hblack. unfold get_segmentation_at_pixel.
  rewrite (Hgrid _ _ Hxy).
  destruct (last_owner_color (segmentations c) (x, y))
    as [(-> & -> & _) | (k & s & Hs & Hp & -> & ->)]; [done|].
  pose proof (proj1 (Forall_forall _ _) Hpos _ Hs) as Hk. simpl in Hk.
  replace (k =? 0) with false by lia.
  by rewrite (elem_dict_get _ _ _ (wf_keys _ Hwf) Hs).
Qed.

Lemma redraw_all_renders_store_witness :
  let c' := redraw_all_segmentations dark_canvas in
  width (mask_pixmap c') = width (mask_pixmap dark_canvas)
  ∧ height (mask_pixmap c') = height (mask_pixmap dark_canvas)
  ∧ pixel_labels c' = pixel_labels dark_canvas
  ∧ segmentations c'
    = map (λ ks, (ks.1, compute_segmentation_borders dark_canvas ks.2))
          (segmentations dark_canvas)
  ∧ ∀ x y, in_grid dark_canvas x y →
      inside (width (mask_pixmap dark_canvas))
             (height (mask_pixmap dark_canvas)) x y = true →
      pixelColor (mask_pixmap c') x y
      = match get_segmentation_at_pixel dark_canvas x y with
        | Some segmentation => seg_color segmentation
        | None => black
        end.
Proof.
  apply (redraw_all_renders_store dark_canvas).
  - apply canvas_wf_load_mask.
  - apply grid_last_owner_load_mask.
  - apply ids_positive_load_mask.
Defined.

(** ** The grid after a fill and after a merge *)

Lemma last_owner_filter (P : Z * Segmentation → Prop)
    `{∀ ks, Decision (P ks)} segs p :
  (∀ k s, (k, s) ∈ segs → ¬ P (k, s) → p ∉ pixels s) →
  last_owner (filter P segs) p = last_owner segs p.
Proof.
  induction segs as [|[k s] segs IH] using rev_ind; intros Hdrop; [done|].
  rewrite filter_app, last_owner_snoc.
  assert (IH' : last_owner (filter P segs) p = last_owner segs p).
  { apply IH. intros k' s' Hin. apply Hdrop, elem_of_app. by left. }
  destruct (decide (P (k, s))) as [HP | HP].
  - rewrite (filter_cons_True _ _ _ HP). cbn [filter list_filter].
    by rewrite last_owner_snoc, IH'.
  - rewrite (filter_cons_False _ _ _ HP). cbn [filter list_filter].
    rewrite app_nil_r, IH'. rewrite bool_decide_eq_false_2; [done|].
    apply (Hdrop k s); [|done]. apply elem_of_app. right. by left.
Qed.

(** X23. The grid after a fill that starts: the image keeps its size, the
    pixels of the seed's component that are inside the image are labelled
    with the new id, and every other pixel of the image keeps its
    label. *)
Theorem fill_labels_component random_color x y c :
  store_wf c → grid_last_owner c →
  is_pixel_black (mask_pixmap c) x y = true →
  let c' := flood_fill_at_position random_color x y c in
  (original_width c' = original_width c
   ∧ original_height c' = original_height c)
  ∧ ∀ x' y', in_grid c x' y' →
      (component (mask_pixmap c) x y (x', y') →
       get_pixel_label (pixel_labels c') x' y' = next_seg_id c)
      ∧ (¬ component (mask_pixmap c) x y (x', y') →
         get_pixel_label (pixel_labels c') x' y'
         = get_pixel_label (pixel_labels c) x' y').
Proof.
  intros Hwf Hg Hb c'. subst c'. split.
  { destruct (flood_fill_at_position_black random_color x y c Hb)
      as (image & filled' & _ & _ & ->). done. }
  intros x' y' Hxy.
  pose proof (grid_last_owner_flood_fill random_color x y c Hg) as [_ Hg1].
  destruct (flood_fill_at_position_region random_color x y c Hwf Hb)
    as (filled & Hcomp & _ & Hs1 & _). cbv zeta in Hs1.
  assert (Hxy1 : in_grid (flood_fill_at_position random_color x y c) x' y').
  { destruct (flood_fill_at_position_black random_color x y c Hb)
      as (image & filled' & _ & _ & ->). exact Hxy. }
  rewrite (Hg1 _ _ Hxy1), Hs1, last_owner_snoc. cbn [pixels].
  destruct Hg as [_ Hg]. rewrite (Hg _ _ Hxy). split; intros Hc.
  - by rewrite bool_decide_eq_true_2 by by apply Hcomp.
  - by rewrite bool_decide_eq_false_2 by by rewrite Hcomp.
Qed.

Lemma fill_labels_component_witness :
  let c' := flood_fill_at_position (40, 50, 60) 0 0 dark_canvas in
  (original_width c' = original_width dark_canvas
   ∧ original_height c' = original_height dark_canvas)
  ∧ ∀ x' y', in_grid dark_canvas x' y' →
      (component (mask_pixmap dark_canvas) 0 0 (x', y') →
       get_pixel_label (pixel_labels c') x' y' = next_seg_id dark_canvas)
      ∧ (¬ component (mask_pixmap dark_canvas) 0 0 (x', y') →
         get_pixel_label (pixel_labels c') x' y'
         = get_pixel_label (pixel_labels dark_canvas) x' y').
Proof.
  apply (fill_labels_component (40, 50, 60) 0 0 dark_canvas).
  - apply canvas_wf_load_mask.
  - apply grid_last_owner_load_mask.
  - reflexivity.
Defined.

(** X24. The grid after an effective merge: the image keeps its size, the
    pixels of the selected regions that are inside the image are labelled
    with the id of the merged region, and every other pixel of the image
    keeps its label. *)
Theorem merge_relabels_selection new_color c :
  store_wf c → grid_last_owner c →
  (2 ≤ length (selected_segmentations c))%nat →
  concat (map pixels (get_selected_segmentations c)) ≠ [] →
  let c' := merge_selected_segmentations new_color c in
  (original_width c' = original_width c
   ∧ original_height c' = original_height c)
  ∧ ∀ x y, in_grid c x y →
      get_pixel_label (pixel_labels c') x y
      = if bool_decide
             ((x, y) ∈ concat (map pixels (get_selected_segmentations c)))
        then next_seg_id c
        else get_pixel_label (pixel_labels c) x y.
Proof.
  intros Hwf Hg Hlen Hpix c'. subst c'.
  pose proof (grid_last_owner_merge new_color c Hg) as [_ Hg1].
  pose proof (merge_effective new_color c Hlen Hpix) as Heq.
  cbv zeta in Heq. split; [by rewrite Heq|]. intros x y Hxy.
  assert (Hxy1 : in_grid (merge_selected_segmentations new_color c) x y)
    by (rewrite Heq; exact Hxy).
  rewrite (Hg1 _ _ Hxy1), Heq.
  cbn [segmentations set_mask_pixmap update_pixel_labels set_pixel_labels
       push_to_undo_stack set_stacks set_selected set_next_seg_id
       set_segmentations].
  rewrite foldl_dict_del.
  rewrite dict_set_fresh.
  2: { intros (v & Hin)%elem_of_dict_keys.
       apply list_elem_of_filter in Hin as [_ Hin].
       apply (next_seg_id_fresh c Hwf), elem_of_dict_keys. eauto. }
  rewrite last_owner_snoc. cbn [pixels merged_segmentation].
  case_bool_decide as Hp; [done|].
  destruct Hg as [_ Hg]. rewrite (Hg _ _ Hxy).
  apply last_owner_filter. intros k s Hin Hsel Hps. apply Hp.
  apply elem_of_concat. exists (pixels s). split; [done|].
  apply list_elem_of_fmap. exists s. split; [done|].
  apply elem_of_selected_segmentations. exists k. split.
  - simpl in Hsel. by destruct (decide (k ∈ selected_segmentations c)).
  - by apply elem_dict_get; [apply Hwf|].
Qed.

Lemma merge_relabels_selection_witness :
  let c' := merge_selected_segmentations (70, 80, 90) dark_selected in
  (original_width c' = original_width dark_selected
   ∧ original_height c' = original_height dark_selected)
  ∧ ∀ x y, in_grid dark_selected x y →
      get_pixel_label (pixel_labels c') x y
      = if bool_decide
             ((x, y) ∈ concat (map pixels
                                 (get_selected_segmentations dark_selected)))
        then next_seg_id dark_selected
        else get_pixel_label (pixel_labels dark_selected) x y.
Proof.
  apply (merge_relabels_selection (70, 80, 90) dark_selected).
  - apply store_wf_dark_selected.
  - apply grid_last_owner_dark_selected.
  - vm_compute. lia.
  - vm_compute. discriminate.
Defined.

(** ** The canvas loaded from a label array *)

(** X13. With a label array of the size of the image whose labels lie
    between 0 and 32766, the canvas loaded from it has a grid that agrees
    with its regions, rebuilding the grid from the regions gives back the
    array, every stored border is the border the grid gives, and the
    canvas satisfies the invariants of the editor: a well-formed store
    with every id below the next id to allocate, which is at most 32767,
    a grid that holds the last owner of every pixel, and positive ids. *)
Theorem load_labels_round_trip w h mask random_color
    (labels_array : np.ndarray Z) :
  shaped h w labels_array →
  Forall (Forall (λ v, 0 ≤ v < 32767)) labels_array →
  let c := load_mask_with_labels w h mask random_color labels_array in
  grid_region_consistent c
  ∧ update_pixel_labels c = c
  ∧ (∀ id s, (id, s) ∈ segmentations c →
       border_pixels s = border_by_label c s)
  ∧ canvas_wf c ∧ grid_last_owner c ∧ ids_positive c
  ∧ next_seg_id c ≤ 32767.
Proof.
  intros Hshape Hrange c. subst c.
  assert (Hpos : Forall (Forall (λ v, 0 ≤ v)) labels_array).
  { eapply Forall_impl; [exact Hrange|]. intros row Hrow.
    eapply Forall_impl; [exact Hrow|]. simpl. lia. }
  pose proof (label_to_pixels_grouped labels_array) as Hg.
  destruct (load_labels_store w h mask random_color labels_array)
    as (c1 & Hw & Hh & Hl & Hc & Hn & Hsel & Hundo & Hredo).
  set (c := load_mask_with_labels w h mask random_color labels_array) in *.
  assert (Hcw : original_width c = w) by by rewrite Hc.
  assert (Hch : original_height c = h) by by rewrite Hc.
  assert (Hcl : pixel_labels c = Some labels_array) by by rewrite Hc.
  (* the partition, read in the coordinates of the image *)
  assert (Hpix : ∀ id s, (id, s) ∈ segmentations c →
            seg_id s = id ∧ 0 < id
            ∧ ∀ x y, (x, y) ∈ pixels s ↔
                in_grid c x y ∧ np.get 0 labels_array y x = id).
  { intros id s (Hid & _ & Hin)%elem_of_load_labels.
    assert (Hxy : ∀ x y, (x, y) ∈ pixels s ↔
              in_grid c x y ∧ np.get 0 labels_array y x = id ∧ 0 < id).
    { intros x y.
      rewrite (grouped_elem _ _ _ _ _ (x, y) Hg Hin),
        elem_of_row_major_array, label_key_Some,
        (shaped_bounds h w labels_array x y Hshape).
      unfold in_grid. by rewrite Hcw, Hch. }
    assert (∃ q, q ∈ pixels s) as [[qx qy] Hq].
    { pose proof Hg as (_ & Hd & _). destruct (Hd _ _ Hin) as [Hne _].
      destruct (pixels s) as [|q ps]; [done|]. exists q. by left. }
    apply Hxy in Hq as (_ & _ & Hpos').
    split; [done|]. split; [done|]. intros x y. rewrite Hxy. tauto. }
  assert (Hlabel : ∀ x y, in_grid c x y →
            get_pixel_label (pixel_labels c) x y
            = np.get 0 labels_array y x).
  { intros x y [Hx Hy]. rewrite Hcl, Hcw, Hch in *.
    by apply (get_pixel_label_inside h w). }
  assert (Howner : ∀ x y, in_grid c x y →
            last_owner (segmentations c) (x, y) = np.get 0 labels_array y x).
  { intros x y Hxy.
    destruct (last_owner_cases (segmentations c) (x, y))
      as [[-> Hnone] | (k & s & Hin & Hp & ->)].
    - pose proof (np_get_nonneg labels_array y x Hpos) as Hge.
      destruct (decide (np.get 0 labels_array y x = 0)) as [|Hne]; [done|].
      exfalso.
      destruct (grouped_filed (label_key labels_array) _ _ (x, y)
                  (np.get 0 labels_array y x) Hg) as (ps & Hps & Hp).
      + apply elem_of_row_major_array.
        apply (shaped_bounds h w labels_array x y Hshape).
        unfold in_grid in Hxy. by rewrite Hcw, Hch in Hxy.
      + apply label_key_Some. split; [done | lia].
      + destruct (load_labels_has_group w h mask random_color labels_array
                    _ _ Hps) as (s & Hs & <-).
        by apply (Hnone _ _ Hs).
    - apply Hpix in Hin as (_ & _ & Hin). by apply Hin in Hp as [_ <-]. }
  assert (Hgrid : grid_last_owner c).
  { split.
    - intros labels. rewrite Hcl, Hcw, Hch. by intros [= <-].
    - intros x y Hxy. by rewrite Hlabel, Howner. }
  assert (Hwf : canvas_wf c) by apply canvas_wf_load_labels.
  assert (Hdis : regions_disjoint (segmentations c))
    by apply regions_disjoint_load_labels.
  split; [|split; [|split; [|split; [|split; [|split]]]]]; try done.
  - apply last_owner_consistent; [done | apply Hwf | done |].
    intros id s Hin. apply Hpix in Hin as (_ & ? & _). lia.
  - transitivity (set_pixel_labels c (pixel_labels c));
      [|apply set_pixel_labels_id].
    unfold update_pixel_labels. rewrite Hcl. do 2 f_equal.
    apply (shaped_ext 0 h w); [|done|].
    + by apply shaped_label_segmentations, shaped_zeros_like.
    + intros x y Hx Hy.
      rewrite (get_label_segmentations h w) by
        (try done; by apply shaped_zeros_like).
      rewrite np_get_zeros_like.
      apply (Howner x y). unfold in_grid. by rewrite Hcw, Hch.
  - intros id s Hin. pose proof (Hpix _ _ Hin) as (Hid & _ & Hp).
    assert (Hs : ∃ s0, s = compute_segmentation_borders c s0).
    { revert Hin. rewrite Hc at 1. cbn [segmentations set_segmentations].
      rewrite map_map.
      intros ([k ps] & [= -> ->] & _)%list_elem_of_fmap.
      exists (labelled_region random_color (k, ps)).2.
      unfold compute_segmentation_borders.
      f_equal. rewrite Hc. done. }
    destruct Hs as (s0 & ->).
    rewrite border_by_label_compute.
    + done.
    + intros x y Hxy Hin0. rewrite (Hlabel _ _ Hxy).
      cbn [pixels seg_id compute_segmentation_borders] in Hp, Hid.
      rewrite Hid. by apply Hp in Hin0 as [_ ->].
  - apply ids_positive_load_labels.
  - replace (next_seg_id c) with (next_seg_id c1) by by rewrite Hc.
    rewrite Hn. apply labelled_next_le; [lia|].
    intros k ([k' ps] & -> & Hin)%list_elem_of_fmap. cbn [fst].
    assert (∃ q, q ∈ ps) as [[x y] Hq].
    { pose proof Hg as (_ & Hd & _). destruct (Hd _ _ Hin) as [Hne _].
      destruct ps as [|q ps]; [done|]. exists q. by left. }
    apply (grouped_elem _ _ _ _ _ (x, y) Hg Hin) in Hq as [Hs Hk].
    apply label_key_Some in Hk as [<- _]. cbn [fst snd].
    unfold np.get.
    destruct (labels_array !! Z.to_nat y) as [row|] eqn:Hy; simpl; [|lia].
    destruct (row !! Z.to_nat x) as [v|] eqn:Hx; simpl; [|lia].
    apply (proj1 (Forall_lookup _ _) Hrange) in Hy.
    apply (proj1 (Forall_lookup _ _) Hy) in Hx. lia.
Qed.

Lemma load_labels_round_trip_witness :
  let c := load_mask_with_labels 2 2 img3 (λ _, (40, 50, 60))
             diagonal_labels in
  grid_region_consistent c
  ∧ update_pixel_labels c = c
  ∧ (∀ id s, (id, s) ∈ segmentations c →
       border_pixels s = border_by_label c s)
  ∧ canvas_wf c ∧ grid_last_owner c ∧ ids_positive c
  ∧ next_seg_id c ≤ 32767.
Proof.
  apply (load_labels_round_trip 2 2 img3 (λ _, (40, 50, 60)) diagonal_labels).
  - split; [reflexivity|]. repeat constructor.
  - repeat constructor; lia.
Defined.

(** The scenario of the specification: the array [[0, 1], [1, 0]] gives
    one region, of id 1, with the two pixels of the diagonal, both on its
    border. *)
Example load_diagonal_labels :
  let c := load_mask_with_labels 2 2 img3 (λ _, (40, 50, 60))
             diagonal_labels in
  map (λ ks, (ks.1, pixels ks.2, border_pixels ks.2)) (segmentations c)
  = [(1, [(1, 0); (0, 1)], [(1, 0); (0, 1)])]
  ∧ next_seg_id c = 2
  ∧ pixel_labels c = Some diagonal_labels.
Proof. repeat split; vm_compute; reflexivity. Qed.

(** A negative label is kept in the grid as loaded and gives no region;
    the next rebuild of the grid writes 0 in its place. *)
Example load_negative_label :
  let c := load_mask_with_labels 2 1 dark_mask (λ _, (40, 50, 60))
             negative_labels in
  dict_keys (segmentations c) = [2]
  ∧ pixel_labels c = Some [[-1; 2]]
  ∧ pixel_labels (update_pixel_labels c) = Some [[0; 2]].
Proof. repeat split; vm_compute; reflexivity. Qed.

(** ** Undo, then redo, and the history *)

Lemma undo_then_redo_segmentation qp c data rest :
  undo_stack c = OpSegmentation data :: rest →
  segmentations c ≠ [] →
  let c2 := redo_last_operation qp (undo_last_operation qp c) in
  undo_stack c2 = undo_stack c ∧ redo_stack c2 = redo_stack c.
Proof.
  intros Hu Hne.
  destruct (max_key_is_Some _ Hne) as [m Hm].
  destruct (max_key_get _ _ Hm) as [removed Hget].
  destruct (undo_top_segmentation qp c data rest m removed Hu Hm Hget)
    as (c' & -> & _ & _ & Hu' & Hr'). cbv zeta.
  unfold redo_last_operation. simpl. rewrite Hr'. simpl.
  by rewrite Hu', Hu.
Qed.

Lemma undo_then_redo_drawing qp c data rest :
  undo_stack c = OpDrawing data :: rest →
  drawings c ≠ [] →
  let c2 := redo_last_operation qp (undo_last_operation qp c) in
  undo_stack c2 = undo_stack c ∧ redo_stack c2 = redo_stack c.
Proof.
  intros Hu Hne.
  destruct (undo_top_drawing qp c data rest Hu Hne)
    as (c' & -> & _ & _ & Hu' & Hr'). cbv zeta.
  unfold redo_last_operation. simpl. rewrite Hr'. simpl.
  by rewrite Hu', Hu.
Qed.

Lemma undo_then_redo_merge qp c olds new rest :
  undo_stack c = OpMerge olds new :: rest →
  let c2 := redo_last_operation qp (undo_last_operation qp c) in
  undo_stack c2 = undo_stack c ∧ redo_stack c2 = redo_stack c.
Proof.
  intros Hu.
  destruct (undo_top_merge qp c olds new rest Hu)
    as (c' & -> & _ & _ & Hu' & Hr'). cbv zeta.
  unfold redo_last_operation. simpl. rewrite Hr'. simpl.
  by rewrite Hu', Hu.
Qed.

(** X25. Undo followed by redo gives back both history stacks, whenever the
    undo finds what its entry names: an entry for a region and a store
    that is not empty, an entry for a drawing and a drawing that is
    stored, or an entry for a merge.  An undo that finds nothing drops
    its entry, and redo has nothing to put back. *)
Theorem undo_then_redo_restores_history qp c op rest :
  undo_stack c = op :: rest →
  match op with
  | OpSegmentation _ => segmentations c ≠ []
  | OpDrawing _ => drawings c ≠ []
  | OpMerge _ _ => True
  end →
  let c1 := undo_last_operation qp c in
  let c2 := redo_last_operation qp c1 in
  (undo_stack c1 = rest ∧ redo_stack c1 = op :: redo_stack c)
  ∧ undo_stack c2 = undo_stack c ∧ redo_stack c2 = redo_stack c.
Proof.
  intros Hu Hop. cbv zeta. split.
  - destruct op as [data | data | olds new].
    + destruct (max_key_is_Some _ Hop) as [m Hm].
      destruct (max_key_get _ _ Hm) as [removed Hget].
      by destruct (undo_top_segmentation qp c data rest m removed Hu Hm Hget)
        as (c' & -> & _ & _ & Hu' & Hr').
    + by destruct (undo_top_drawing qp c data rest Hu Hop)
        as (c' & -> & _ & _ & Hu' & Hr').
    + by destruct (undo_top_merge qp c olds new rest Hu)
        as (c' & -> & _ & _ & Hu' & Hr').
  - destruct op as [data | data | olds new].
    + by apply (undo_then_redo_segmentation qp c data rest).
    + by apply (undo_then_redo_drawing qp c data rest).
    + by apply (undo_then_redo_merge qp c olds new rest).
Qed.

Lemma undo_then_redo_restores_history_witness :
  let c := flood_fill_at_position (40, 50, 60) 0 0 (create_blank_mask 2 2) in
  let c1 := undo_last_operation dot_painter c in
  let c2 := redo_last_operation dot_painter c1 in
  (undo_stack c1 = []
   ∧ redo_stack c1
     = OpSegmentation
         (compute_segmentation_borders (create_blank_mask 2 2)
            {| seg_id := 1; seg_color := (40, 50, 60);
               pixels := [(0, 0); (0, 1); (1, 1); (1, 0)];
               border_pixels := [] |})
       :: redo_stack c)
  ∧ undo_stack c2 = undo_stack c ∧ redo_stack c2 = redo_stack c.
Proof.
  apply (undo_then_redo_restores_history dot_painter
           (flood_fill_at_position (40, 50, 60) 0 0 (create_blank_mask 2 2))).
  - vm_compute. reflexivity.
  - vm_compute. discriminate.
Defined.

(** ** Panning *)

(** X26. A drag never moves the viewport off the zoomed image: the corner
    stays between 0 and the greatest corner for which the widget is still
    inside the image, and at 0 along an axis where the zoomed image is
    not larger than the widget; the zoom factor is unchanged; a move
    that stays in that range is followed exactly. *)
Theorem drag_keeps_viewport_in_image image_width image_height last_pos pos v :
  let v' := drag_move image_width image_height last_pos pos v in
  let zoomed_width := image_width * zoom_factor v in
  let zoomed_height := image_height * zoom_factor v in
  zoom_factor v' = zoom_factor v
  ∧ 0 ≤ viewport_x v' ≤ Z.max 0 (zoomed_width - widget_width)
  ∧ 0 ≤ viewport_y v' ≤ Z.max 0 (zoomed_height - widget_height)
  ∧ (widget_width ≤ zoomed_width →
     viewport_x v' + widget_width ≤ zoomed_width)
  ∧ (widget_height ≤ zoomed_height →
     viewport_y v' + widget_height ≤ zoomed_height)
  ∧ (zoomed_width ≤ widget_width → viewport_x v' = 0)
  ∧ (zoomed_height ≤ widget_height → viewport_y v' = 0)
  ∧ (0 ≤ viewport_x v - (pos.1 - last_pos.1)
       ≤ Z.max 0 (zoomed_width - widget_width) →
     viewport_x v' = viewport_x v - (pos.1 - last_pos.1))
  ∧ (0 ≤ viewport_y v - (pos.2 - last_pos.2)
       ≤ Z.max 0 (zoomed_height - widget_height) →
     viewport_y v' = viewport_y v - (pos.2 - last_pos.2)).
Proof.
  cbv zeta. unfold drag_move. cbn [zoom_factor viewport_x viewport_y].
  repeat split; lia.
Qed.
